(** * Signal engine of the 3D orthogonality visualisation

    A shallow embedding of the numeric core of the visualisation: the
    Math helpers [getWalsh] and [getLegendre], the sampling loop and
    statistic of [updateGeometry], and the message selection of
    [updateTutorialState].

    JavaScript numbers are read as exact real numbers, so every statement
    below is about the arithmetic the program writes down, not about
    IEEE-754 rounding.  The strings made by [toFixed] are kept as the
    integer they print, counted in units of [10^-digits]. *)

From Stdlib Require Import Reals Lra Lia ZArith List Psatz.
Import ListNotations.
Open Scope R_scope.

(** ** JavaScript primitives used by the engine *)

Module JS.

(** [Math.floor], integer valued. *)
Definition floor (x : R) : Z := Int_part x.

(** [Math.round]: nearest integer, ties towards plus infinity. *)
Definition round (x : R) : Z := floor (x + 1 / 2).

(** [Math.sign] *)
Definition sign (x : R) : R :=
  if Rlt_dec 0 x then 1 else if Rlt_dec x 0 then -1 else 0.

(** Truncation towards zero, the quotient behind [%]. *)
Definition trunc (x : R) : Z :=
  if Rle_dec 0 x then floor x else (- floor (- x))%Z.

(** [a % b]: the remainder takes the sign of the dividend. *)
Definition rem (a b : R) : R := a - b * IZR (trunc (a / b)).

(** [x.toFixed(d)] for [|x| < 10^21] (the range in which JavaScript
    prints fixed notation): the sign is split off, then the integer [n]
    with [n / 10^d] nearest to [|x|] is taken, the larger one on a tie.
    The result is the printed number in units of [10^-d]. *)
Definition toFixed (d : nat) (x : R) : Z :=
  if Rlt_dec x 0 then (- floor (- x * 10 ^ d + 1 / 2))%Z
  else floor (x * 10 ^ d + 1 / 2).

(** [parseFloat] of a string printed with [d] decimals. *)
Definition parseFloat (d : nat) (s : Z) : R := IZR s / 10 ^ d.

(** [a || b] on numbers: [a] unless it is zero. *)
Definition or_else (a b : R) : R := if Req_dec_T a 0 then b else a.

End JS.

(** ** Configuration *)

(** [CONFIG.mode]: the initial value and the four mode buttons only ever
    store ['sine'], ['square'], ['wave'] or ['poly']. *)
Inductive Mode := sine | square | wave | poly.

Record CONFIG := {
  f1 : R;
  f2 : R;
  amp1 : R;
  amp2 : R;
  phase : R;           (* in degrees *)
  speed : R;
  points : nat;        (* number of samples *)
  length : R;          (* length of the domain *)
  isAudioOn : bool;
  mode : Mode
}.

(** The initial value of the global [CONFIG]. *)
Definition CONFIG0 : CONFIG :=
  {| f1 := 2; f2 := 3; amp1 := 1; amp2 := 1; phase := 0; speed := 0.5;
     points := 1200; length := 12; isAudioOn := false; mode := sine |}.

Definition set_phase (c : CONFIG) (p : R) : CONFIG :=
  {| f1 := f1 c; f2 := f2 c; amp1 := amp1 c; amp2 := amp2 c; phase := p;
     speed := speed c; points := points c; length := length c;
     isAudioOn := isAudioOn c; mode := mode c |}.

(** [applyScenario(freq1, freq2, phaseDeg)], the part that writes [CONFIG]. *)
Definition applyScenario (c : CONFIG) (freq1 freq2 phaseDeg : R) : CONFIG :=
  {| f1 := freq1; f2 := freq2; amp1 := amp1 c; amp2 := amp2 c;
     phase := phaseDeg; speed := speed c; points := points c;
     length := length c; isAudioOn := isAudioOn c; mode := mode c |}.

(** ** Math helpers *)

Definition getWalsh (f t : R) : R := JS.sign (sin (2 * PI * f * t)).

(** The [for (let k = 2; k <= n; k++)] loop of [getLegendre]; [fuel]
    bounds the number of iterations. *)
Fixpoint legendre_loop (fuel : nat) (k n : Z) (x p_prev2 p_prev1 p_curr : R)
  : R :=
  match fuel with
  | O => p_curr
  | S fuel' =>
      if (k <=? n)%Z then
        let p_curr' :=
          ((2 * IZR k - 1) * x * p_prev1 - (IZR k - 1) * p_prev2) / IZR k in
        legendre_loop fuel' (k + 1) n x p_prev1 p_curr' p_curr'
      else p_curr
  end.

(** [getLegendre(n, x)]; the order [n] is the integer [Math.round] gave.
    The loop runs [n - 1] times when [n >= 2] and not at all otherwise. *)
Definition getLegendre (n : Z) (x : R) : R :=
  if (n =? 0)%Z then 1
  else if (n =? 1)%Z then x
  else legendre_loop (Z.to_nat (n - 1)) 2 n x 1 x x.

(** ** Geometry generation *)

(** The values [x] and [y] computed for sample [i] by the mode branches of
    the loop body of [updateGeometry]. *)
Definition sampleXY (c : CONFIG) (i : nat) : R * R :=
  let phiRad := (phase c * PI) / 180 in
  let tRelative := INR i / INR (points c) in
  let tReal := tRelative * length c in
  match mode c with
  | square =>
      let tShift := (phase c / 360) / JS.or_else (f2 c) 1 in
      (getWalsh (f1 c) tRelative * 0.8 * amp1 c,
       JS.sign (sin (2 * PI * f2 c * (tRelative + tShift))) * 0.8 * amp2 c)
  | wave =>
      let shift := (phase c / 360) * length c * 0.5 in
      let center1 := 0.3 * length c in
      let center2 := 0.7 * length c - shift in
      let sigma := 0.8 in
      let t1 := tReal - center1 in
      let t2 := tReal - center2 in
      let env1 := exp (- (t1 * t1) / (2 * sigma)) in
      let env2 := exp (- (t2 * t2) / (2 * sigma)) in
      (env1 * sin (2 * PI * f1 c * t1) * amp1 c,
       env2 * sin (2 * PI * f2 c * t2) * amp2 c)
  | poly =>
      let tNorm := (tRelative * 2) - 1 in
      let order1 := JS.round (f1 c) in
      let order2 := JS.round (f2 c) in
      (getLegendre order1 tNorm * amp1 c,
       getLegendre order2 tNorm * amp2 c)
  | sine =>
      (sin (2 * PI * f1 c * tRelative) * amp1 c,
       sin (2 * PI * f2 c * tRelative + phiRad) * amp2 c)
  end.

Definition valueA (c : CONFIG) (i : nat) : R := fst (sampleXY c i).
Definition valueB (c : CONFIG) (i : nat) : R := snd (sampleXY c i).

(** The variables the loop of [updateGeometry] updates. *)
Record Loop := {
  p1 : list R;
  p2 : list R;
  pSum : list R;
  integral : R;
  power1 : R;
  power2 : R
}.

Definition loop_init : Loop :=
  {| p1 := []; p2 := []; pSum := []; integral := 0; power1 := 0;
     power2 := 0 |}.

(** One iteration of the loop, for a domain of length [len] cut in [n]
    samples whose two values are given by [sample]. *)
Definition loop_body_with (len : R) (n : nat) (sample : nat -> R * R)
  (s : Loop) (i : nat) : Loop :=
  let dt := len / INR n in
  let tRelative := INR i / INR n in
  let tReal := tRelative * len in
  let z := tReal - len / 2 in
  let '(x, y) := sample i in
  {| p1 := p1 s ++ [x; 0; z];
     p2 := p2 s ++ [0; y; z];
     pSum := pSum s ++ [x; y; z];
     integral := integral s + x * y * dt;
     power1 := power1 s + x * x * dt;
     power2 := power2 s + y * y * dt |}.

(** The loop stopped after [m] iterations. *)
Definition loop_upto (len : R) (n : nat) (sample : nat -> R * R) (m : nat)
  : Loop :=
  fold_left (loop_body_with len n sample) (seq 0 m) loop_init.

(** The loop body of [updateGeometry]. *)
Definition loop_body (c : CONFIG) : Loop -> nat -> Loop :=
  loop_body_with (length c) (points c) (sampleXY c).

(** [for (let i = 0; i < CONFIG.points; i++)] *)
Definition run_loop (c : CONFIG) : Loop :=
  fold_left (loop_body c) (seq 0 (points c)) loop_init.

(** ** Tutorial state *)

(** The preset buttons, [view-3d] ... [view-comp]. *)
Inductive View :=
  view_3d | view_top | view_f1 | view_f2 | view_xy | view_iso | view_comp.

(** The argument of the last [setStyle] call. *)
Inductive Status := critical | magic | normal.

(** The title/text pairs [updateTutorialState] can install, named after
    the English part of each title; [Target v] is [TARGETS[v]]. *)
Inductive Title :=
| PacketCollision           (* title ending in (Packet Collision) *)
| BasisCollapse             (* title ending in (Basis Collapse) *)
| VisualIllusion            (* title ending in (Visual Illusion) *)
| SignalCollision           (* title ending in (Collision): signals overlap *)
| TimeOrthogonality         (* title ending in (Time Orthogonality) *)
| WalshOrthogonal           (* title ending in (CDMA Code): Walsh *)
| Legendre (o1 o2 : Z)      (* title ending in (Legendre); both orders *)
| IQMagic                   (* title ending in (Magic): I/Q *)
| Target (v : View).        (* title and text of TARGETS[v] *)

Record Tutorial := { status : Status; title : Title }.

(** [activeBtn ? activeBtn.id.replace('view-', '') : '3d'] *)
Definition activeId (activeBtn : option View) : View :=
  match activeBtn with Some v => v | None => view_3d end.

Definition isIsoView (v : View) : bool :=
  match v with view_f1 | view_f2 => true | _ => false end.

Definition updateTutorialState (c : CONFIG) (activeBtn : option View)
  (absCorr : R) : Tutorial :=
  let id := activeId activeBtn in
  if Rlt_dec 0.8 absCorr then
    {| status := critical;
       title := match mode c with
                | wave => PacketCollision
                | poly => BasisCollapse
                | _ => if isIsoView id then VisualIllusion
                       else SignalCollision
                end |}
  else
    match mode c with
    | wave => {| status := normal; title := TimeOrthogonality |}
    | square => {| status := normal; title := WalshOrthogonal |}
    | poly => {| status := normal;
                 title := Legendre (JS.round (f1 c)) (JS.round (f2 c)) |}
    | sine =>
        if Req_dec_T (f1 c) (f2 c) then
          if Rlt_dec (Rabs (JS.rem (phase c) 180 - 90)) 10 then
            {| status := magic; title := IQMagic |}
          else {| status := normal; title := Target id |}
        else {| status := normal; title := Target id |}
    end.

(** ** The statistic and the whole of [updateGeometry] *)

(** What [updateGeometry] leaves behind: the three position arrays, the
    text of [stat-corr] (thousandths), the number in [stat-ortho]
    (tenths of a percent) and the tutorial box. *)
Record Geometry := {
  curveF1 : list R;
  curveF2 : list R;
  curveSum : list R;
  corr : Z;
  orthoScore : Z;
  tutorial : Tutorial
}.

(** [(norm > 0) ? (integral / norm).toFixed(3) : '0.000'] *)
Definition corrOf (s : Loop) : Z :=
  let norm := sqrt (power1 s * power2 s) in
  if Rlt_dec 0 norm then JS.toFixed 3 (integral s / norm) else 0%Z.

(** [Math.abs(parseFloat(corr))] *)
Definition absCorrOf (corr : Z) : R := Rabs (JS.parseFloat 3 corr).

(** [(100 - absCorr * 100).toFixed(1)] *)
Definition orthoScoreOf (absCorr : R) : Z :=
  JS.toFixed 1 (100 - absCorr * 100).

Definition updateGeometry (c : CONFIG) (activeBtn : option View) : Geometry :=
  let s := run_loop c in
  let corr := corrOf s in
  let absCorr := absCorrOf corr in
  {| curveF1 := p1 s;
     curveF2 := p2 s;
     curveSum := pSum s;
     corr := corr;
     orthoScore := orthoScoreOf absCorr;
     tutorial := updateTutorialState c activeBtn absCorr |}.

(** ** The sums of the specification *)

(** [Sigma n g] is [g 0 + ... + g (n-1)], added in the order of the loop. *)
Fixpoint Sigma (n : nat) (g : nat -> R) : R :=
  match n with
  | O => 0
  | S k => Sigma k g + g k
  end.

(** The step [dt] of the left-Riemann sums. *)
Definition dt (c : CONFIG) : R := length c / INR (points c).

(** [tRelative] of sample [i]. *)
Definition tRelative (c : CONFIG) (i : nat) : R := INR i / INR (points c).

(** The phase in radians, [phiRad]. *)
Definition phiRad (c : CONFIG) : R := (phase c * PI) / 180.

(** The three sums over the sampled values, and the norm
    [sqrt(power1 * power2)] made of them. *)
Definition innerProduct (c : CONFIG) : R :=
  Sigma (points c) (fun i => valueA c i * valueB c i * dt c).
Definition powerA (c : CONFIG) : R :=
  Sigma (points c) (fun i => valueA c i * valueA c i * dt c).
Definition powerB (c : CONFIG) : R :=
  Sigma (points c) (fun i => valueB c i * valueB c i * dt c).
Definition norm (c : CONFIG) : R := sqrt (powerA c * powerB c).

(** The three-term recurrence in the words of the specification, as the
    pair [(P_j, P_(j+1))]: [P_0 = 1], [P_1 = x] and
    [k P_k = (2k-1) x P_(k-1) - (k-1) P_(k-2)]. *)
Fixpoint legendre_pair (j : nat) (x : R) : R * R :=
  match j with
  | O => (1, x)
  | S j' =>
      let '(a, b) := legendre_pair j' x in
      let k := INR j' + 2 in
      (b, ((2 * k - 1) * x * b - (k - 1) * a) / k)
  end.

(** ** Reading the result in the words of the specification *)

(** The categories of the specification. *)
Inductive Classification :=
| Collision
| QuadratureMagic
| TimeOrthogonal
| WalshOrthogonalTag
| PolynomialOrthogonal
| Neutral.

(** The category a tutorial box shows: the four collision titles are the
    ones installed under the critical style, the view presets are the
    fallback. *)
Definition classification (t : Tutorial) : Classification :=
  match title t with
  | PacketCollision | BasisCollapse | VisualIllusion | SignalCollision =>
      Collision
  | IQMagic => QuadratureMagic
  | TimeOrthogonality => TimeOrthogonal
  | WalshOrthogonal => WalshOrthogonalTag
  | Legendre _ _ => PolynomialOrthogonal
  | Target _ => Neutral
  end.

(** How a call of the engine can end.  [updateGeometry] holds no [throw]
    and no validation, so [engine] always ends in [Rendered]; the second
    constructor is the error of the specification. *)
Inductive Outcome :=
| Rendered (g : Geometry)
| InvalidConfiguration.

Definition engine (c : CONFIG) (activeBtn : option View) : Outcome :=
  Rendered (updateGeometry c activeBtn).

(** Two configurations that differ at most in [phase]. *)
Definition same_except_phase (c1 c2 : CONFIG) : Prop :=
  f1 c1 = f1 c2 /\ f2 c1 = f2 c2 /\ amp1 c1 = amp1 c2 /\ amp2 c1 = amp2 c2
  /\ speed c1 = speed c2 /\ points c1 = points c2 /\ length c1 = length c2
  /\ isAudioOn c1 = isAudioOn c2 /\ mode c1 = mode c2.

(** ** Configurations used as examples *)

(** The initial configuration with one field changed. *)
Definition with_mode (c : CONFIG) (m : Mode) : CONFIG :=
  {| f1 := f1 c; f2 := f2 c; amp1 := amp1 c; amp2 := amp2 c;
     phase := phase c; speed := speed c; points := points c;
     length := length c; isAudioOn := isAudioOn c; mode := m |}.

Definition with_amp1 (c : CONFIG) (a : R) : CONFIG :=
  {| f1 := f1 c; f2 := f2 c; amp1 := a; amp2 := amp2 c;
     phase := phase c; speed := speed c; points := points c;
     length := length c; isAudioOn := isAudioOn c; mode := mode c |}.

Definition with_points (c : CONFIG) (n : nat) : CONFIG :=
  {| f1 := f1 c; f2 := f2 c; amp1 := amp1 c; amp2 := amp2 c;
     phase := phase c; speed := speed c; points := n;
     length := length c; isAudioOn := isAudioOn c; mode := mode c |}.

Definition with_length (c : CONFIG) (l : R) : CONFIG :=
  {| f1 := f1 c; f2 := f2 c; amp1 := amp1 c; amp2 := amp2 c;
     phase := phase c; speed := speed c; points := points c;
     length := l; isAudioOn := isAudioOn c; mode := mode c |}.

(** The scenario buttons scene-fdm, scene-bad and scene-iq, pressed on the
    initial configuration. *)
Definition scene_fdm : CONFIG := applyScenario CONFIG0 2 3 0.
Definition scene_bad : CONFIG := applyScenario CONFIG0 2 2 0.
Definition scene_iq : CONFIG := applyScenario CONFIG0 2 2 90.

(** Square mode at one cycle per domain, without and with a phase. *)
Definition square_1Hz : CONFIG :=
  applyScenario (with_mode CONFIG0 square) 1 1 0.
Definition square_1Hz_90 : CONFIG :=
  applyScenario (with_mode CONFIG0 square) 1 1 90.

(** Poly mode, orders 1 and 2, on three samples. *)
Definition poly_1_2_on_3 : CONFIG :=
  with_points (applyScenario (with_mode CONFIG0 poly) 1 2 0) 3.

(** ** The rest of the later variant *)

Definition with_amps (c : CONFIG) (a b : R) : CONFIG :=
  {| f1 := f1 c; f2 := f2 c; amp1 := a; amp2 := b;
     phase := phase c; speed := speed c; points := points c;
     length := length c; isAudioOn := isAudioOn c; mode := mode c |}.

(** [getWavelet(f, t, offset)].  It reads [CONFIG.length]; of [offset]
    only the truth value is used. *)
Definition getWavelet (c : CONFIG) (f t : R) (offset : bool) : R :=
  let center := (if offset then 0.75 else 0.25) * length c in
  let sigma := 1.0 in
  let localT := (t * length c) - center in
  let envelope := exp (- (localT * localT) / (2 * sigma * sigma)) in
  envelope * sin (2 * PI * f * localT).

Definition Vec3 : Type := R * R * R.

(** [TARGETS[id].p] and [TARGETS[id].t]. *)
Definition TARGETS_p (id : View) : Vec3 :=
  match id with
  | view_3d => (8, 6, 10)
  | view_top => (0.1, 15, 0)
  | view_xy => (0, 0, 5)
  | view_f1 => (0, 0, 12)
  | view_f2 => (12, 0, 0)
  | view_iso => (7, 7, 7)
  | view_comp => (4, 4, 10)
  end.

Definition TARGETS_t (id : View) : Vec3 :=
  match id with
  | view_xy => (0, 0, -1)
  | _ => (0, 0, 0)
  end.

(** Where the three tweens of [transitionCamera] end, and what the
    function leaves on the page: the active preset button and the title
    of the tutorial box. *)
Record Transition := {
  to_fov : R;
  to_position : Vec3;
  to_target : Vec3;
  now_active : option View;
  now_title : Title
}.

Definition transitionCamera (id : View) : Transition :=
  let distMult := if isIsoView id then 25 else 1 in
  let '(px, py, pz) := TARGETS_p id in
  {| to_fov := if isIsoView id then 1.5 else 60;
     to_position := (px * distMult, py * distMult, pz * distMult);
     to_target := TARGETS_t id;
     now_active := Some id;
     now_title := Target id |}.

(** The two variables of the animation loop. *)
Record Clock := { progress : R; lastTime : R }.

Definition clock0 : Clock := {| progress := 0; lastTime := 0 |}.

(** What one frame draws: the three dots and the two connector lines. *)
Record Dots := {
  dotF1 : Vec3;
  dotF2 : Vec3;
  dotSum : Vec3;
  connectorX : list R;
  connectorY : list R
}.

(** One call of [animate(time)]. *)
Definition animate (c : CONFIG) (k : Clock) (time : R) : Clock * Dots :=
  let deltaTime := time - lastTime k in
  let progress' := progress k + deltaTime * 0.001 * speed c in
  let t := JS.rem progress' 1 in
  let realT := t * length c in
  let phiRad := (phase c * PI) / 180 in
  let x := sin (2 * PI * f1 c * t) in
  let y := sin (2 * PI * f2 c * t + phiRad) in
  let z := realT - length c / 2 in
  ({| progress := progress'; lastTime := time |},
   {| dotF1 := (x, 0, z);
      dotF2 := (0, y, z);
      dotSum := (x, y, z);
      connectorX := [x; y; z; x; 0; z];
      connectorY := [x; y; z; 0; y; z] |}).

(** The clock after the frames the host calls at the given times. *)
Definition frames (c : CONFIG) (k : Clock) (times : list R) : Clock :=
  fold_left (fun k time => fst (animate c k time)) times k.

(** The argument of [applyScenarioAdvanced]; [unlisted] is any string
    other than the three the buttons pass. *)
Inductive Advanced := anc | beat | am | unlisted.

(** [applyScenarioAdvanced(type)], the part that writes [CONFIG]. *)
Definition applyScenarioAdvanced (c : CONFIG) (type : Advanced) : CONFIG :=
  let c1 := with_amps c 1.0 1.0 in
  match type with
  | anc => applyScenario c1 2.0 2.0 180
  | beat => applyScenario c1 5.0 5.5 0
  | am => with_amps (applyScenario c1 1.0 12.0 0) 1.0 0.5
  | unlisted => c1
  end.

(** The title a mode button leaves: what [updateGeometry] installed is
    overwritten by [modeDescriptions[mode]]. *)
Inductive Shown :=
| FromTutorial (t : Title)
| ModeDescription (m : Mode).

Record Box := { box_status : Status; box_title : Shown }.

(** The click handler of the button [mode-m]. *)
Definition modeButton (c : CONFIG) (activeBtn : option View) (m : Mode)
  : CONFIG * Geometry * Box :=
  let c' := with_mode c m in
  let g := updateGeometry c' activeBtn in
  (c', g,
   {| box_status := status (tutorial g); box_title := ModeDescription m |}).

(** The coordinates [updateGeometry] pushes for sample [i]. *)
Definition zOf (c : CONFIG) (i : nat) : R :=
  tRelative c i * length c - length c / 2.

(** The argument [2 * PI * k * tRelative] of the sine at sample [i] of
    [N], for a whole frequency [k]. *)
Definition angle (N k i : nat) : R := 2 * PI * INR k * (INR i / INR N).

(** The sums of products of the samples, without the step. *)
Definition dotAB (c : CONFIG) : R :=
  Sigma (points c) (fun i => valueA c i * valueB c i).
Definition dotAA (c : CONFIG) : R :=
  Sigma (points c) (fun i => valueA c i * valueA c i).
Definition dotBB (c : CONFIG) : R :=
  Sigma (points c) (fun i => valueB c i * valueB c i).

(** ** The earlier variant of the same file *)

Module V1.

(** [CONFIG] has neither amplitudes nor a mode. *)
Record CONFIG := {
  f1 : R;
  f2 : R;
  phase : R;
  speed : R;
  points : nat;
  length : R;
  isAudioOn : bool
}.

(** The preset buttons; there is no composite view. *)
Inductive View := view_3d | view_top | view_f1 | view_f2 | view_xy | view_iso.

Inductive Title :=
| VisualIllusion            (* title ending in (Visual Illusion) *)
| SignalCollision           (* title ending in (Collision) *)
| IQMagic                   (* title ending in (Quadrature Magic) *)
| F1Clean                   (* title ending in (F1 Clean) *)
| F2Clean                   (* title ending in (F2 Clean) *)
| Target (v : View).        (* title and text of TARGETS[v] *)

Record Geometry := {
  curveF1 : list R;
  curveF2 : list R;
  curveSum : list R;
  corr : Z;
  orthoScore : Z;
  status : Status;
  title : Title
}.

Definition sampleXY (c : CONFIG) (i : nat) : R * R :=
  let phiRad := (phase c * PI) / 180 in
  let tRelative := INR i / INR (points c) in
  (sin (2 * PI * f1 c * tRelative),
   sin (2 * PI * f2 c * tRelative + phiRad)).

Definition run_loop (c : CONFIG) : Loop :=
  fold_left (loop_body_with (length c) (points c) (sampleXY c))
    (seq 0 (points c)) loop_init.

Definition activeId (activeBtn : option View) : View :=
  match activeBtn with Some v => v | None => view_3d end.

Definition isIsoView (v : View) : bool :=
  match v with view_f1 | view_f2 => true | _ => false end.

(** The logic tree at the end of [updateGeometry]. *)
Definition logicTree (c : CONFIG) (activeBtn : option View) (absCorr : R)
  : Status * Title :=
  let id := activeId activeBtn in
  let preset :=
    if isIsoView id then
      if Rlt_dec absCorr 0.1 then
        match id with view_f1 => F1Clean | _ => F2Clean end
      else Target id
    else Target id in
  if Rlt_dec 0.9 absCorr then
    (critical, if isIsoView id then VisualIllusion else SignalCollision)
  else if Req_dec_T (f1 c) (f2 c) then
    if Rlt_dec (Rabs absCorr) 0.1 then (magic, IQMagic)
    else (normal, preset)
  else (normal, preset).

Definition updateGeometry (c : CONFIG) (activeBtn : option View) : Geometry :=
  let s := run_loop c in
  let corr := corrOf s in
  let absCorr := absCorrOf corr in
  let '(st, ti) := logicTree c activeBtn absCorr in
  {| curveF1 := p1 s;
     curveF2 := p2 s;
     curveSum := pSum s;
     corr := corr;
     orthoScore := orthoScoreOf absCorr;
     status := st;
     title := ti |}.

(** [applyScenario(freq1, freq2, phaseDeg)], the part that writes
    [CONFIG]. *)
Definition applyScenario (c : CONFIG) (freq1 freq2 phaseDeg : R) : CONFIG :=
  {| f1 := freq1; f2 := freq2; phase := phaseDeg; speed := speed c;
     points := points c; length := length c; isAudioOn := isAudioOn c |}.

(** The initial value of the global [CONFIG]. *)
Definition CONFIG0 : CONFIG :=
  {| f1 := 2; f2 := 3; phase := 0; speed := 0.5; points := 1200;
     length := 12; isAudioOn := false |}.

End V1.

(** The later configuration that behaves as an earlier one: unit
    amplitudes and sine mode, the initial values of the later [CONFIG]. *)
Definition later (c : V1.CONFIG) : CONFIG :=
  {| f1 := V1.f1 c; f2 := V1.f2 c; amp1 := 1.0; amp2 := 1.0;
     phase := V1.phase c; speed := V1.speed c; points := V1.points c;
     length := V1.length c; isAudioOn := V1.isAudioOn c; mode := sine |}.

(** ** The first variants *)

(** [src/main.js], the variant before the phase slider: two sines of unit
    amplitude, and a correlation normalised by half the length of the
    domain instead of the measured powers. *)
Module Main.

Record CONFIG := {
  f1 : R;
  f2 : R;
  speed : R;
  points : nat;
  length : R;
  isAudioOn : bool
}.

(** The variables the loop of [updateGeometry] updates. *)
Record Loop := {
  p1 : list R;
  p2 : list R;
  pSum : list R;
  integral : R
}.

Definition loop_init : Loop :=
  {| p1 := []; p2 := []; pSum := []; integral := 0 |}.

Definition loop_body (c : CONFIG) (s : Loop) (i : nat) : Loop :=
  let dt := length c / INR (points c) in
  let t := (INR i / INR (points c)) * length c in
  let z := t - length c / 2 in
  let x := sin (2 * PI * f1 c * (t / length c)) in
  let y := sin (2 * PI * f2 c * (t / length c)) in
  {| p1 := p1 s ++ [x; 0; z];
     p2 := p2 s ++ [0; y; z];
     pSum := pSum s ++ [x; y; z];
     integral := integral s + x * y * dt |}.

Definition run_loop (c : CONFIG) : Loop :=
  fold_left (loop_body c) (seq 0 (points c)) loop_init.

Record Geometry := {
  curveF1 : list R;
  curveF2 : list R;
  curveSum : list R;
  corr : Z;         (* stat-corr, in thousandths *)
  orthoScore : Z    (* stat-ortho, in tenths of a percent *)
}.

Definition updateGeometry (c : CONFIG) : Geometry :=
  let s := run_loop c in
  let corr := JS.toFixed 3 (integral s / (length c / 2)) in
  {| curveF1 := p1 s;
     curveF2 := p2 s;
     curveSum := pSum s;
     corr := corr;
     orthoScore := orthoScoreOf (absCorrOf corr) |}.

End Main.

(** The two oldest variants, [updateCurves], identical in both: the
    frequencies are globals the sliders write, the number of samples and
    the length are constants, and the panel shows the integral itself
    with a verdict. *)
Module Curves.

Record State := {
  f1 : R;
  f2 : R;
  opacity : R;
  speed : R
}.

Definition pointsCount : nat := 1000.
Definition length : R := 10.

Record Loop := {
  positionsX : list R;
  positionsY : list R;
  positionsSum : list R;
  integral : R
}.

Definition loop_init : Loop :=
  {| positionsX := []; positionsY := []; positionsSum := [];
     integral := 0 |}.

Definition loop_body (g : State) (s : Loop) (i : nat) : Loop :=
  let dt := length / INR pointsCount in
  let st := (INR i / INR pointsCount) * length in
  let xVal := sin (2 * PI * f1 g * (st / length)) in
  let yVal := sin (2 * PI * f2 g * (st / length)) in
  let zVal := st - length / 2 in
  {| positionsX := positionsX s ++ [xVal; 0; zVal];
     positionsY := positionsY s ++ [0; yVal; zVal];
     positionsSum := positionsSum s ++ [xVal; yVal; zVal];
     integral := integral s + xVal * yVal * dt |}.

Definition run_loop (g : State) : Loop :=
  fold_left (loop_body g) (seq 0 pointsCount) loop_init.

(** The two texts of the ortho-check panel. *)
Inductive Verdict := orthogonal | not_fully_orthogonal.

Record Panel := {
  lineX : list R;
  lineY : list R;
  lineSum : list R;
  lineSum_opacity : R;
  shown : Z;          (* integral.toFixed(3), in thousandths *)
  verdict : Verdict
}.

Definition updateCurves (g : State) : Panel :=
  let s := run_loop g in
  {| lineX := positionsX s;
     lineY := positionsY s;
     lineSum := positionsSum s;
     lineSum_opacity := opacity g;
     shown := JS.toFixed 3 (integral s);
     verdict := if Rlt_dec (Rabs (integral s)) 0.1 then orthogonal
                else not_fully_orthogonal |}.

(** The initial values of the globals. *)
Definition State0 : State :=
  {| f1 := 2; f2 := 3; opacity := 0.8; speed := 0.5 |}.

(** The input handler of a frequency slider, before it calls
    [updateCurves]. *)
Definition set_frequencies (g : State) (a b : R) : State :=
  {| f1 := a; f2 := b; opacity := opacity g; speed := speed g |}.

End Curves.

(** * Properties *)

(** ** Rounding and remainders *)

Section Rounding.

Lemma Rabs_le_between (x y : R) : Rabs x <= y -> - y <= x <= y.
Proof. unfold Rabs. destruct (Rcase_abs x); lra. Qed.

Lemma floor_spec (x : R) : IZR (JS.floor x) <= x < IZR (JS.floor x) + 1.
Proof.
  unfold JS.floor. destruct (base_Int_part x) as [H1 H2]. lra.
Qed.

Lemma floor_unique (x : R) (z : Z) :
  IZR z <= x < IZR z + 1 -> JS.floor x = z.
Proof.
  intros [H1 H2]. unfold JS.floor. symmetry. apply Int_part_spec. lra.
Qed.

Lemma floor_le (x y : R) : x <= y -> (JS.floor x <= JS.floor y)%Z.
Proof.
  intros Hxy.
  destruct (floor_spec x) as [Hx _], (floor_spec y) as [_ Hy].
  assert (H : IZR (JS.floor x) < IZR (JS.floor y) + 1) by lra.
  rewrite <- plus_IZR in H. apply lt_IZR in H. lia.
Qed.

Lemma floor_IZR_half (z : Z) : JS.floor (IZR z + 1 / 2) = z.
Proof. apply floor_unique. lra. Qed.

Lemma pow10_pos (d : nat) : 0 < 10 ^ d.
Proof. apply pow_lt. lra. Qed.

(** A number that already has [d] decimals is printed unchanged. *)
Lemma toFixed_exact (d : nat) (z : Z) :
  JS.toFixed d (IZR z / 10 ^ d) = z.
Proof.
  pose proof (pow10_pos d) as Hp.
  unfold JS.toFixed.
  assert (E : IZR z / 10 ^ d * 10 ^ d = IZR z) by (field; lra).
  destruct (Rlt_dec (IZR z / 10 ^ d) 0) as [Hneg | Hpos].
  - replace (- (IZR z / 10 ^ d) * 10 ^ d + 1 / 2)
      with (IZR (- z) + 1 / 2) by (rewrite opp_IZR; lra).
    rewrite floor_IZR_half. lia.
  - rewrite E. apply floor_IZR_half.
Qed.

(** The printed number is within half a unit of the last decimal. *)
Lemma toFixed_near (d : nat) (x : R) :
  Rabs (JS.parseFloat d (JS.toFixed d x) - x) <= 1 / (2 * 10 ^ d).
Proof.
  pose proof (pow10_pos d) as Hp.
  unfold JS.parseFloat, JS.toFixed.
  assert (Hs : forall n : Z, forall y : R,
             Rabs (IZR n - y) <= 1 / 2 ->
             Rabs (IZR n / 10 ^ d - y / 10 ^ d) <= 1 / (2 * 10 ^ d)).
  { intros n y Hy.
    replace (IZR n / 10 ^ d - y / 10 ^ d) with ((IZR n - y) * / 10 ^ d)
      by (field; lra).
    rewrite Rabs_mult, (Rabs_pos_eq (/ 10 ^ d))
      by (left; apply Rinv_0_lt_compat; exact Hp).
    replace (1 / (2 * 10 ^ d)) with (1 / 2 * / 10 ^ d) by (field; lra).
    apply Rmult_le_compat_r; [| exact Hy].
    left. apply Rinv_0_lt_compat. exact Hp. }
  destruct (Rlt_dec x 0) as [Hneg | Hpos].
  - destruct (floor_spec (- x * 10 ^ d + 1 / 2)) as [H1 H2].
    replace x with ((x * 10 ^ d) / 10 ^ d) at 2 by (field; lra).
    apply Hs. rewrite opp_IZR. apply Rabs_le. lra.
  - destruct (floor_spec (x * 10 ^ d + 1 / 2)) as [H1 H2].
    replace x with ((x * 10 ^ d) / 10 ^ d) at 2 by (field; lra).
    apply Hs. apply Rabs_le. lra.
Qed.

(** Rounding keeps a number of [[-1, 1]] inside [[-1, 1]]. *)
Lemma toFixed_unit_interval (d : nat) (x : R) :
  -1 <= x <= 1 -> -1 <= JS.parseFloat d (JS.toFixed d x) <= 1.
Proof.
  intros [Hlo Hhi]. pose proof (pow10_pos d) as Hp.
  assert (E10 : 10 ^ d = IZR (10 ^ Z.of_nat d)).
  { rewrite <- pow_IZR. reflexivity. }
  assert (Hb : (- 10 ^ Z.of_nat d <= JS.toFixed d x <= 10 ^ Z.of_nat d)%Z).
  { unfold JS.toFixed. destruct (Rlt_dec x 0) as [Hneg | Hpos].
    - assert (H0 : (0 <= JS.floor (- x * 10 ^ d + 1 / 2))%Z).
      { rewrite <- (floor_IZR_half 0). apply floor_le. simpl. nra. }
      assert (H1 : (JS.floor (- x * 10 ^ d + 1 / 2) <= 10 ^ Z.of_nat d)%Z).
      { rewrite <- (floor_IZR_half (10 ^ Z.of_nat d)). apply floor_le.
        rewrite <- E10. nra. }
      assert (0 <= 10 ^ Z.of_nat d)%Z by (apply Z.pow_nonneg; lia).
      lia.
    - assert (H0 : (0 <= JS.floor (x * 10 ^ d + 1 / 2))%Z).
      { rewrite <- (floor_IZR_half 0). apply floor_le. simpl. nra. }
      assert (H1 : (JS.floor (x * 10 ^ d + 1 / 2) <= 10 ^ Z.of_nat d)%Z).
      { rewrite <- (floor_IZR_half (10 ^ Z.of_nat d)). apply floor_le.
        rewrite <- E10. nra. }
      lia. }
  unfold JS.parseFloat. destruct Hb as [Hb1 Hb2].
  apply IZR_le in Hb1, Hb2. rewrite opp_IZR, <- E10 in Hb1.
  rewrite <- E10 in Hb2.
  split.
  - apply Rmult_le_reg_r with (10 ^ d); [exact Hp |].
    unfold Rdiv. rewrite Rmult_assoc, Rinv_l by lra. lra.
  - apply Rmult_le_reg_r with (10 ^ d); [exact Hp |].
    unfold Rdiv. rewrite Rmult_assoc, Rinv_l by lra. lra.
Qed.

End Rounding.

Lemma round_IZR (z : Z) : JS.round (IZR z) = z.
Proof. apply floor_IZR_half. Qed.

Lemma rem_small (a b : R) : 0 <= a < b -> JS.rem a b = a.
Proof.
  intros [Ha Hb]. unfold JS.rem, JS.trunc.
  assert (Hq : 0 <= a / b < 1).
  { split.
    - apply Rmult_le_pos; [exact Ha | left; apply Rinv_0_lt_compat; lra].
    - apply Rmult_lt_reg_r with b; [lra |].
      unfold Rdiv. rewrite Rmult_assoc, Rinv_l by lra. lra. }
  destruct (Rle_dec 0 (a / b)) as [_ | Hn]; [| lra].
  rewrite (floor_unique (a / b) 0) by (simpl; lra). simpl. lra.
Qed.

(** For a phase that is not negative [%] is the remainder of the
    Euclidean division. *)
Lemma rem_nonneg (a b : R) :
  0 <= a -> 0 < b ->
  0 <= JS.rem a b < b /\ a = b * IZR (JS.floor (a / b)) + JS.rem a b.
Proof.
  intros Ha Hb. unfold JS.rem, JS.trunc.
  assert (Hq : 0 <= a / b)
    by (apply Rmult_le_pos; [exact Ha | left; apply Rinv_0_lt_compat; lra]).
  destruct (Rle_dec 0 (a / b)) as [_ | Hn]; [| contradiction].
  destruct (floor_spec (a / b)) as [H1 H2].
  assert (E : a = b * (a / b)) by (field; lra).
  split; [| lra].
  set (q := IZR (JS.floor (a / b))) in *.
  split.
  - assert (b * q <= b * (a / b))
      by (apply Rmult_le_compat_l; lra).
    lra.
  - assert (b * (a / b) < b * (q + 1))
      by (apply Rmult_lt_compat_l; lra).
    lra.
Qed.

Section SignFacts.

Lemma sign_pos (x : R) : 0 < x -> JS.sign x = 1.
Proof.
  intros H. unfold JS.sign. destruct (Rlt_dec 0 x); [reflexivity | lra].
Qed.

Lemma sign_zero : JS.sign 0 = 0.
Proof.
  unfold JS.sign. destruct (Rlt_dec 0 0); [lra | reflexivity].
Qed.

Lemma sign_cases (x : R) : JS.sign x = 1 \/ JS.sign x = -1 \/ JS.sign x = 0.
Proof.
  unfold JS.sign. destruct (Rlt_dec 0 x); [| destruct (Rlt_dec x 0)]; auto.
Qed.

End SignFacts.

(** ** Sums *)

Section SigmaFacts.

Lemma Sigma_ext (n : nat) (g h : nat -> R) :
  (forall i, (i < n)%nat -> g i = h i) -> Sigma n g = Sigma n h.
Proof.
  induction n as [| n IH]; intros E; [reflexivity |].
  cbn [Sigma]. rewrite IH, (E n) by (intros; try apply E; lia).
  reflexivity.
Qed.

Lemma Sigma_scal (n : nat) (g : nat -> R) (k : R) :
  Sigma n (fun i => g i * k) = Sigma n g * k.
Proof.
  induction n as [| n IH]; cbn [Sigma]; [lra | rewrite IH; lra].
Qed.

Lemma Sigma_zero (n : nat) (g : nat -> R) :
  (forall i, (i < n)%nat -> g i = 0) -> Sigma n g = 0.
Proof.
  induction n as [| n IH]; intros E; [reflexivity |].
  cbn [Sigma]. rewrite IH, (E n) by (intros; try apply E; lia). lra.
Qed.

Lemma Sigma_sqr_nonneg (n : nat) (g : nat -> R) :
  0 <= Sigma n (fun i => g i * g i).
Proof.
  induction n as [| n IH]; cbn [Sigma]; [lra | nra].
Qed.

(** Discrete Cauchy-Schwarz. *)
Lemma Sigma_cauchy_schwarz (n : nat) (a b : nat -> R) :
  Sigma n (fun i => a i * b i) * Sigma n (fun i => a i * b i)
  <= Sigma n (fun i => a i * a i) * Sigma n (fun i => b i * b i).
Proof.
  induction n as [| n IH]; cbn [Sigma]; [lra |].
  pose proof (Sigma_sqr_nonneg n a) as HA.
  pose proof (Sigma_sqr_nonneg n b) as HB.
  set (A := Sigma n (fun i => a i * a i)) in *.
  set (B := Sigma n (fun i => b i * b i)) in *.
  set (C := Sigma n (fun i => a i * b i)) in *.
  set (x := a n). set (y := b n).
  assert (Hmix : 2 * (x * y) * C <= A * (y * y) + (x * x) * B).
  { destruct (Rle_dec (2 * (x * y) * C) 0) as [Hn | Hp].
    - nra.
    - apply Rnot_le_lt in Hp.
      apply Rnot_lt_le. intros Hlt.
      assert (Hy : 0 <= y * y) by nra.
      assert (Hx : 0 <= x * x) by nra.
      assert (Hu : 0 <= A * (y * y)) by (apply Rmult_le_pos; assumption).
      assert (Hv : 0 <= x * x * B) by (apply Rmult_le_pos; assumption).
      assert (H1 : (A * (y * y) + x * x * B) * (A * (y * y) + x * x * B)
                   < (2 * (x * y) * C) * (2 * (x * y) * C))
        by (apply Rmult_le_0_lt_compat; lra).
      assert (H2 : 4 * (A * (y * y)) * (x * x * B)
                   <= (A * (y * y) + x * x * B) * (A * (y * y) + x * x * B)).
      { pose proof (Rle_0_sqr (A * (y * y) - x * x * B)) as Hs.
        unfold Rsqr in Hs. lra. }
      assert (H3 : (x * y) * (x * y) * (C * C)
                   <= (x * y) * (x * y) * (A * B))
        by (apply Rmult_le_compat_l; nra).
      nra. }
  nra.
Qed.

End SigmaFacts.

Lemma Sigma_nonneg (n : nat) (g : nat -> R) :
  (forall i, 0 <= g i) -> 0 <= Sigma n g.
Proof.
  intros H. induction n as [| n IH]; cbn [Sigma]; [lra |].
  pose proof (H n). lra.
Qed.

Lemma Sigma_ge_term (n j : nat) (g : nat -> R) :
  (forall i, 0 <= g i) -> (j < n)%nat -> g j <= Sigma n g.
Proof.
  intros H Hj. induction n as [| n IH]; [lia |]. cbn [Sigma].
  destruct (Nat.eq_dec j n) as [-> | Hne].
  - pose proof (Sigma_nonneg n g H). lra.
  - pose proof (H n). assert (g j <= Sigma n g) by (apply IH; lia). lra.
Qed.

Section AntisymmetricSums.

Lemma Sigma_shift (m : nat) (h : nat -> R) :
  Sigma (S m) h = h O + Sigma m (fun i => h (S i)).
Proof.
  induction m as [| m IH]; [cbn [Sigma]; lra |].
  change (Sigma (S (S m)) h) with (Sigma (S m) h + h (S m)).
  rewrite IH. cbn [Sigma]. lra.
Qed.

Lemma Sigma_rev (m : nat) :
  forall h : nat -> R, Sigma m h = Sigma m (fun i => h (m - 1 - i)%nat).
Proof.
  induction m as [| m IH]; intros h; [reflexivity |].
  rewrite Sigma_shift. cbn [Sigma].
  replace (S m - 1 - m)%nat with O by lia.
  rewrite (IH (fun i => h (S i))).
  rewrite (Sigma_ext m (fun i => h (S (m - 1 - i)))
             (fun i => h (S m - 1 - i)%nat)).
  - lra.
  - intros i Hi. f_equal. lia.
Qed.

Lemma Sigma_opp (m : nat) (h : nat -> R) :
  Sigma m (fun i => - h i) = - Sigma m h.
Proof.
  induction m as [| m IH]; cbn [Sigma]; [lra | rewrite IH; lra].
Qed.

(** A sum whose terms cancel in pairs [i], [n - i] and whose first term
    is zero vanishes. *)
Lemma Sigma_antisymmetric (n : nat) (g : nat -> R) :
  g O = 0 ->
  (forall i, (0 < i < n)%nat -> g (n - i)%nat = - g i) ->
  Sigma n g = 0.
Proof.
  intros H0 Hanti. destruct n as [| m]; [reflexivity |].
  rewrite Sigma_shift, H0.
  assert (E : Sigma m (fun i => g (S i)) = - Sigma m (fun i => g (S i))).
  { rewrite (Sigma_rev m (fun i => g (S i))) at 1.
    rewrite <- Sigma_opp. apply Sigma_ext. intros i Hi.
    replace (S (m - 1 - i)) with (S m - S i)%nat by lia.
    apply Hanti. lia. }
  lra.
Qed.

End AntisymmetricSums.

(** ** The loop and its sums *)

Section LoopFacts.

Variables (len : R) (n : nat) (sample : nat -> R * R).

Lemma loop_upto_S (m : nat) :
  loop_upto len n sample (S m)
  = loop_body_with len n sample (loop_upto len n sample m) m.
Proof.
  unfold loop_upto. rewrite seq_S, fold_left_app. reflexivity.
Qed.

Lemma loop_upto_integral (m : nat) :
  integral (loop_upto len n sample m)
  = Sigma m (fun i => fst (sample i) * snd (sample i) * (len / INR n)).
Proof.
  induction m as [| m IH]; [reflexivity |].
  rewrite loop_upto_S. cbn [Sigma]. rewrite <- IH.
  unfold loop_body_with.
  destruct (sample m) as [x y]. reflexivity.
Qed.

Lemma loop_upto_power1 (m : nat) :
  power1 (loop_upto len n sample m)
  = Sigma m (fun i => fst (sample i) * fst (sample i) * (len / INR n)).
Proof.
  induction m as [| m IH]; [reflexivity |].
  rewrite loop_upto_S. cbn [Sigma]. rewrite <- IH.
  unfold loop_body_with.
  destruct (sample m) as [x y]. reflexivity.
Qed.

Lemma loop_upto_power2 (m : nat) :
  power2 (loop_upto len n sample m)
  = Sigma m (fun i => snd (sample i) * snd (sample i) * (len / INR n)).
Proof.
  induction m as [| m IH]; [reflexivity |].
  rewrite loop_upto_S. cbn [Sigma]. rewrite <- IH.
  unfold loop_body_with.
  destruct (sample m) as [x y]. reflexivity.
Qed.

(** Each iteration pushes three numbers on each array. *)
Lemma loop_upto_lengths (m : nat) :
  List.length (p1 (loop_upto len n sample m)) = (3 * m)%nat
  /\ List.length (p2 (loop_upto len n sample m)) = (3 * m)%nat
  /\ List.length (pSum (loop_upto len n sample m)) = (3 * m)%nat.
Proof.
  induction m as [| m (IH1 & IH2 & IH3)]; [repeat split |].
  rewrite loop_upto_S. unfold loop_body_with.
  destruct (sample m) as [x y]. cbn [p1 p2 pSum].
  rewrite !length_app, IH1, IH2, IH3. cbn [List.length]. lia.
Qed.

(** The inner product never exceeds the geometric mean of the powers. *)
Lemma loop_upto_cauchy_schwarz (m : nat) :
  Rabs (integral (loop_upto len n sample m))
  <= sqrt (power1 (loop_upto len n sample m)
           * power2 (loop_upto len n sample m)).
Proof.
  rewrite loop_upto_integral, loop_upto_power1, loop_upto_power2.
  rewrite !(Sigma_scal m _ (len / INR n)).
  rewrite <- sqrt_Rsqr_abs. apply sqrt_le_1_alt. unfold Rsqr.
  pose proof (Sigma_cauchy_schwarz m (fun i => fst (sample i))
                (fun i => snd (sample i))) as H.
  cbv beta in H.
  set (step := len / INR n).
  assert (Hs : 0 <= step * step) by nra.
  nra.
Qed.

(** The quotient the loop variables give lies in [[-1, 1]]. *)
Lemma loop_upto_quotient (m : nat) :
  let s := loop_upto len n sample m in
  0 < sqrt (power1 s * power2 s) ->
  -1 <= integral s / sqrt (power1 s * power2 s) <= 1.
Proof.
  intros s Hpos. pose proof (loop_upto_cauchy_schwarz m) as H.
  fold s in H. apply Rabs_le_between in H.
  set (nm := sqrt (power1 s * power2 s)) in *.
  split.
  - apply Rmult_le_reg_r with nm; [exact Hpos |].
    unfold Rdiv. rewrite Rmult_assoc, Rinv_l by lra. lra.
  - apply Rmult_le_reg_r with nm; [exact Hpos |].
    unfold Rdiv. rewrite Rmult_assoc, Rinv_l by lra. lra.
Qed.

End LoopFacts.

Lemma loop_upto_ext (len : R) (n : nat) (s1 s2 : nat -> R * R) (m : nat) :
  (forall i, s1 i = s2 i) -> loop_upto len n s1 m = loop_upto len n s2 m.
Proof.
  intros E. induction m as [| m IH]; [reflexivity |].
  rewrite !loop_upto_S, IH. unfold loop_body_with. rewrite E. reflexivity.
Qed.

Section RunLoop.

Variable c : CONFIG.

Lemma run_loop_upto :
  run_loop c = loop_upto (length c) (points c) (sampleXY c) (points c).
Proof. reflexivity. Qed.

Lemma run_loop_integral : integral (run_loop c) = innerProduct c.
Proof. rewrite run_loop_upto. apply loop_upto_integral. Qed.

Lemma run_loop_power1 : power1 (run_loop c) = powerA c.
Proof. rewrite run_loop_upto. apply loop_upto_power1. Qed.

Lemma run_loop_power2 : power2 (run_loop c) = powerB c.
Proof. rewrite run_loop_upto. apply loop_upto_power2. Qed.

End RunLoop.

(** ** Legendre polynomials *)

Section LegendreFacts.

Variable x : R.

Lemma legendre_pair_fst_S (j : nat) :
  fst (legendre_pair (S j) x) = snd (legendre_pair j x).
Proof.
  cbn [legendre_pair]. destruct (legendre_pair j x) as [a b]. reflexivity.
Qed.

Lemma legendre_pair_snd_S (j : nat) :
  snd (legendre_pair (S j) x)
  = ((2 * (INR j + 2) - 1) * x * snd (legendre_pair j x)
     - (INR j + 2 - 1) * fst (legendre_pair j x)) / (INR j + 2).
Proof.
  cbn [legendre_pair]. destruct (legendre_pair j x) as [a b]. reflexivity.
Qed.

(** The loop invariant: entering iteration [k = i + 2] the variables hold
    [P_i], [P_(i+1)], [P_(i+1)]; [j] more iterations leave [P_(i+j+1)]. *)
Lemma legendre_loop_inv (j i : nat) :
  legendre_loop j (Z.of_nat i + 2) (Z.of_nat i + Z.of_nat j + 1) x
    (fst (legendre_pair i x)) (snd (legendre_pair i x))
    (snd (legendre_pair i x))
  = snd (legendre_pair (i + j) x).
Proof.
  revert i. induction j as [| j IH]; intros i.
  - rewrite Nat.add_0_r. reflexivity.
  - cbn [legendre_loop].
    destruct (Z.leb_spec (Z.of_nat i + 2)
                (Z.of_nat i + Z.of_nat (S j) + 1)) as [_ | Hgt]; [| lia].
    replace (Z.of_nat i + 2 + 1)%Z with (Z.of_nat (S i) + 2)%Z by lia.
    replace (Z.of_nat i + Z.of_nat (S j) + 1)%Z
      with (Z.of_nat (S i) + Z.of_nat j + 1)%Z by lia.
    replace (i + S j)%nat with (S i + j)%nat by lia.
    rewrite <- IH, legendre_pair_fst_S, legendre_pair_snd_S.
    rewrite plus_IZR, <- INR_IZR_INZ. reflexivity.
Qed.

(** The loop is over when the fuel is: more fuel changes nothing. *)
Lemma legendre_loop_fuel (j extra : nat) (k : Z) (a b cur : R) :
  legendre_loop (j + extra) k (k + Z.of_nat j - 1) x a b cur
  = legendre_loop j k (k + Z.of_nat j - 1) x a b cur.
Proof.
  revert k a b cur. induction j as [| j IH]; intros k a b cur.
  - destruct extra as [| e]; [reflexivity |]. cbn [Nat.add legendre_loop].
    destruct (Z.leb_spec k (k + Z.of_nat 0 - 1)) as [Hle | _]; [lia |].
    reflexivity.
  - cbn [Nat.add legendre_loop].
    destruct (Z.leb_spec k (k + Z.of_nat (S j) - 1)) as [_ | Hgt]; [| lia].
    replace (k + Z.of_nat (S j) - 1)%Z with (k + 1 + Z.of_nat j - 1)%Z
      by lia.
    apply IH.
Qed.

(** [getLegendre] computes the polynomial of the recurrence. *)
Lemma getLegendre_pair (m : nat) :
  getLegendre (Z.of_nat m) x = fst (legendre_pair m x).
Proof.
  destruct m as [| [| m]]; [reflexivity | reflexivity |].
  unfold getLegendre.
  destruct (Z.eqb_spec (Z.of_nat (S (S m))) 0) as [E | _]; [lia |].
  destruct (Z.eqb_spec (Z.of_nat (S (S m))) 1) as [E | _]; [lia |].
  replace (Z.to_nat (Z.of_nat (S (S m)) - 1)) with (S m) by lia.
  pose proof (legendre_loop_inv (S m) 0) as H.
  cbn [legendre_pair fst snd Z.of_nat Z.add Nat.add] in H.
  replace (Z.of_nat (S (S m))) with (Z.pos (Pos.of_succ_nat m) + 1)%Z
    by lia.
  rewrite legendre_pair_fst_S. exact H.
Qed.

Lemma getLegendre_0 : getLegendre 0 x = 1.
Proof. reflexivity. Qed.

Lemma getLegendre_1 : getLegendre 1 x = x.
Proof. reflexivity. Qed.

Lemma getLegendre_2 : getLegendre 2 x = (3 * x * x - 1) / 2.
Proof.
  unfold getLegendre.
  change (2 =? 0)%Z with false. change (2 =? 1)%Z with false.
  change (Z.to_nat (2 - 1)) with 1%nat. cbn [legendre_loop].
  change (2 <=? 2)%Z with true. cbv iota zeta. field.
Qed.

(** Orders below two that are not [0] or [1] skip the loop: the function
    returns [x]. *)
Lemma getLegendre_negative (n : Z) : (n < 0)%Z -> getLegendre n x = x.
Proof.
  intros Hn. unfold getLegendre.
  destruct (Z.eqb_spec n 0) as [E | _]; [lia |].
  destruct (Z.eqb_spec n 1) as [E | _]; [lia |].
  replace (Z.to_nat (n - 1)) with O by lia. reflexivity.
Qed.

(** Whatever fuel is given beyond [n - 1], the loop returns what
    [getLegendre] returns. *)
Lemma getLegendre_fuel (n : Z) (fuel : nat) :
  n <> 0%Z -> n <> 1%Z -> (Z.to_nat (n - 1) <= fuel)%nat ->
  legendre_loop fuel 2 n x 1 x x = getLegendre n x.
Proof.
  intros H0 H1 Hf. unfold getLegendre.
  destruct (Z.eqb_spec n 0) as [E | _]; [contradiction |].
  destruct (Z.eqb_spec n 1) as [E | _]; [contradiction |].
  destruct (Z_lt_le_dec n 2) as [Hlt | Hge].
  - replace (Z.to_nat (n - 1)) with O by lia.
    destruct fuel as [| fuel]; [reflexivity |]. cbn [legendre_loop].
    destruct (Z.leb_spec 2 n) as [Hle | _]; [lia | reflexivity].
  - remember (Z.to_nat (n - 1)) as j eqn:Ej.
    assert (En : n = (2 + Z.of_nat j - 1)%Z) by lia.
    replace fuel with (j + (fuel - j))%nat by lia.
    rewrite En. apply legendre_loop_fuel.
Qed.

Lemma getLegendre_recurrence (m : nat) :
  let k := (Z.of_nat m + 2)%Z in
  IZR k * getLegendre k x
  = (2 * IZR k - 1) * x * getLegendre (k - 1) x
    - (IZR k - 1) * getLegendre (k - 2) x.
Proof.
  intros k. unfold k.
  replace (Z.of_nat m + 2)%Z with (Z.of_nat (S (S m))) by lia.
  replace (Z.of_nat (S (S m)) - 1)%Z with (Z.of_nat (S m)) by lia.
  replace (Z.of_nat (S (S m)) - 2)%Z with (Z.of_nat m) by lia.
  rewrite !getLegendre_pair, !legendre_pair_fst_S, legendre_pair_snd_S.
  rewrite <- INR_IZR_INZ, !S_INR.
  pose proof (pos_INR m) as Hm. field. lra.
Qed.

End LegendreFacts.

(** ** The statistic *)

Section StatisticFacts.

Lemma absCorrOf_abs (z : Z) : absCorrOf z = IZR (Z.abs z) / 1000.
Proof.
  unfold absCorrOf, JS.parseFloat.
  replace (10 ^ 3) with 1000 by (simpl; lra).
  unfold Rdiv. rewrite Rabs_mult, (Rabs_pos_eq (/ 1000)) by lra.
  rewrite <- abs_IZR. reflexivity.
Qed.

(** The percentage is printed from a number with one decimal, so
    [toFixed(1)] changes nothing. *)
Lemma orthoScoreOf_absCorrOf (z : Z) :
  orthoScoreOf (absCorrOf z) = (1000 - Z.abs z)%Z.
Proof.
  unfold orthoScoreOf. rewrite absCorrOf_abs.
  replace (100 - IZR (Z.abs z) / 1000 * 100)
    with (IZR (1000 - Z.abs z) / 10 ^ 1)
    by (rewrite minus_IZR; simpl; field).
  apply toFixed_exact.
Qed.

Lemma toFixed_zero (d : nat) : JS.toFixed d 0 = 0%Z.
Proof.
  replace 0 with (IZR 0 / 10 ^ d) at 1
    by (unfold Rdiv; apply Rmult_0_l).
  apply toFixed_exact.
Qed.

Lemma corrOf_zero_power (s : Loop) :
  power1 s = 0 \/ power2 s = 0 -> corrOf s = 0%Z.
Proof.
  intros H. unfold corrOf.
  assert (E : power1 s * power2 s = 0)
    by (destruct H as [H | H]; rewrite H; lra).
  rewrite E, sqrt_0.
  destruct (Rlt_dec 0 0) as [Hlt | _]; [lra | reflexivity].
Qed.

Lemma corrOf_zero_integral (s : Loop) : integral s = 0 -> corrOf s = 0%Z.
Proof.
  intros H. unfold corrOf.
  destruct (Rlt_dec 0 (sqrt (power1 s * power2 s))) as [Hlt | _];
    [| reflexivity].
  rewrite H. unfold Rdiv. rewrite Rmult_0_l. apply toFixed_zero.
Qed.

Lemma corrOf_unit_interval (s : Loop) :
  Rabs (integral s) <= sqrt (power1 s * power2 s) ->
  -1 <= JS.parseFloat 3 (corrOf s) <= 1.
Proof.
  intros H. unfold corrOf.
  destruct (Rlt_dec 0 (sqrt (power1 s * power2 s))) as [Hpos | _].
  - apply toFixed_unit_interval. apply Rabs_le_between in H.
    set (nm := sqrt (power1 s * power2 s)) in *.
    split; apply Rmult_le_reg_r with nm; try exact Hpos;
      unfold Rdiv; rewrite Rmult_assoc, Rinv_l by lra; lra.
  - unfold JS.parseFloat. simpl. lra.
Qed.

End StatisticFacts.

Lemma absCorrOf_0 : absCorrOf 0 = 0.
Proof. rewrite absCorrOf_abs. simpl. lra. Qed.

Lemma corr_updateGeometry (c : CONFIG) (activeBtn : option View) :
  corr (updateGeometry c activeBtn)
  = if Rlt_dec 0 (norm c) then JS.toFixed 3 (innerProduct c / norm c)
    else 0%Z.
Proof.
  unfold updateGeometry, corrOf, norm. cbn [corr].
  rewrite run_loop_integral, run_loop_power1, run_loop_power2. reflexivity.
Qed.

(** Measured against the quotient before rounding, the percentage is off
    by at most a twentieth of a point. *)
Lemma orthoScore_near_quotient (c : CONFIG) (activeBtn : option View) :
  0 < norm c ->
  Rabs (JS.parseFloat 1 (orthoScore (updateGeometry c activeBtn))
        - (100 - 100 * Rabs (innerProduct c / norm c))) <= 1 / 20.
Proof.
  intros Hpos.
  change (orthoScore (updateGeometry c activeBtn))
    with (orthoScoreOf (absCorrOf (corr (updateGeometry c activeBtn)))).
  rewrite orthoScoreOf_absCorrOf, corr_updateGeometry.
  destruct (Rlt_dec 0 (norm c)) as [_ | Hn]; [| contradiction].
  set (q := innerProduct c / norm c).
  pose proof (toFixed_near 3 q) as Hq.
  pose proof (absCorrOf_abs (JS.toFixed 3 q)) as Ha. unfold absCorrOf in Ha.
  unfold JS.parseFloat at 1. rewrite minus_IZR.
  replace (IZR (Z.abs (JS.toFixed 3 q)))
    with (1000 * Rabs (JS.parseFloat 3 (JS.toFixed 3 q))) by lra.
  pose proof (Rabs_triang_inv2 (JS.parseFloat 3 (JS.toFixed 3 q)) q) as Ht.
  set (r := Rabs (JS.parseFloat 3 (JS.toFixed 3 q))) in *.
  replace (1 / (2 * 10 ^ 3)) with (1 / 2000) in Hq by (simpl; lra).
  assert (Hd : Rabs (r - Rabs q) <= 1 / 2000) by lra.
  apply Rabs_le_between in Hd. apply Rabs_le. simpl. lra.
Qed.

Lemma updateGeometry_lengths (c : CONFIG) (activeBtn : option View) :
  List.length (curveF1 (updateGeometry c activeBtn)) = (3 * points c)%nat
  /\ List.length (curveF2 (updateGeometry c activeBtn)) = (3 * points c)%nat
  /\ List.length (curveSum (updateGeometry c activeBtn))
     = (3 * points c)%nat.
Proof.
  unfold updateGeometry. cbn [curveF1 curveF2 curveSum].
  rewrite run_loop_upto. apply loop_upto_lengths.
Qed.

Lemma corr_zero_length (c : CONFIG) (activeBtn : option View) :
  length c = 0 -> corr (updateGeometry c activeBtn) = 0%Z.
Proof.
  intros H. apply corrOf_zero_power. left. rewrite run_loop_power1.
  unfold powerA.
  rewrite (Sigma_scal (points c) (fun i => valueA c i * valueA c i) (dt c)).
  unfold dt. rewrite H. unfold Rdiv. rewrite Rmult_0_l. apply Rmult_0_r.
Qed.

(** ** Samples *)

Section SampleFacts.

Variable c : CONFIG.

Lemma valueA_amp1_zero (i : nat) : amp1 c = 0 -> valueA c i = 0.
Proof.
  intros H. unfold valueA, sampleXY.
  destruct (mode c); cbn [fst]; rewrite H; apply Rmult_0_r.
Qed.

Lemma valueB_amp2_zero (i : nat) : amp2 c = 0 -> valueB c i = 0.
Proof.
  intros H. unfold valueB, sampleXY.
  destruct (mode c); cbn [snd]; rewrite H; apply Rmult_0_r.
Qed.

Lemma powerA_zero :
  (forall i, (i < points c)%nat -> valueA c i = 0) -> powerA c = 0.
Proof.
  intros H. apply Sigma_zero. intros i Hi. rewrite (H i Hi). lra.
Qed.

Lemma powerB_zero :
  (forall i, (i < points c)%nat -> valueB c i = 0) -> powerB c = 0.
Proof.
  intros H. apply Sigma_zero. intros i Hi. rewrite (H i Hi). lra.
Qed.

(** In poly mode the samples do not read the phase. *)
Lemma sampleXY_poly_phase (p : R) (i : nat) :
  mode c = poly -> sampleXY (set_phase c p) i = sampleXY c i.
Proof.
  intros H. unfold sampleXY. cbn [mode set_phase]. rewrite H.
  reflexivity.
Qed.

End SampleFacts.

Lemma tRelative_0 (c : CONFIG) : tRelative c 0 = 0.
Proof.
  unfold tRelative. change (INR 0) with 0. unfold Rdiv. apply Rmult_0_l.
Qed.

Lemma square_valueA (c : CONFIG) (i : nat) :
  mode c = square ->
  valueA c i = 0.8 * amp1 c * JS.sign (sin (2 * PI * f1 c * tRelative c i)).
Proof.
  intros H. unfold valueA, sampleXY, getWalsh, tRelative. rewrite H.
  cbn [fst]. lra.
Qed.

Lemma square_valueB (c : CONFIG) (i : nat) :
  mode c = square ->
  valueB c i
  = 0.8 * amp2 c
    * JS.sign (sin (2 * PI * f2 c
                    * (tRelative c i + phase c / 360 / JS.or_else (f2 c) 1))).
Proof.
  intros H. unfold valueB, sampleXY, tRelative. rewrite H. cbn [snd]. lra.
Qed.

Lemma poly_valueA (c : CONFIG) (i : nat) :
  mode c = poly ->
  valueA c i
  = getLegendre (JS.round (f1 c)) (tRelative c i * 2 - 1) * amp1 c.
Proof.
  intros H. unfold valueA, sampleXY, tRelative. rewrite H. reflexivity.
Qed.

Lemma poly_valueB (c : CONFIG) (i : nat) :
  mode c = poly ->
  valueB c i
  = getLegendre (JS.round (f2 c)) (tRelative c i * 2 - 1) * amp2 c.
Proof.
  intros H. unfold valueB, sampleXY, tRelative. rewrite H. reflexivity.
Qed.

Section QuadratureFacts.

Variable c : CONFIG.
Variable k : nat.
Hypothesis Hmode : mode c = sine.
Hypothesis Hf1 : f1 c = INR k.
Hypothesis Hf2 : f2 c = INR k.
Hypothesis Hphase : phase c = 90.

Lemma sine_valueA (i : nat) :
  valueA c i = sin (2 * PI * INR k * tRelative c i) * amp1 c.
Proof.
  unfold valueA, sampleXY, tRelative. rewrite Hmode, Hf1. reflexivity.
Qed.

Lemma sine_valueB_quadrature (i : nat) :
  valueB c i = cos (2 * PI * INR k * tRelative c i) * amp2 c.
Proof.
  unfold valueB, sampleXY, tRelative. rewrite Hmode, Hf2, Hphase.
  cbn [snd]. rewrite cos_sin. f_equal. f_equal. lra.
Qed.

Lemma tRelative_mirror (i : nat) :
  (0 < i < points c)%nat ->
  2 * PI * INR k * tRelative c (points c - i)
  = - (2 * PI * INR k * tRelative c i) + 2 * INR k * PI.
Proof.
  intros Hi. unfold tRelative. rewrite minus_INR by lia.
  assert (Hn : INR (points c) <> 0) by (apply not_0_INR; lia).
  field. exact Hn.
Qed.

(** Same frequency (a whole number of cycles) and a phase of 90 degrees:
    the inner product over the domain is exactly zero. *)
Lemma quadrature_innerProduct : innerProduct c = 0.
Proof.
  unfold innerProduct.
  rewrite (Sigma_scal (points c) (fun i => valueA c i * valueB c i) (dt c)).
  rewrite Sigma_antisymmetric; [lra | |].
  - rewrite sine_valueA. unfold tRelative. cbn [INR].
    unfold Rdiv. rewrite Rmult_0_l, Rmult_0_r, sin_0. lra.
  - intros i Hi.
    rewrite !sine_valueA, !sine_valueB_quadrature.
    rewrite (tRelative_mirror i Hi), sin_period, cos_period.
    rewrite sin_neg, cos_neg. lra.
Qed.

Lemma quadrature_corr (activeBtn : option View) :
  corr (updateGeometry c activeBtn) = 0%Z.
Proof.
  apply corrOf_zero_integral. rewrite run_loop_integral.
  apply quadrature_innerProduct.
Qed.

End QuadratureFacts.

Lemma updateGeometry_set_phase (c : CONFIG) (p : R) (activeBtn : option View) :
  mode c = poly ->
  updateGeometry (set_phase c p) activeBtn = updateGeometry c activeBtn.
Proof.
  intros Hm.
  assert (E : run_loop (set_phase c p) = run_loop c).
  { rewrite !run_loop_upto. cbn [length points set_phase].
    apply loop_upto_ext. intros i. apply sampleXY_poly_phase. exact Hm. }
  unfold updateGeometry. rewrite E.
  f_equal. unfold updateTutorialState. cbn [mode f1 f2 set_phase].
  rewrite Hm. reflexivity.
Qed.

(** ** The tutorial box *)

Lemma critical_branch_title
  (c : CONFIG) (activeBtn : option View) (absCorr : R) :
  0.8 < absCorr ->
  status (updateTutorialState c activeBtn absCorr) = critical
  /\ title (updateTutorialState c activeBtn absCorr)
     = match mode c with
       | wave => PacketCollision
       | poly => BasisCollapse
       | sine | square =>
           if isIsoView (activeId activeBtn) then VisualIllusion
           else SignalCollision
       end.
Proof.
  intros H. unfold updateTutorialState.
  destruct (Rlt_dec 0.8 absCorr) as [_ | Hn]; [| contradiction].
  destruct (mode c); split; reflexivity.
Qed.

(** ** Worked configurations *)

Section PolyExample.

Lemma poly_example_valueA (i : nat) :
  valueA poly_1_2_on_3 i = INR i / 3 * 2 - 1.
Proof.
  rewrite poly_valueA by reflexivity. unfold tRelative.
  cbn [f1 amp1 points poly_1_2_on_3 with_points applyScenario with_mode
       CONFIG0].
  rewrite (round_IZR 1), getLegendre_1. cbn [INR]. lra.
Qed.

Lemma poly_example_valueB (i : nat) :
  valueB poly_1_2_on_3 i
  = (3 * (INR i / 3 * 2 - 1) * (INR i / 3 * 2 - 1) - 1) / 2.
Proof.
  rewrite poly_valueB by reflexivity. unfold tRelative.
  cbn [f2 amp2 points poly_1_2_on_3 with_points applyScenario with_mode
       CONFIG0].
  rewrite (round_IZR 2), getLegendre_2. cbn [INR]. lra.
Qed.

Lemma poly_example_dt : dt poly_1_2_on_3 = 4.
Proof.
  unfold dt.
  cbn [length points poly_1_2_on_3 with_points applyScenario with_mode
       CONFIG0 INR].
  lra.
Qed.

Lemma poly_example_innerProduct : innerProduct poly_1_2_on_3 = -4.
Proof.
  unfold innerProduct.
  change (points poly_1_2_on_3) with 3%nat. cbn [Sigma].
  rewrite !poly_example_valueA, !poly_example_valueB, poly_example_dt.
  cbn [INR]. lra.
Qed.

Lemma poly_example_powerA : powerA poly_1_2_on_3 = 44 / 9.
Proof.
  unfold powerA.
  change (points poly_1_2_on_3) with 3%nat. cbn [Sigma].
  rewrite !poly_example_valueA, poly_example_dt. cbn [INR]. lra.
Qed.

Lemma poly_example_powerB : powerB poly_1_2_on_3 = 44 / 9.
Proof.
  unfold powerB.
  change (points poly_1_2_on_3) with 3%nat. cbn [Sigma].
  rewrite !poly_example_valueB, poly_example_dt. cbn [INR]. lra.
Qed.

Lemma poly_example_norm : norm poly_1_2_on_3 = 44 / 9.
Proof.
  unfold norm. rewrite poly_example_powerA, poly_example_powerB.
  apply sqrt_square. lra.
Qed.

Lemma poly_example_quotient :
  innerProduct poly_1_2_on_3 / norm poly_1_2_on_3 = - 9 / 11.
Proof.
  rewrite poly_example_innerProduct, poly_example_norm. lra.
Qed.

(** [(-9/11).toFixed(3)] prints [-0.818]. *)
Lemma toFixed_example : JS.toFixed 3 (- 9 / 11) = (-818)%Z.
Proof.
  unfold JS.toFixed. destruct (Rlt_dec (- 9 / 11) 0) as [_ | Hn]; [| lra].
  rewrite (floor_unique (- (- 9 / 11) * 10 ^ 3 + 1 / 2) 818);
    [reflexivity | simpl; lra].
Qed.

End PolyExample.

Section CollisionScenario.

Lemma bad_valueB (i : nat) : valueB scene_bad i = valueA scene_bad i.
Proof.
  unfold valueA, valueB, sampleXY.
  cbn [mode f1 f2 amp1 amp2 phase scene_bad applyScenario CONFIG0 fst snd].
  f_equal. f_equal. lra.
Qed.

Lemma bad_innerProduct : innerProduct scene_bad = powerA scene_bad.
Proof.
  apply Sigma_ext. intros i _. rewrite bad_valueB. reflexivity.
Qed.

Lemma bad_powerB : powerB scene_bad = powerA scene_bad.
Proof.
  apply Sigma_ext. intros i _. rewrite bad_valueB. reflexivity.
Qed.

Lemma bad_dt : dt scene_bad = 1 / 100.
Proof.
  unfold dt. cbn [length points scene_bad applyScenario CONFIG0].
  rewrite INR_IZR_INZ. change (Z.of_nat 1200) with 1200%Z. lra.
Qed.

Lemma bad_valueA_150 : valueA scene_bad 150 = 1.
Proof.
  unfold valueA, sampleXY.
  cbn [mode f1 amp1 points scene_bad applyScenario CONFIG0 fst].
  rewrite !INR_IZR_INZ.
  change (Z.of_nat 150) with 150%Z. change (Z.of_nat 1200) with 1200%Z.
  replace (2 * PI * 2 * (150 / 1200)) with (PI / 2) by lra.
  rewrite sin_PI2. lra.
Qed.

Lemma bad_powerA_pos : 0 < powerA scene_bad.
Proof.
  unfold powerA.
  apply Rlt_le_trans
    with ((fun i => valueA scene_bad i * valueA scene_bad i * dt scene_bad)
            150%nat).
  - cbv beta. rewrite bad_valueA_150, bad_dt. lra.
  - apply (Sigma_ge_term (points scene_bad) 150
             (fun i => valueA scene_bad i * valueA scene_bad i
                       * dt scene_bad)).
    + intros i. rewrite bad_dt.
      pose proof (Rle_0_sqr (valueA scene_bad i)) as H.
      unfold Rsqr in H. lra.
    + cbn. lia.
Qed.

(** Same frequency, no phase: the reported correlation is [1.000]. *)
Lemma bad_corr (activeBtn : option View) :
  corr (updateGeometry scene_bad activeBtn) = 1000%Z.
Proof.
  pose proof bad_powerA_pos as Hp.
  rewrite corr_updateGeometry. unfold norm.
  rewrite bad_innerProduct, bad_powerB, sqrt_square by lra.
  destruct (Rlt_dec 0 (powerA scene_bad)) as [_ | Hn]; [| contradiction].
  replace (powerA scene_bad / powerA scene_bad) with (IZR 1000 / 10 ^ 3)
    by (simpl; field; lra).
  apply toFixed_exact.
Qed.

Lemma bad_absCorr (activeBtn : option View) :
  absCorrOf (corr (updateGeometry scene_bad activeBtn)) = 1.
Proof. rewrite bad_corr, absCorrOf_abs. simpl. lra. Qed.

End CollisionScenario.

Lemma quarter_of_domain : tRelative square_1Hz 300 = 1 / 4.
Proof.
  unfold tRelative. cbn [points square_1Hz applyScenario with_mode CONFIG0].
  rewrite !INR_IZR_INZ.
  change (Z.of_nat 300) with 300%Z. change (Z.of_nat 1200) with 1200%Z.
  lra.
Qed.

Lemma single_sample_curve :
  curveSum (updateGeometry (with_points CONFIG0 1) None) = [0; 0; -6].
Proof.
  unfold updateGeometry, run_loop. cbn [curveSum].
  change (seq 0 (points (with_points CONFIG0 1))) with [O].
  cbn [fold_left]. unfold loop_body, loop_body_with, sampleXY.
  cbn [mode f1 f2 amp1 amp2 phase points length with_points CONFIG0 INR
       pSum loop_init app].
  replace (0 / 1) with 0 by lra.
  rewrite !Rmult_0_r, Rplus_0_l.
  replace (0 * PI / 180) with 0 by lra. rewrite sin_0.
  f_equal; [lra |]. f_equal; [lra |]. f_equal. lra.
Qed.

(** * The claims *)

(** ** The correlation that is reported *)

(** C1, as the code has it.  Whenever the norm [sqrt(powerA * powerB)] of
    the plain left-Riemann sums is positive, the correlation that
    [updateGeometry] reports is their quotient
    [innerProduct / norm] printed by [toFixed(3)]: the nearest multiple
    of one thousandth, so within half a thousandth of the quotient.  No
    trapezoid term and no mean enters the sums. *)
Theorem correlation_is_rounded_quotient
  (c : CONFIG) (activeBtn : option View) :
  0 < sqrt (powerA c * powerB c) ->
  corr (updateGeometry c activeBtn)
  = JS.toFixed 3 (innerProduct c / sqrt (powerA c * powerB c))
  /\ Rabs (JS.parseFloat 3 (corr (updateGeometry c activeBtn))
           - innerProduct c / sqrt (powerA c * powerB c)) <= 1 / 2000.
Proof.
  intros Hpos. fold (norm c) in *.
  assert (E : corr (updateGeometry c activeBtn)
              = JS.toFixed 3 (innerProduct c / norm c)).
  { rewrite corr_updateGeometry.
    destruct (Rlt_dec 0 (norm c)) as [_ | Hn]; [reflexivity | contradiction]. }
  split; [exact E |].
  rewrite E.
  replace (1 / 2000) with (1 / (2 * 10 ^ 3)) by (simpl; lra).
  apply toFixed_near.
Qed.

Lemma correlation_is_rounded_quotient_witness :
  0 < sqrt (powerA poly_1_2_on_3 * powerB poly_1_2_on_3)
  /\ corr (updateGeometry poly_1_2_on_3 None) = (-818)%Z.
Proof.
  assert (H : 0 < sqrt (powerA poly_1_2_on_3 * powerB poly_1_2_on_3)).
  { fold (norm poly_1_2_on_3). rewrite poly_example_norm. lra. }
  split; [exact H |].
  destruct (correlation_is_rounded_quotient poly_1_2_on_3 None H) as [E _].
  rewrite E. fold (norm poly_1_2_on_3).
  rewrite poly_example_quotient. apply toFixed_example.
Defined.

(** C1 as it is worded fails: in poly mode with orders 1 and 2 on three
    samples the quotient is [-9/11] and the reported correlation is
    [-0.818]. *)
Lemma correlation_rounding_counterexample :
  (1 <= points poly_1_2_on_3)%nat
  /\ 0 < sqrt (powerA poly_1_2_on_3 * powerB poly_1_2_on_3)
  /\ innerProduct poly_1_2_on_3
     / sqrt (powerA poly_1_2_on_3 * powerB poly_1_2_on_3) = - 9 / 11
  /\ JS.parseFloat 3 (corr (updateGeometry poly_1_2_on_3 None))
     = - 818 / 1000
  /\ JS.parseFloat 3 (corr (updateGeometry poly_1_2_on_3 None))
     <> innerProduct poly_1_2_on_3
        / sqrt (powerA poly_1_2_on_3 * powerB poly_1_2_on_3).
Proof.
  fold (norm poly_1_2_on_3).
  assert (Hc : JS.parseFloat 3 (corr (updateGeometry poly_1_2_on_3 None))
               = - 818 / 1000).
  { rewrite corr_updateGeometry, poly_example_quotient, poly_example_norm.
    destruct (Rlt_dec 0 (44 / 9)) as [_ | Hn]; [| lra].
    rewrite toFixed_example. unfold JS.parseFloat. simpl. lra. }
  split; [cbn; lia |].
  split; [rewrite poly_example_norm; lra |].
  split; [apply poly_example_quotient |].
  split; [exact Hc |].
  rewrite Hc, poly_example_quotient. lra.
Qed.

(** ** Collision *)

(** C2, as the code has it.  Above the threshold [0.8] the box takes the
    critical style and a collision title whatever the mode, frequencies
    and phase: the packet collision in wave mode, the basis collapse in
    poly mode, and in sine and square mode the generic signal overlap --
    worded as a visual illusion while one of the isolated channel views
    [f1], [f2] is active. *)
Theorem collision_takes_priority
  (c : CONFIG) (activeBtn : option View) (absCorr : R) :
  0.8 < absCorr ->
  let t := updateTutorialState c activeBtn absCorr in
  classification t = Collision
  /\ status t = critical
  /\ title t = match mode c with
               | wave => PacketCollision
               | poly => BasisCollapse
               | sine | square =>
                   if isIsoView (activeId activeBtn) then VisualIllusion
                   else SignalCollision
               end.
Proof.
  intros H t. unfold t.
  destruct (critical_branch_title c activeBtn absCorr H) as (Hs & Ht).
  repeat split; try assumption.
  unfold classification. rewrite Ht.
  destruct (mode c), (isIsoView (activeId activeBtn)); reflexivity.
Qed.

(** The scenario button scene-bad run through [updateGeometry]: the
    correlation is [1.000] and the box shows the signal overlap. *)
Lemma collision_takes_priority_witness :
  0.8 < absCorrOf (corr (updateGeometry scene_bad None))
  /\ corr (updateGeometry scene_bad None) = 1000%Z
  /\ status (tutorial (updateGeometry scene_bad None)) = critical
  /\ title (tutorial (updateGeometry scene_bad None)) = SignalCollision.
Proof.
  assert (H : 0.8 < absCorrOf (corr (updateGeometry scene_bad None)))
    by (rewrite bad_absCorr; lra).
  split; [exact H |]. split; [apply bad_corr |].
  change (tutorial (updateGeometry scene_bad None))
    with (updateTutorialState scene_bad None
            (absCorrOf (corr (updateGeometry scene_bad None)))).
  destruct (collision_takes_priority scene_bad None
              (absCorrOf (corr (updateGeometry scene_bad None))) H)
    as (_ & Hs & Ht).
  split; [exact Hs | exact Ht].
Defined.

(** C2 as it is worded fails: in sine mode with the view [f1] active the
    title above the threshold is the visual illusion, not the signal
    overlap. *)
Lemma collision_generic_kind_counterexample :
  0.8 < 1
  /\ mode scene_bad = sine
  /\ status (updateTutorialState scene_bad (Some view_f1) 1) = critical
  /\ title (updateTutorialState scene_bad (Some view_f1) 1) = VisualIllusion
  /\ title (updateTutorialState scene_bad (Some view_f1) 1)
     <> SignalCollision.
Proof.
  assert (H : 0.8 < 1) by lra.
  destruct (critical_branch_title scene_bad (Some view_f1) 1 H)
    as (Hs & Ht).
  repeat split; try assumption.
  rewrite Ht. discriminate.
Qed.

(** ** Quadrature *)

(** C3.  In sine mode with equal frequencies, a phase whose remainder
    modulo 180 is within ten degrees of 90 -- the test of the source,
    [Math.abs(phase % 180 - 90) < 10] -- and an absolute correlation not
    above [0.8], the box shows the I/Q magic message in the magic style:
    the classification is QuadratureMagic.  The witness below is the
    case of both frequencies 2 and a phase of 90. *)
Theorem quadrature_magic
  (c : CONFIG) (activeBtn : option View) (absCorr : R) :
  mode c = sine ->
  f1 c = f2 c ->
  Rabs (JS.rem (phase c) 180 - 90) < 10 ->
  absCorr <= 0.8 ->
  let t := updateTutorialState c activeBtn absCorr in
  classification t = QuadratureMagic
  /\ status t = magic
  /\ title t = IQMagic.
Proof.
  intros Hm Hf Hp Ha t. unfold t, updateTutorialState.
  destruct (Rlt_dec 0.8 absCorr) as [Hgt | _]; [lra |].
  rewrite Hm.
  destruct (Req_dec_T (f1 c) (f2 c)) as [_ | Hn]; [| contradiction].
  destruct (Rlt_dec (Rabs (JS.rem (phase c) 180 - 90)) 10) as [_ | Hn];
    [| contradiction].
  repeat split.
Qed.

(** The scenario button scene-iq, [applyScenario(2.0, 2.0, 90)] on the
    initial configuration, run through [updateGeometry]: correlation
    [0.000] and the magic message. *)
Lemma quadrature_magic_witness :
  mode scene_iq = sine
  /\ f1 scene_iq = f2 scene_iq
  /\ Rabs (JS.rem (phase scene_iq) 180 - 90) < 10
  /\ corr (updateGeometry scene_iq None) = 0%Z
  /\ classification (tutorial (updateGeometry scene_iq None))
     = QuadratureMagic.
Proof.
  assert (Hc : corr (updateGeometry scene_iq None) = 0%Z).
  { apply (quadrature_corr scene_iq 2);
      cbn [mode f1 f2 phase scene_iq applyScenario CONFIG0 INR];
      try reflexivity; lra. }
  assert (Hp : Rabs (JS.rem (phase scene_iq) 180 - 90) < 10).
  { cbn [phase scene_iq applyScenario]. rewrite rem_small by lra.
    replace (90 - 90) with 0 by lra. rewrite Rabs_R0. lra. }
  split; [reflexivity |]. split; [reflexivity |]. split; [exact Hp |].
  split; [exact Hc |].
  change (tutorial (updateGeometry scene_iq None))
    with (updateTutorialState scene_iq None
            (absCorrOf (corr (updateGeometry scene_iq None)))).
  rewrite Hc, absCorrOf_0.
  apply (quadrature_magic scene_iq None 0 eq_refl eq_refl Hp).
  lra.
Defined.

(** ** Zero-power guard *)

(** C4.  When one of the two signals is zero at every sample -- in
    particular when [amp1] (or [amp2]) is zero -- the norm is zero, the
    guard [norm > 0] fails and the reported correlation is exactly zero;
    the call ends normally with a rendered result. *)
Theorem zero_power_guard (c : CONFIG) (activeBtn : option View) :
  (forall i, (i < points c)%nat -> valueA c i = 0)
  \/ (forall i, (i < points c)%nat -> valueB c i = 0)
  \/ amp1 c = 0 \/ amp2 c = 0 ->
  sqrt (power1 (run_loop c) * power2 (run_loop c)) = 0
  /\ corr (updateGeometry c activeBtn) = 0%Z
  /\ JS.parseFloat 3 (corr (updateGeometry c activeBtn)) = 0
  /\ engine c activeBtn = Rendered (updateGeometry c activeBtn).
Proof.
  intros H.
  assert (Hz : power1 (run_loop c) = 0 \/ power2 (run_loop c) = 0).
  { rewrite run_loop_power1, run_loop_power2.
    destruct H as [H | [H | [H | H]]].
    - left. apply powerA_zero. exact H.
    - right. apply powerB_zero. exact H.
    - left. apply powerA_zero. intros i _. apply valueA_amp1_zero. exact H.
    - right. apply powerB_zero. intros i _. apply valueB_amp2_zero. exact H. }
  assert (Hc : corr (updateGeometry c activeBtn) = 0%Z)
    by (apply corrOf_zero_power; exact Hz).
  repeat split.
  - destruct Hz as [E | E]; rewrite E;
      [rewrite Rmult_0_l | rewrite Rmult_0_r]; apply sqrt_0.
  - exact Hc.
  - rewrite Hc. unfold JS.parseFloat. apply Rmult_0_l.
Qed.

Lemma zero_power_guard_witness :
  amp1 (with_amp1 CONFIG0 0) = 0
  /\ corr (updateGeometry (with_amp1 CONFIG0 0) None) = 0%Z.
Proof.
  split; [reflexivity |].
  apply (zero_power_guard (with_amp1 CONFIG0 0) None).
  right; right; left. reflexivity.
Defined.

(** ** Range of the correlation *)

(** C5.  Over exact arithmetic the left-Riemann inner product never exceeds
    the geometric mean of the two powers (discrete Cauchy-Schwarz), for
    every pair of sampled sequences, every step and every number of
    iterations; hence the reported correlation lies in [[-1, 1]], and it is
    zero when the norm is not positive.  The same holds for every
    configuration run through [updateGeometry]. *)
Theorem correlation_in_unit_interval :
  (forall (len : R) (n m : nat) (sample : nat -> R * R),
      let s := loop_upto len n sample m in
      Rabs (integral s) <= sqrt (power1 s * power2 s)
      /\ -1 <= JS.parseFloat 3 (corrOf s) <= 1
      /\ (sqrt (power1 s * power2 s) <= 0 -> corrOf s = 0%Z))
  /\ (forall (c : CONFIG) (activeBtn : option View),
         Rabs (innerProduct c) <= sqrt (powerA c * powerB c)
         /\ -1 <= JS.parseFloat 3 (corr (updateGeometry c activeBtn)) <= 1).
Proof.
  split.
  - intros len n m sample s.
    pose proof (loop_upto_cauchy_schwarz len n sample m) as H. fold s in H.
    split; [exact H | split].
    + apply corrOf_unit_interval. exact H.
    + intros Hn. unfold corrOf.
      destruct (Rlt_dec 0 (sqrt (power1 s * power2 s))); [lra | reflexivity].
  - intros c activeBtn.
    pose proof (loop_upto_cauchy_schwarz (length c) (points c) (sampleXY c)
                  (points c)) as H.
    rewrite <- run_loop_upto in H. split.
    + rewrite <- run_loop_integral, <- run_loop_power1, <- run_loop_power2.
      exact H.
    + apply corrOf_unit_interval. exact H.
Qed.

(** A silent first signal on two samples: the norm is zero and so is the
    reported correlation. *)
Lemma correlation_in_unit_interval_witness :
  sqrt (power1 (loop_upto 12 2 (fun _ => (0, 1)) 2)
        * power2 (loop_upto 12 2 (fun _ => (0, 1)) 2)) <= 0
  /\ corrOf (loop_upto 12 2 (fun _ => (0, 1)) 2) = 0%Z
  /\ -1 <= JS.parseFloat 3 (corr (updateGeometry CONFIG0 None)) <= 1.
Proof.
  assert (H : sqrt (power1 (loop_upto 12 2 (fun _ => (0, 1)) 2)
                    * power2 (loop_upto 12 2 (fun _ => (0, 1)) 2)) <= 0).
  { rewrite loop_upto_power1. cbn [Sigma fst].
    rewrite !Rmult_0_l, !Rplus_0_l, Rmult_0_l, sqrt_0. lra. }
  split; [exact H |]. split.
  - apply (proj1 correlation_in_unit_interval 12 2%nat 2%nat
             (fun _ => (0, 1))). exact H.
  - apply (proj2 correlation_in_unit_interval CONFIG0 None).
Defined.

(** ** Orthogonality percentage *)

(** C6.  The reported percentage is exactly [100 - 100 |correlation|] of
    the reported correlation, for the result of [updateGeometry] and for
    every correlation text whatever its size: nothing clamps it to
    [[0, 100]], and a correlation beyond one in absolute value gives a
    negative percentage. *)
Theorem orthogonality_percent_unclamped :
  (forall (c : CONFIG) (activeBtn : option View),
      let g := updateGeometry c activeBtn in
      JS.parseFloat 1 (orthoScore g)
      = 100 - 100 * Rabs (JS.parseFloat 3 (corr g)))
  /\ (forall z : Z,
         JS.parseFloat 1 (orthoScoreOf (absCorrOf z))
         = 100 - 100 * Rabs (JS.parseFloat 3 z))
  /\ (forall z : Z,
         1 < Rabs (JS.parseFloat 3 z) ->
         JS.parseFloat 1 (orthoScoreOf (absCorrOf z)) < 0).
Proof.
  assert (H : forall z : Z,
             JS.parseFloat 1 (orthoScoreOf (absCorrOf z))
             = 100 - 100 * Rabs (JS.parseFloat 3 z)).
  { intros z. rewrite orthoScoreOf_absCorrOf.
    change (Rabs (JS.parseFloat 3 z)) with (absCorrOf z).
    rewrite absCorrOf_abs. unfold JS.parseFloat. rewrite minus_IZR.
    simpl. field. }
  split; [| split].
  - intros c activeBtn g. apply H.
  - exact H.
  - intros z Hz. rewrite H. lra.
Qed.

Lemma orthogonality_percent_unclamped_witness :
  1 < Rabs (JS.parseFloat 3 1001)
  /\ JS.parseFloat 1 (orthoScoreOf (absCorrOf 1001)) < 0.
Proof.
  assert (H : 1 < Rabs (JS.parseFloat 3 1001)).
  { unfold JS.parseFloat. rewrite Rabs_pos_eq; simpl; lra. }
  split; [exact H |].
  apply (proj2 (proj2 orthogonality_percent_unclamped) 1001%Z H).
Defined.

(** ** Legendre evaluator *)

(** C7.  [getLegendre] returns [1] at order 0, [x] at order 1 and
    [(3x^2 - 1)/2] at order 2, and from order 2 on it satisfies the
    three-term recurrence [k P_k = (2k-1) x P_(k-1) - (k-1) P_(k-2)]. *)
Theorem getLegendre_closed_forms (x : R) :
  getLegendre 0 x = 1
  /\ getLegendre 1 x = x
  /\ getLegendre 2 x = (3 * x * x - 1) / 2
  /\ forall m : nat,
      let k := (Z.of_nat m + 2)%Z in
      IZR k * getLegendre k x
      = (2 * IZR k - 1) * x * getLegendre (k - 1) x
        - (IZR k - 1) * getLegendre (k - 2) x.
Proof.
  split; [apply getLegendre_0 |].
  split; [apply getLegendre_1 |].
  split; [apply getLegendre_2 |].
  apply getLegendre_recurrence.
Qed.

(** ** Square mode *)

(** C8, as the code has it.  In square mode every sample is the sign of
    the sine scaled by [0.8] times the amplitude: basis A without any
    phase, basis B shifted in time by [(phase/360)/(f2 || 1)], which is
    the phase in radians added to the argument whenever [f2] is not zero.
    With [sign(0) = 0] each value is plus or minus [0.8] amplitude, or 0. *)
Theorem square_mode_samples (c : CONFIG) (i : nat) :
  mode c = square ->
  valueA c i = 0.8 * amp1 c * JS.sign (sin (2 * PI * f1 c * tRelative c i))
  /\ valueB c i
     = 0.8 * amp2 c
       * JS.sign (sin (2 * PI * f2 c
                       * (tRelative c i
                          + phase c / 360 / JS.or_else (f2 c) 1)))
  /\ (f2 c <> 0 ->
      valueB c i
      = 0.8 * amp2 c
        * JS.sign (sin (2 * PI * f2 c * tRelative c i + phiRad c)))
  /\ (valueA c i = 0.8 * amp1 c \/ valueA c i = - (0.8 * amp1 c)
      \/ valueA c i = 0)
  /\ (valueB c i = 0.8 * amp2 c \/ valueB c i = - (0.8 * amp2 c)
      \/ valueB c i = 0)
  /\ JS.sign 0 = 0.
Proof.
  intros H.
  pose proof (square_valueA c i H) as HA.
  pose proof (square_valueB c i H) as HB.
  split; [exact HA |]. split; [exact HB |]. split; [| split; [| split]].
  - intros Hf. rewrite HB. f_equal. f_equal. f_equal.
    unfold JS.or_else, phiRad.
    destruct (Req_dec_T (f2 c) 0) as [E | _]; [contradiction |].
    field. exact Hf.
  - rewrite HA.
    destruct (sign_cases (sin (2 * PI * f1 c * tRelative c i)))
      as [E | [E | E]]; rewrite E; [left | right; left | right; right]; lra.
  - rewrite HB.
    destruct (sign_cases
                (sin (2 * PI * f2 c
                      * (tRelative c i
                         + phase c / 360 / JS.or_else (f2 c) 1))))
      as [E | [E | E]]; rewrite E; [left | right; left | right; right]; lra.
  - apply sign_zero.
Qed.

Lemma square_mode_samples_witness :
  mode square_1Hz = square /\ valueA square_1Hz 300 = 0.8.
Proof.
  split; [reflexivity |].
  destruct (square_mode_samples square_1Hz 300 eq_refl) as (HA & _).
  rewrite HA, quarter_of_domain.
  cbn [f1 amp1 square_1Hz applyScenario with_mode CONFIG0].
  replace (2 * PI * 1 * (1 / 4)) with (PI / 2) by lra.
  rewrite sin_PI2, sign_pos by lra. lra.
Defined.

(** C8 as it is worded fails twice.  At sample 300 of 1200, one cycle and
    amplitude one, the formula [amplitude * sign(sin(...))] gives [1] and
    the code [0.8]; and with a phase of 90 degrees the formula gives [1]
    at sample 0 where the code, which applies no phase to basis A,
    gives 0. *)
Lemma square_mode_scaling_counterexample :
  mode square_1Hz = square
  /\ amp1 square_1Hz
     * JS.sign (sin (2 * PI * f1 square_1Hz * tRelative square_1Hz 300
                     + phiRad square_1Hz)) = 1
  /\ valueA square_1Hz 300 = 0.8
  /\ amp1 square_1Hz_90
     * JS.sign (sin (2 * PI * f1 square_1Hz_90 * tRelative square_1Hz_90 0
                     + phiRad square_1Hz_90)) = 1
  /\ valueA square_1Hz_90 0 = 0.
Proof.
  split; [reflexivity |]. split; [| split; [| split]].
  - rewrite quarter_of_domain. unfold phiRad.
    cbn [f1 amp1 phase square_1Hz applyScenario with_mode CONFIG0].
    replace (2 * PI * 1 * (1 / 4) + 0 * PI / 180) with (PI / 2) by lra.
    rewrite sin_PI2, sign_pos by lra. lra.
  - rewrite (square_valueA square_1Hz 300 eq_refl), quarter_of_domain.
    cbn [f1 amp1 square_1Hz applyScenario with_mode CONFIG0].
    replace (2 * PI * 1 * (1 / 4)) with (PI / 2) by lra.
    rewrite sin_PI2, sign_pos by lra. lra.
  - rewrite tRelative_0. unfold phiRad.
    cbn [f1 amp1 phase square_1Hz_90 applyScenario with_mode CONFIG0].
    replace (2 * PI * 1 * 0 + 90 * PI / 180) with (PI / 2) by lra.
    rewrite sin_PI2, sign_pos by lra. lra.
  - rewrite (square_valueA square_1Hz_90 0 eq_refl), tRelative_0.
    rewrite Rmult_0_r, sin_0, sign_zero. lra.
Qed.

(** ** No configuration is rejected *)

(** C9, as the code has it.  [updateGeometry] validates nothing and throws
    nothing: for every configuration -- fewer than two samples, a domain
    length that is not positive, negative orders included -- the call
    ends with curves of [3 * points] coordinates each and a correlation
    in [[-1, 1]]; the error InvalidConfiguration is never produced. *)
Theorem engine_never_rejects (c : CONFIG) (activeBtn : option View) :
  engine c activeBtn = Rendered (updateGeometry c activeBtn)
  /\ engine c activeBtn <> InvalidConfiguration
  /\ List.length (curveF1 (updateGeometry c activeBtn)) = (3 * points c)%nat
  /\ List.length (curveF2 (updateGeometry c activeBtn)) = (3 * points c)%nat
  /\ List.length (curveSum (updateGeometry c activeBtn))
     = (3 * points c)%nat
  /\ -1 <= JS.parseFloat 3 (corr (updateGeometry c activeBtn)) <= 1.
Proof.
  split; [reflexivity |]. split; [discriminate |].
  destruct (updateGeometry_lengths c activeBtn) as (H1 & H2 & H3).
  split; [exact H1 |]. split; [exact H2 |]. split; [exact H3 |].
  apply corrOf_unit_interval.
  rewrite run_loop_upto. apply loop_upto_cauchy_schwarz.
Qed.

(** C9 as it is worded fails: with one sample, and with a domain of length
    zero, the engine renders -- one point at [z = -6] and correlation
    [0.000] in the first case -- instead of reporting an error. *)
Lemma invalid_configuration_counterexample :
  (points (with_points CONFIG0 1) < 2)%nat
  /\ engine (with_points CONFIG0 1) None
     = Rendered (updateGeometry (with_points CONFIG0 1) None)
  /\ curveSum (updateGeometry (with_points CONFIG0 1) None) = [0; 0; -6]
  /\ length (with_length CONFIG0 0) <= 0
  /\ engine (with_length CONFIG0 0) None
     = Rendered (updateGeometry (with_length CONFIG0 0) None)
  /\ corr (updateGeometry (with_length CONFIG0 0) None) = 0%Z
  /\ Rendered (updateGeometry (with_points CONFIG0 1) None)
     <> InvalidConfiguration.
Proof.
  split; [cbn; lia |]. split; [reflexivity |].
  split; [apply single_sample_curve |].
  split; [cbn; lra |]. split; [reflexivity |].
  split; [apply corr_zero_length; reflexivity | discriminate].
Qed.

(** ** Phase independence in poly mode *)

(** C10.  In poly mode the curve samples, the correlation, the percentage
    and the tutorial box do not depend on the phase: two configurations
    that differ at most in [phase] give the same result. *)
Theorem poly_mode_ignores_phase (c1 c2 : CONFIG) (activeBtn : option View) :
  same_except_phase c1 c2 ->
  mode c1 = poly ->
  updateGeometry c1 activeBtn = updateGeometry c2 activeBtn.
Proof.
  intros H Hm.
  assert (E : c1 = set_phase c2 (phase c1)).
  { destruct c1, c2. unfold same_except_phase in H. cbn in H.
    destruct H as (-> & -> & -> & -> & -> & -> & -> & -> & ->).
    reflexivity. }
  rewrite E. apply updateGeometry_set_phase.
  destruct H as (_ & _ & _ & _ & _ & _ & _ & _ & H). congruence.
Qed.

Lemma poly_mode_ignores_phase_witness :
  updateGeometry (with_mode CONFIG0 poly) None
  = updateGeometry (set_phase (with_mode CONFIG0 poly) 90) None.
Proof.
  apply (poly_mode_ignores_phase (with_mode CONFIG0 poly)
           (set_phase (with_mode CONFIG0 poly) 90) None).
  - repeat split.
  - reflexivity.
Defined.

(** * Beyond the claims *)

(** ** Sums of cosines and of products of sines *)

Section TrigSums.

Lemma Sigma_plus (n : nat) (g h : nat -> R) :
  Sigma n (fun i => g i + h i) = Sigma n g + Sigma n h.
Proof.
  induction n as [| n IH]; cbn [Sigma]; [lra | rewrite IH; lra].
Qed.

Lemma Sigma_const (n : nat) (a : R) : Sigma n (fun _ => a) = INR n * a.
Proof.
  induction n as [| n IH]; [cbn; lra |].
  cbn [Sigma]. rewrite IH, S_INR. lra.
Qed.

Lemma sin_diff (a b : R) : sin (a + b) - sin (a - b) = 2 * cos a * sin b.
Proof. rewrite sin_plus, sin_minus. lra. Qed.

Lemma sin_sin (a b : R) : sin a * sin b = (cos (a - b) - cos (a + b)) / 2.
Proof. rewrite cos_minus, cos_plus. lra. Qed.

(** Multiplied by [2 sin (theta/2)] a sum of cosines in arithmetic
    progression telescopes. *)
Lemma cos_telescope (theta phi : R) (n : nat) :
  2 * sin (theta / 2) * Sigma n (fun i => cos (INR i * theta + phi))
  = sin ((INR n - 1 / 2) * theta + phi) - sin (phi - theta / 2).
Proof.
  induction n as [| n IH].
  - cbn [Sigma INR].
    replace ((0 - 1 / 2) * theta + phi) with (phi - theta / 2) by lra. lra.
  - cbn [Sigma]. rewrite Rmult_plus_distr_l, IH, S_INR.
    replace ((INR n + 1 - 1 / 2) * theta + phi)
      with ((INR n * theta + phi) + theta / 2) by lra.
    replace ((INR n - 1 / 2) * theta + phi)
      with ((INR n * theta + phi) - theta / 2) by lra.
    pose proof (sin_diff (INR n * theta + phi) (theta / 2)) as H. lra.
Qed.

(** Over a whole number [m] of periods, [0 < m < N], the [N] samples of a
    cosine add up to zero, whatever its phase. *)
Lemma cos_sum_zero (m N : nat) (phi : R) :
  (0 < m < N)%nat ->
  Sigma N (fun i => cos (INR i * (2 * PI * INR m / INR N) + phi)) = 0.
Proof.
  intros [Hm HN].
  assert (HN0 : 0 < INR N) by (apply lt_0_INR; lia).
  assert (Hm0 : 0 < INR m) by (apply lt_0_INR; lia).
  assert (HmN : INR m < INR N) by (apply lt_INR; lia).
  pose proof PI_RGT_0 as Hpi.
  set (theta := 2 * PI * INR m / INR N).
  assert (Hhalf : theta / 2 = PI * (INR m / INR N))
    by (unfold theta; field; lra).
  assert (Hfrac : 0 < INR m / INR N < 1).
  { split.
    - apply Rdiv_lt_0_compat; assumption.
    - apply Rmult_lt_reg_r with (INR N); [assumption |].
      unfold Rdiv. rewrite Rmult_assoc, Rinv_l by lra. lra. }
  assert (Hs : 0 < sin (theta / 2)).
  { rewrite Hhalf. apply sin_gt_0; nra. }
  pose proof (cos_telescope theta phi N) as H.
  replace ((INR N - 1 / 2) * theta + phi)
    with ((phi - theta / 2) + 2 * INR m * PI) in H
    by (unfold theta; field; lra).
  rewrite sin_period in H.
  apply Rmult_eq_reg_l with (2 * sin (theta / 2)); lra.
Qed.

Variables (N : nat) (phi : R).

Lemma angle_sum (k1 k2 i : nat) (psi : R) :
  (0 < N)%nat ->
  angle N k1 i + (angle N k2 i + psi)
  = INR i * (2 * PI * INR (k1 + k2) / INR N) + psi.
Proof.
  intros HN. assert (INR N <> 0) by (apply not_0_INR; lia).
  unfold angle. rewrite plus_INR. field. assumption.
Qed.

Lemma angle_diff (k1 k2 i : nat) (psi : R) :
  (0 < N)%nat -> (k2 <= k1)%nat ->
  angle N k1 i - (angle N k2 i + psi)
  = INR i * (2 * PI * INR (k1 - k2) / INR N) + - psi.
Proof.
  intros HN Hk. assert (INR N <> 0) by (apply not_0_INR; lia).
  unfold angle. rewrite minus_INR by exact Hk. field. assumption.
Qed.

(** Two sines of different whole frequencies are orthogonal on the
    samples, whatever the phase of the second. *)
Lemma sin_sin_sum_distinct (k1 k2 : nat) :
  k1 <> k2 -> (0 < k1 + k2 < N)%nat ->
  Sigma N (fun i => sin (angle N k1 i) * sin (angle N k2 i + phi)) = 0.
Proof.
  intros Hne [Hpos HN].
  rewrite (Sigma_ext N _
             (fun i => cos (angle N k1 i - (angle N k2 i + phi)) * (1 / 2)
                       + cos (angle N k1 i + (angle N k2 i + phi)) * (- 1 / 2)))
    by (intros i _; rewrite sin_sin; lra).
  rewrite Sigma_plus, !Sigma_scal.
  rewrite (Sigma_ext N (fun i => cos (angle N k1 i + (angle N k2 i + phi)))
             (fun i => cos (INR i * (2 * PI * INR (k1 + k2) / INR N) + phi)))
    by (intros i _; rewrite angle_sum by lia; reflexivity).
  rewrite cos_sum_zero by lia.
  destruct (Nat.le_gt_cases k2 k1) as [Hle | Hgt].
  - rewrite (Sigma_ext N (fun i => cos (angle N k1 i - (angle N k2 i + phi)))
               (fun i => cos (INR i * (2 * PI * INR (k1 - k2) / INR N)
                              + - phi)))
      by (intros i _; rewrite angle_diff by lia; reflexivity).
    rewrite cos_sum_zero by lia. lra.
  - rewrite (Sigma_ext N (fun i => cos (angle N k1 i - (angle N k2 i + phi)))
               (fun i => cos (INR i * (2 * PI * INR (k2 - k1) / INR N)
                              + phi))).
    + rewrite cos_sum_zero by lia. lra.
    + intros i _. rewrite <- cos_neg. f_equal.
      pose proof (angle_diff k2 k1 i (- phi) ltac:(lia) ltac:(lia)) as H.
      lra.
Qed.

(** At the same whole frequency the sum is [N cos(phi) / 2]. *)
Lemma sin_sin_sum_same (k : nat) :
  (0 < k)%nat -> (2 * k < N)%nat ->
  Sigma N (fun i => sin (angle N k i) * sin (angle N k i + phi))
  = INR N * cos phi / 2.
Proof.
  intros Hk HN.
  rewrite (Sigma_ext N _
             (fun i => cos phi * (1 / 2)
                       + cos (angle N k i + (angle N k i + phi)) * (- 1 / 2))).
  - rewrite Sigma_plus, !Sigma_scal, ?Sigma_const.
    rewrite (Sigma_ext N (fun i => cos (angle N k i + (angle N k i + phi)))
               (fun i => cos (INR i * (2 * PI * INR (k + k) / INR N) + phi)))
      by (intros i _; rewrite angle_sum by lia; reflexivity).
    rewrite cos_sum_zero by lia. lra.
  - intros i _. rewrite sin_sin.
    replace (angle N k i - (angle N k i + phi)) with (- phi) by lra.
    rewrite cos_neg. lra.
Qed.

(** The power of a sampled sine of whole frequency is [N / 2]. *)
Lemma sin_sq_sum (k : nat) :
  (0 < k)%nat -> (2 * k < N)%nat ->
  Sigma N (fun i => sin (angle N k i + phi) * sin (angle N k i + phi))
  = INR N / 2.
Proof.
  intros Hk HN.
  rewrite (Sigma_ext N _
             (fun i => 1 / 2
                       + cos (angle N k i + (angle N k i + (phi + phi)))
                         * (- 1 / 2))).
  - rewrite Sigma_plus, !Sigma_scal, ?Sigma_const.
    rewrite (Sigma_ext N
               (fun i => cos (angle N k i + (angle N k i + (phi + phi))))
               (fun i => cos (INR i * (2 * PI * INR (k + k) / INR N)
                              + (phi + phi))))
      by (intros i _; rewrite angle_sum by lia; reflexivity).
    rewrite cos_sum_zero by lia. lra.
  - intros i _. rewrite sin_sin.
    replace (angle N k i + phi - (angle N k i + phi)) with 0 by lra.
    replace (angle N k i + phi + (angle N k i + phi))
      with (angle N k i + (angle N k i + (phi + phi))) by lra.
    rewrite cos_0. lra.
Qed.

End TrigSums.

(** ** Sine mode at whole frequencies *)

Section SineMode.

Variables (c : CONFIG) (k1 k2 : nat).
Hypothesis Hmode : mode c = sine.
Hypothesis Hf1 : f1 c = INR k1.
Hypothesis Hf2 : f2 c = INR k2.

Lemma sine_valueA_angle (i : nat) :
  valueA c i = sin (angle (points c) k1 i) * amp1 c.
Proof.
  unfold valueA, sampleXY, angle. rewrite Hmode, Hf1. reflexivity.
Qed.

Lemma sine_valueB_angle (i : nat) :
  valueB c i = sin (angle (points c) k2 i + phiRad c) * amp2 c.
Proof.
  unfold valueB, sampleXY, angle, phiRad. rewrite Hmode, Hf2. reflexivity.
Qed.

Lemma sine_innerProduct :
  innerProduct c
  = Sigma (points c)
      (fun i => sin (angle (points c) k1 i)
                * sin (angle (points c) k2 i + phiRad c))
    * (amp1 c * amp2 c * dt c).
Proof.
  unfold innerProduct. rewrite <- Sigma_scal. apply Sigma_ext.
  intros i _. rewrite sine_valueA_angle, sine_valueB_angle. lra.
Qed.

Lemma sine_powerA :
  powerA c
  = Sigma (points c)
      (fun i => sin (angle (points c) k1 i + 0)
                * sin (angle (points c) k1 i + 0))
    * (amp1 c * amp1 c * dt c).
Proof.
  unfold powerA. rewrite <- Sigma_scal. apply Sigma_ext.
  intros i _. rewrite sine_valueA_angle, Rplus_0_r. lra.
Qed.

Lemma sine_powerB :
  powerB c
  = Sigma (points c)
      (fun i => sin (angle (points c) k2 i + phiRad c)
                * sin (angle (points c) k2 i + phiRad c))
    * (amp2 c * amp2 c * dt c).
Proof.
  unfold powerB. rewrite <- Sigma_scal. apply Sigma_ext.
  intros i _. rewrite sine_valueB_angle. lra.
Qed.

Lemma sine_distinct_innerProduct :
  k1 <> k2 -> (0 < k1 + k2 < points c)%nat -> innerProduct c = 0.
Proof.
  intros Hne Hk. rewrite sine_innerProduct, sin_sin_sum_distinct by assumption.
  lra.
Qed.

End SineMode.

Section SameFrequency.

Variables (c : CONFIG) (k : nat).
Hypothesis Hmode : mode c = sine.
Hypothesis Hf1 : f1 c = INR k.
Hypothesis Hf2 : f2 c = INR k.
Hypothesis Hk : (0 < k)%nat.
Hypothesis HN : (2 * k < points c)%nat.
Hypothesis Hlen : 0 < length c.

Lemma same_dt_pos : 0 < dt c.
Proof.
  unfold dt. apply Rdiv_lt_0_compat; [exact Hlen | apply lt_0_INR; lia].
Qed.

Lemma same_innerProduct :
  innerProduct c
  = amp1 c * amp2 c * (dt c * INR (points c) / 2) * cos (phiRad c).
Proof.
  rewrite (sine_innerProduct c k k Hmode Hf1 Hf2).
  rewrite sin_sin_sum_same by assumption. lra.
Qed.

Lemma same_powerA :
  powerA c = amp1 c * amp1 c * (dt c * INR (points c) / 2).
Proof.
  rewrite (sine_powerA c k Hmode Hf1), sin_sq_sum by assumption. lra.
Qed.

Lemma same_powerB :
  powerB c = amp2 c * amp2 c * (dt c * INR (points c) / 2).
Proof.
  rewrite (sine_powerB c k Hmode Hf2), sin_sq_sum by assumption. lra.
Qed.

Lemma same_norm :
  norm c = Rabs (amp1 c * amp2 c) * (dt c * INR (points c) / 2).
Proof.
  pose proof same_dt_pos as Hdt.
  assert (HNp : 0 < INR (points c)) by (apply lt_0_INR; lia).
  assert (Hh : 0 < dt c * INR (points c) / 2) by nra.
  unfold norm. rewrite same_powerA, same_powerB.
  set (h := dt c * INR (points c) / 2) in *.
  replace (amp1 c * amp1 c * h * (amp2 c * amp2 c * h))
    with (Rsqr (amp1 c * amp2 c * h)) by (unfold Rsqr; ring).
  rewrite sqrt_Rsqr_abs, Rabs_mult, (Rabs_pos_eq h) by lra. reflexivity.
Qed.

Lemma same_quotient :
  amp1 c * amp2 c <> 0 ->
  0 < norm c
  /\ innerProduct c / norm c
     = JS.sign (amp1 c * amp2 c) * cos (phiRad c).
Proof.
  intros Ha. pose proof same_dt_pos as Hdt.
  assert (HNp : 0 < INR (points c)) by (apply lt_0_INR; lia).
  assert (Hh : 0 < dt c * INR (points c) / 2) by nra.
  rewrite same_norm, same_innerProduct.
  set (h := dt c * INR (points c) / 2) in *.
  set (a := amp1 c * amp2 c) in *.
  pose proof (Rabs_pos_lt a Ha) as Hab.
  split; [nra |].
  unfold JS.sign, Rabs in *.
  destruct (Rcase_abs a) as [Hneg | Hpos];
    destruct (Rlt_dec 0 a) as [H1 | H1]; try lra.
  - destruct (Rlt_dec a 0) as [_ | H2]; [| lra]. field. lra.
  - field. lra.
Qed.

End SameFrequency.

Lemma tutorial_updateGeometry (c : CONFIG) (activeBtn : option View) :
  tutorial (updateGeometry c activeBtn)
  = updateTutorialState c activeBtn
      (absCorrOf (corr (updateGeometry c activeBtn))).
Proof. reflexivity. Qed.

Lemma orthoScore_updateGeometry (c : CONFIG) (activeBtn : option View) :
  orthoScore (updateGeometry c activeBtn)
  = (1000 - Z.abs (corr (updateGeometry c activeBtn)))%Z.
Proof.
  change (orthoScore (updateGeometry c activeBtn))
    with (orthoScoreOf (absCorrOf (corr (updateGeometry c activeBtn)))).
  apply orthoScoreOf_absCorrOf.
Qed.

Lemma corr_of_zero_innerProduct (c : CONFIG) (activeBtn : option View) :
  innerProduct c = 0 -> corr (updateGeometry c activeBtn) = 0%Z.
Proof.
  intros H. apply corrOf_zero_integral. rewrite run_loop_integral. exact H.
Qed.

Lemma toFixed_one : JS.toFixed 3 1 = 1000%Z.
Proof.
  replace 1 with (IZR 1000 / 10 ^ 3) by (simpl; lra). apply toFixed_exact.
Qed.

Lemma toFixed_minus_one : JS.toFixed 3 (-1) = (-1000)%Z.
Proof.
  replace (-1) with (IZR (-1000) / 10 ^ 3) by (simpl; lra).
  apply toFixed_exact.
Qed.

(** The sine branch of [updateTutorialState] below the threshold. *)
Lemma sine_branch_title (c : CONFIG) (activeBtn : option View) (a : R) :
  mode c = sine -> a <= 0.8 ->
  updateTutorialState c activeBtn a
  = if Req_dec_T (f1 c) (f2 c) then
      if Rlt_dec (Rabs (JS.rem (phase c) 180 - 90)) 10 then
        {| status := magic; title := IQMagic |}
      else {| status := normal; title := Target (activeId activeBtn) |}
    else {| status := normal; title := Target (activeId activeBtn) |}.
Proof.
  intros Hm Ha. unfold updateTutorialState.
  destruct (Rlt_dec 0.8 a) as [Hgt | _]; [lra |]. rewrite Hm. reflexivity.
Qed.

Lemma sine_distinct_verdict
  (c : CONFIG) (k1 k2 : nat) (activeBtn : option View) :
  mode c = sine -> f1 c = INR k1 -> f2 c = INR k2 ->
  k1 <> k2 -> (0 < k1 + k2 < points c)%nat ->
  corr (updateGeometry c activeBtn) = 0%Z
  /\ tutorial (updateGeometry c activeBtn)
     = {| status := normal; title := Target (activeId activeBtn) |}.
Proof.
  intros Hm H1 H2 Hne Hk.
  pose proof (sine_distinct_innerProduct c k1 k2 Hm H1 H2 Hne Hk) as Hip.
  pose proof (corr_of_zero_innerProduct c activeBtn Hip) as Hc.
  split; [exact Hc |].
  rewrite tutorial_updateGeometry, Hc, absCorrOf_0.
  rewrite sine_branch_title by (try assumption; lra).
  destruct (Req_dec_T (f1 c) (f2 c)) as [E | _]; [| reflexivity].
  rewrite H1, H2 in E. apply INR_eq in E. contradiction.
Qed.

(** X1.  Frequency division: in sine mode two different whole frequencies
    whose sum stays below the number of samples are exactly orthogonal on
    the samples, whatever the phase and the amplitudes.  The correlation
    shown is 0.000, the percentage 100.0 and the box keeps the text of
    the active view. *)
Theorem sine_frequency_orthogonality
  (c : CONFIG) (k1 k2 : nat) (activeBtn : option View) :
  mode c = sine -> f1 c = INR k1 -> f2 c = INR k2 ->
  k1 <> k2 -> (0 < k1 + k2 < points c)%nat ->
  innerProduct c = 0
  /\ corr (updateGeometry c activeBtn) = 0%Z
  /\ orthoScore (updateGeometry c activeBtn) = 1000%Z
  /\ tutorial (updateGeometry c activeBtn)
     = {| status := normal; title := Target (activeId activeBtn) |}.
Proof.
  intros Hm H1 H2 Hne Hk.
  pose proof (sine_distinct_innerProduct c k1 k2 Hm H1 H2 Hne Hk) as Hip.
  destruct (sine_distinct_verdict c k1 k2 activeBtn Hm H1 H2 Hne Hk)
    as [Hc Ht].
  split; [exact Hip |]. split; [exact Hc |]. split; [| exact Ht].
  rewrite orthoScore_updateGeometry, Hc. reflexivity.
Qed.

Lemma sine_frequency_orthogonality_witness :
  mode scene_fdm = sine
  /\ corr (updateGeometry scene_fdm None) = 0%Z
  /\ orthoScore (updateGeometry scene_fdm None) = 1000%Z.
Proof.
  split; [reflexivity |].
  assert (H2 : f1 scene_fdm = INR 2) by (cbn; lra).
  assert (H3 : f2 scene_fdm = INR 3) by (cbn; lra).
  assert (Hne : 2%nat <> 3%nat) by lia.
  assert (Hk : (0 < 2 + 3 < points scene_fdm)%nat) by (cbn; lia).
  destruct (sine_frequency_orthogonality scene_fdm 2 3 None
              eq_refl H2 H3 Hne Hk) as (_ & Hc & Ho & _).
  split; assumption.
Defined.

(** X2.  Same whole frequency in sine mode: with non-zero amplitudes and a
    positive domain the normalised inner product is the cosine of the
    phase (its opposite when the amplitudes have opposite signs), so the
    correlation shown is that cosine printed with three decimals. *)
Theorem sine_same_frequency_correlation
  (c : CONFIG) (k : nat) (activeBtn : option View) :
  mode c = sine -> f1 c = INR k -> f2 c = INR k ->
  (0 < k)%nat -> (2 * k < points c)%nat -> 0 < length c ->
  amp1 c * amp2 c <> 0 ->
  innerProduct c / norm c = JS.sign (amp1 c * amp2 c) * cos (phiRad c)
  /\ corr (updateGeometry c activeBtn)
     = JS.toFixed 3 (JS.sign (amp1 c * amp2 c) * cos (phiRad c)).
Proof.
  intros Hm H1 H2 Hk HN Hl Ha.
  destruct (same_quotient c k Hm H1 H2 Hk HN Hl Ha) as [Hpos Hq].
  split; [exact Hq |].
  rewrite corr_updateGeometry.
  destruct (Rlt_dec 0 (norm c)) as [_ | Hn]; [| contradiction].
  rewrite Hq. reflexivity.
Qed.

Lemma CONFIG0_same_frequency_60 :
  phiRad (applyScenario CONFIG0 2 2 60) = PI / 3.
Proof. unfold phiRad. cbn [phase applyScenario]. lra. Qed.

(** Both frequencies 2 and a phase of 60 degrees: the correlation shown
    is 0.500. *)
Lemma sine_same_frequency_correlation_witness :
  mode (applyScenario CONFIG0 2 2 60) = sine
  /\ amp1 (applyScenario CONFIG0 2 2 60) * amp2 (applyScenario CONFIG0 2 2 60)
     <> 0
  /\ corr (updateGeometry (applyScenario CONFIG0 2 2 60) None) = 500%Z.
Proof.
  assert (Ha : amp1 (applyScenario CONFIG0 2 2 60)
               * amp2 (applyScenario CONFIG0 2 2 60) <> 0)
    by (cbn [amp1 amp2 applyScenario CONFIG0]; lra).
  split; [reflexivity |]. split; [exact Ha |].
  assert (H2 : f1 (applyScenario CONFIG0 2 2 60) = INR 2) by (cbn; lra).
  assert (H3 : f2 (applyScenario CONFIG0 2 2 60) = INR 2) by (cbn; lra).
  assert (Hk : (0 < 2)%nat) by lia.
  assert (HN : (2 * 2 < points (applyScenario CONFIG0 2 2 60))%nat)
    by (cbn; lia).
  assert (Hl : 0 < length (applyScenario CONFIG0 2 2 60)) by (cbn; lra).
  destruct (sine_same_frequency_correlation (applyScenario CONFIG0 2 2 60)
              2 None eq_refl H2 H3 Hk HN Hl Ha) as [_ Hc].
  rewrite Hc, CONFIG0_same_frequency_60, cos_PI3.
  cbn [amp1 amp2 applyScenario CONFIG0].
  rewrite sign_pos by lra.
  replace (1 * (1 / 2)) with (IZR 500 / 10 ^ 3) by (simpl; lra).
  apply toFixed_exact.
Defined.

(** ** The scenario buttons *)

Lemma phiRad_0 (c : CONFIG) : phase c = 0 -> phiRad c = 0.
Proof. intros H. unfold phiRad. rewrite H. lra. Qed.

Lemma phiRad_180 (c : CONFIG) : phase c = 180 -> phiRad c = PI.
Proof. intros H. unfold phiRad. rewrite H. lra. Qed.

(** In phase or in opposition, same whole frequency, amplitudes of the
    same sign: the correlation shown is 1.000 or -1.000. *)
Lemma sine_in_phase_corr (c : CONFIG) (k : nat) (activeBtn : option View) :
  mode c = sine -> f1 c = INR k -> f2 c = INR k ->
  (0 < k)%nat -> (2 * k < points c)%nat -> 0 < length c ->
  0 < amp1 c * amp2 c ->
  (phase c = 0 -> corr (updateGeometry c activeBtn) = 1000%Z)
  /\ (phase c = 180 -> corr (updateGeometry c activeBtn) = (-1000)%Z).
Proof.
  intros Hm H1 H2 Hk HN Hl Ha.
  assert (Hne : amp1 c * amp2 c <> 0) by lra.
  destruct (same_quotient c k Hm H1 H2 Hk HN Hl Hne) as [Hpos Hq].
  assert (Hc : corr (updateGeometry c activeBtn)
               = JS.toFixed 3 (JS.sign (amp1 c * amp2 c) * cos (phiRad c))).
  { rewrite corr_updateGeometry.
    destruct (Rlt_dec 0 (norm c)) as [_ | Hn]; [| contradiction].
    rewrite Hq. reflexivity. }
  rewrite sign_pos in Hc by exact Ha.
  split; intros Hp; rewrite Hc.
  - rewrite phiRad_0, cos_0, Rmult_1_r by exact Hp. apply toFixed_one.
  - rewrite phiRad_180, cos_PI by exact Hp.
    replace (1 * -1) with (-1) by lra. apply toFixed_minus_one.
Qed.

Lemma absCorrOf_1000 : absCorrOf 1000 = 1.
Proof. rewrite absCorrOf_abs. simpl. lra. Qed.

Lemma absCorrOf_minus_1000 : absCorrOf (-1000) = 1.
Proof. rewrite absCorrOf_abs. simpl. lra. Qed.

(** X3.  The three scenario buttons, pressed in sine mode on any
    configuration with more than five samples, a positive domain and
    amplitudes of the same sign: scene-fdm (2 and 3 cycles) shows 0.000
    and the text of the active view, scene-bad (2 and 2, in phase) shows
    1.000 in the critical style, scene-iq (2 and 2, 90 degrees) shows
    0.000 and the I/Q magic message. *)
Theorem scenario_buttons (c0 : CONFIG) (activeBtn : option View) :
  mode c0 = sine -> (5 < points c0)%nat -> 0 < length c0 ->
  0 < amp1 c0 * amp2 c0 ->
  (corr (updateGeometry (applyScenario c0 2 3 0) activeBtn) = 0%Z
   /\ tutorial (updateGeometry (applyScenario c0 2 3 0) activeBtn)
      = {| status := normal; title := Target (activeId activeBtn) |})
  /\ (corr (updateGeometry (applyScenario c0 2 2 0) activeBtn) = 1000%Z
      /\ status (tutorial (updateGeometry (applyScenario c0 2 2 0)
                             activeBtn)) = critical)
  /\ (corr (updateGeometry (applyScenario c0 2 2 90) activeBtn) = 0%Z
      /\ tutorial (updateGeometry (applyScenario c0 2 2 90) activeBtn)
         = {| status := magic; title := IQMagic |}).
Proof.
  intros Hm HN Hl Ha.
  assert (E2 : 2 = INR 2) by (cbn; lra).
  assert (E3 : 3 = INR 3) by (cbn; lra).
  split; [| split].
  - destruct (sine_distinct_verdict (applyScenario c0 2 3 0) 2 3
                activeBtn) as (Hc & Ht);
      try assumption; try lia; [cbn [points applyScenario]; lia |].
    split; assumption.
  - destruct (sine_in_phase_corr (applyScenario c0 2 2 0) 2 activeBtn)
      as [Hc _]; try assumption; try lia; [cbn [points applyScenario]; lia |].
    specialize (Hc eq_refl). split; [exact Hc |].
    rewrite tutorial_updateGeometry, Hc, absCorrOf_1000.
    apply critical_branch_title. lra.
  - assert (Hc : corr (updateGeometry (applyScenario c0 2 2 90) activeBtn)
                 = 0%Z)
      by (apply (quadrature_corr (applyScenario c0 2 2 90) 2);
          try assumption; reflexivity).
    split; [exact Hc |].
    rewrite tutorial_updateGeometry, Hc, absCorrOf_0.
    rewrite sine_branch_title by (try assumption; lra).
    cbn [f1 f2 phase applyScenario].
    destruct (Req_dec_T 2 2) as [_ | Hn]; [| contradiction].
    rewrite rem_small by lra.
    replace (90 - 90) with 0 by lra. rewrite Rabs_R0.
    destruct (Rlt_dec 0 10) as [_ | Hn]; [reflexivity | lra].
Qed.

Lemma scenario_buttons_witness :
  mode CONFIG0 = sine
  /\ corr (updateGeometry scene_fdm None) = 0%Z
  /\ corr (updateGeometry scene_bad None) = 1000%Z
  /\ corr (updateGeometry scene_iq None) = 0%Z.
Proof.
  assert (HN : (5 < points CONFIG0)%nat) by (cbn; lia).
  assert (Hl : 0 < length CONFIG0) by (cbn; lra).
  assert (Ha : 0 < amp1 CONFIG0 * amp2 CONFIG0) by (cbn; lra).
  destruct (scenario_buttons CONFIG0 None eq_refl HN Hl Ha)
    as ((H1 & _) & (H2 & _) & (H3 & _)).
  split; [reflexivity |]. split; [exact H1 |]. split; [exact H2 | exact H3].
Defined.

Lemma advanced_config (c0 : CONFIG) :
  applyScenarioAdvanced c0 anc = with_amps (applyScenario c0 2 2 180) 1 1
  /\ applyScenarioAdvanced c0 am = with_amps (applyScenario c0 1 12 0) 1 0.5.
Proof.
  unfold applyScenarioAdvanced, applyScenario, with_amps.
  cbn [f1 f2 amp1 amp2 phase speed points length isAudioOn mode].
  split; f_equal; lra.
Qed.

(** X4.  The advanced scenario buttons reset both amplitudes before
    anything else, so in sine mode, with more than thirteen samples and a
    positive domain, their outcome does not depend on the configuration
    they are pressed on: anc (2 and 2 cycles, 180 degrees) shows -1.000
    in the critical style -- an inverted copy counts as a collision --
    and am (1 and 12 cycles, second amplitude one half) shows 0.000. *)
Theorem advanced_scenarios (c0 : CONFIG) (activeBtn : option View) :
  mode c0 = sine -> (13 < points c0)%nat -> 0 < length c0 ->
  (corr (updateGeometry (applyScenarioAdvanced c0 anc) activeBtn)
   = (-1000)%Z
   /\ status (tutorial (updateGeometry (applyScenarioAdvanced c0 anc)
                          activeBtn)) = critical)
  /\ (corr (updateGeometry (applyScenarioAdvanced c0 am) activeBtn) = 0%Z
      /\ amp2 (applyScenarioAdvanced c0 am) = 0.5
      /\ tutorial (updateGeometry (applyScenarioAdvanced c0 am) activeBtn)
         = {| status := normal; title := Target (activeId activeBtn) |}).
Proof.
  intros Hm HN Hl.
  destruct (advanced_config c0) as [Eanc Eam]. rewrite Eanc, Eam.
  split.
  - destruct (sine_in_phase_corr (with_amps (applyScenario c0 2 2 180) 1 1)
                2 activeBtn) as [_ Hc];
      try assumption; try lia;
      try (cbn [f1 f2 amp1 amp2 points with_amps applyScenario INR]; lra);
      [cbn [points with_amps applyScenario]; lia |].
    specialize (Hc eq_refl). split; [exact Hc |].
    rewrite tutorial_updateGeometry, Hc, absCorrOf_minus_1000.
    apply critical_branch_title. lra.
  - destruct (sine_distinct_verdict
                (with_amps (applyScenario c0 1 12 0) 1 0.5) 1 12 activeBtn)
      as (Hc & Ht);
      try assumption; try lia;
      try (cbn [f1 f2 with_amps applyScenario INR]; lra);
      [cbn [points with_amps applyScenario]; lia |].
    split; [exact Hc |]. split; [reflexivity | exact Ht].
Qed.

Lemma advanced_scenarios_witness :
  mode CONFIG0 = sine
  /\ corr (updateGeometry (applyScenarioAdvanced CONFIG0 anc) None)
     = (-1000)%Z
  /\ corr (updateGeometry (applyScenarioAdvanced CONFIG0 am) None) = 0%Z.
Proof.
  assert (HN : (13 < points CONFIG0)%nat) by (cbn; lia).
  assert (Hl : 0 < length CONFIG0) by (cbn; lra).
  destruct (advanced_scenarios CONFIG0 None eq_refl HN Hl)
    as ((H1 & _) & (H2 & _)).
  split; [reflexivity |]. split; [exact H1 | exact H2].
Defined.

(** ** What the statistic does not depend on *)

Lemma toFixed_opp (d : nat) (x : R) :
  JS.toFixed d (- x) = (- JS.toFixed d x)%Z.
Proof.
  unfold JS.toFixed.
  destruct (Rlt_dec (- x) 0) as [H1 | H1];
    destruct (Rlt_dec x 0) as [H2 | H2]; try lra.
  - rewrite Ropp_involutive. reflexivity.
  - lia.
  - replace x with 0 by lra.
    rewrite Ropp_0, Rmult_0_l, Rplus_0_l.
    rewrite (floor_unique (1 / 2) 0) by (simpl; lra). reflexivity.
Qed.

Section StepFree.

Variable c : CONFIG.

Lemma innerProduct_dot : innerProduct c = dotAB c * dt c.
Proof. unfold innerProduct, dotAB. apply Sigma_scal. Qed.

Lemma powerA_dot : powerA c = dotAA c * dt c.
Proof. unfold powerA, dotAA. apply Sigma_scal. Qed.

Lemma powerB_dot : powerB c = dotBB c * dt c.
Proof. unfold powerB, dotBB. apply Sigma_scal. Qed.

Lemma norm_dot : 0 < dt c -> norm c = sqrt (dotAA c * dotBB c) * dt c.
Proof.
  intros Hdt. unfold norm. rewrite powerA_dot, powerB_dot.
  replace (dotAA c * dt c * (dotBB c * dt c))
    with (Rsqr (dt c) * (dotAA c * dotBB c)) by (unfold Rsqr; ring).
  rewrite sqrt_mult_alt by apply Rle_0_sqr.
  rewrite sqrt_Rsqr_abs, Rabs_pos_eq by lra. ring.
Qed.

(** With a positive step the step cancels: the correlation is computed
    from the bare sums of products. *)
Lemma corr_step_free (activeBtn : option View) :
  0 < dt c ->
  corr (updateGeometry c activeBtn)
  = if Rlt_dec 0 (sqrt (dotAA c * dotBB c))
    then JS.toFixed 3 (dotAB c / sqrt (dotAA c * dotBB c))
    else 0%Z.
Proof.
  intros Hdt. rewrite corr_updateGeometry, norm_dot, innerProduct_dot
    by exact Hdt.
  set (r := sqrt (dotAA c * dotBB c)).
  destruct (Rlt_dec 0 (r * dt c)) as [H1 | H1];
    destruct (Rlt_dec 0 r) as [H2 | H2]; try reflexivity.
  - f_equal. field. lra.
  - exfalso. apply H2. nra.
  - exfalso. apply H1. nra.
Qed.

End StepFree.

Section Amplitudes.

Variable c : CONFIG.

Lemma valueA_scale (i : nat) :
  valueA c i = amp1 c * valueA (with_amps c 1 1) i.
Proof.
  unfold valueA, sampleXY.
  cbn [mode f1 f2 amp1 amp2 phase points length with_amps].
  destruct (mode c); cbn [fst]; lra.
Qed.

Lemma valueB_scale (i : nat) :
  valueB c i = amp2 c * valueB (with_amps c 1 1) i.
Proof.
  unfold valueB, sampleXY.
  cbn [mode f1 f2 amp1 amp2 phase points length with_amps].
  destruct (mode c); cbn [snd]; lra.
Qed.

Lemma innerProduct_scale :
  innerProduct c = innerProduct (with_amps c 1 1) * (amp1 c * amp2 c).
Proof.
  unfold innerProduct. rewrite <- Sigma_scal. apply Sigma_ext. intros i _.
  rewrite valueA_scale, valueB_scale. unfold dt. cbn [points length with_amps].
  lra.
Qed.

Lemma powerA_scale :
  powerA c = powerA (with_amps c 1 1) * (amp1 c * amp1 c).
Proof.
  unfold powerA. rewrite <- Sigma_scal. apply Sigma_ext. intros i _.
  rewrite valueA_scale. unfold dt. cbn [points length with_amps]. lra.
Qed.

Lemma powerB_scale :
  powerB c = powerB (with_amps c 1 1) * (amp2 c * amp2 c).
Proof.
  unfold powerB. rewrite <- Sigma_scal. apply Sigma_ext. intros i _.
  rewrite valueB_scale. unfold dt. cbn [points length with_amps]. lra.
Qed.

Lemma norm_scale :
  norm c = Rabs (amp1 c * amp2 c) * norm (with_amps c 1 1).
Proof.
  unfold norm. rewrite powerA_scale, powerB_scale.
  replace (powerA (with_amps c 1 1) * (amp1 c * amp1 c)
           * (powerB (with_amps c 1 1) * (amp2 c * amp2 c)))
    with (Rsqr (amp1 c * amp2 c)
          * (powerA (with_amps c 1 1) * powerB (with_amps c 1 1)))
    by (unfold Rsqr; ring).
  rewrite sqrt_mult_alt by apply Rle_0_sqr.
  rewrite sqrt_Rsqr_abs. reflexivity.
Qed.

(** The correlation of a configuration against the one with unit
    amplitudes. *)
Lemma corr_scale (activeBtn : option View) :
  amp1 c * amp2 c <> 0 ->
  corr (updateGeometry c activeBtn)
  = if Rlt_dec 0 (amp1 c * amp2 c)
    then corr (updateGeometry (with_amps c 1 1) activeBtn)
    else (- corr (updateGeometry (with_amps c 1 1) activeBtn))%Z.
Proof.
  intros Ha. rewrite !corr_updateGeometry, norm_scale, innerProduct_scale.
  set (a := amp1 c * amp2 c) in *.
  set (n1 := norm (with_amps c 1 1)).
  set (ip := innerProduct (with_amps c 1 1)).
  pose proof (Rabs_pos_lt a Ha) as Hab.
  assert (Hn1 : 0 <= n1) by apply sqrt_pos.
  destruct (Rlt_dec 0 n1) as [Hp | Hz].
  - destruct (Rlt_dec 0 (Rabs a * n1)) as [_ | Hn]; [| exfalso; nra].
    destruct (Rlt_dec 0 a) as [Hpos | Hneg].
    + rewrite Rabs_pos_eq by lra. f_equal. field. lra.
    + rewrite Rabs_left by lra. rewrite <- toFixed_opp. f_equal. field. lra.
  - replace n1 with 0 by lra. rewrite Rmult_0_r.
    destruct (Rlt_dec 0 0) as [H0 | _]; [lra |].
    destruct (Rlt_dec 0 a); reflexivity.
Qed.

End Amplitudes.

Lemma tutorial_with_amps (c : CONFIG) (a b x : R) (activeBtn : option View) :
  updateTutorialState (with_amps c a b) activeBtn x
  = updateTutorialState c activeBtn x.
Proof. reflexivity. Qed.

(** X5.  Amplitudes that are not zero never change the verdict: replacing
    them by any other non-zero pair leaves the percentage and the
    tutorial box as they were, and the correlation too, up to its sign
    when the sign of the product of the amplitudes changes. *)
Theorem amplitude_invariance
  (c : CONFIG) (a b : R) (activeBtn : option View) :
  amp1 c * amp2 c <> 0 -> a * b <> 0 ->
  orthoScore (updateGeometry (with_amps c a b) activeBtn)
  = orthoScore (updateGeometry c activeBtn)
  /\ tutorial (updateGeometry (with_amps c a b) activeBtn)
     = tutorial (updateGeometry c activeBtn)
  /\ corr (updateGeometry (with_amps c a b) activeBtn)
     = if Rlt_dec 0 (a * b * (amp1 c * amp2 c))
       then corr (updateGeometry c activeBtn)
       else (- corr (updateGeometry c activeBtn))%Z.
Proof.
  intros Hc Hab.
  pose proof (corr_scale c activeBtn Hc) as E1.
  pose proof (corr_scale (with_amps c a b) activeBtn) as E2.
  cbn [amp1 amp2 with_amps] in E2. specialize (E2 Hab).
  change (with_amps (with_amps c a b) 1 1) with (with_amps c 1 1) in E2.
  set (u := corr (updateGeometry (with_amps c 1 1) activeBtn)) in *.
  assert (Hcorr : corr (updateGeometry (with_amps c a b) activeBtn)
                  = if Rlt_dec 0 (a * b * (amp1 c * amp2 c))
                    then corr (updateGeometry c activeBtn)
                    else (- corr (updateGeometry c activeBtn))%Z).
  { rewrite E1, E2.
    destruct (Rlt_dec 0 (a * b)) as [H1 | H1];
      destruct (Rlt_dec 0 (amp1 c * amp2 c)) as [H2 | H2];
      destruct (Rlt_dec 0 (a * b * (amp1 c * amp2 c))) as [H3 | H3];
      try reflexivity; try lia; exfalso; nra. }
  assert (Habs : Z.abs (corr (updateGeometry (with_amps c a b) activeBtn))
                 = Z.abs (corr (updateGeometry c activeBtn))).
  { rewrite Hcorr.
    destruct (Rlt_dec 0 (a * b * (amp1 c * amp2 c))); lia. }
  split; [| split; [| exact Hcorr]].
  - rewrite !orthoScore_updateGeometry, Habs. reflexivity.
  - rewrite !tutorial_updateGeometry, tutorial_with_amps.
    rewrite !absCorrOf_abs, Habs. reflexivity.
Qed.

Lemma amplitude_invariance_witness :
  amp1 scene_bad * amp2 scene_bad <> 0
  /\ 2 * 0.5 <> 0
  /\ corr (updateGeometry (with_amps scene_bad 2 0.5) None) = 1000%Z.
Proof.
  assert (H1 : amp1 scene_bad * amp2 scene_bad <> 0) by (cbn; lra).
  assert (H2 : 2 * 0.5 <> 0) by lra.
  split; [exact H1 |]. split; [exact H2 |].
  destruct (amplitude_invariance scene_bad 2 0.5 None H1 H2) as (_ & _ & E).
  rewrite E, bad_corr.
  destruct (Rlt_dec 0 (2 * 0.5 * (amp1 scene_bad * amp2 scene_bad)))
    as [_ | Hn]; [reflexivity |].
  exfalso. apply Hn. cbn. lra.
Defined.

Lemma sampleXY_with_length (c : CONFIG) (L : R) (i : nat) :
  mode c <> wave -> sampleXY (with_length c L) i = sampleXY c i.
Proof.
  intros H. unfold sampleXY.
  cbn [mode f1 f2 amp1 amp2 phase points length with_length].
  destruct (mode c); try reflexivity. contradiction.
Qed.

Lemma dots_with_length (c : CONFIG) (L : R) :
  mode c <> wave ->
  dotAB (with_length c L) = dotAB c
  /\ dotAA (with_length c L) = dotAA c
  /\ dotBB (with_length c L) = dotBB c.
Proof.
  intros H. unfold dotAB, dotAA, dotBB, valueA, valueB.
  cbn [points with_length].
  repeat split; apply Sigma_ext; intros i _;
    rewrite (sampleXY_with_length c L i H); reflexivity.
Qed.

(** X6.  Outside wave mode the length of the domain only places the
    curves: two positive lengths give the same correlation, percentage
    and tutorial box. *)
Theorem length_invariance (c : CONFIG) (L : R) (activeBtn : option View) :
  mode c <> wave -> (0 < points c)%nat -> 0 < length c -> 0 < L ->
  corr (updateGeometry (with_length c L) activeBtn)
  = corr (updateGeometry c activeBtn)
  /\ orthoScore (updateGeometry (with_length c L) activeBtn)
     = orthoScore (updateGeometry c activeBtn)
  /\ tutorial (updateGeometry (with_length c L) activeBtn)
     = tutorial (updateGeometry c activeBtn).
Proof.
  intros Hm HN Hl HL.
  assert (HNp : 0 < INR (points c)) by (apply lt_0_INR; exact HN).
  assert (Hc : corr (updateGeometry (with_length c L) activeBtn)
               = corr (updateGeometry c activeBtn)).
  { rewrite !corr_step_free.
    - destruct (dots_with_length c L Hm) as (-> & -> & ->). reflexivity.
    - unfold dt. apply Rdiv_lt_0_compat; assumption.
    - unfold dt. cbn [length points with_length].
      apply Rdiv_lt_0_compat; assumption. }
  split; [exact Hc |]. split.
  - rewrite !orthoScore_updateGeometry, Hc. reflexivity.
  - rewrite !tutorial_updateGeometry, Hc. reflexivity.
Qed.

Lemma length_invariance_witness :
  mode scene_bad <> wave
  /\ corr (updateGeometry (with_length scene_bad 1) None) = 1000%Z.
Proof.
  assert (Hm : mode scene_bad <> wave) by (cbn; discriminate).
  assert (HN : (0 < points scene_bad)%nat) by (cbn; lia).
  assert (Hl : 0 < length scene_bad) by (cbn; lra).
  assert (HL : 0 < 1) by lra.
  split; [exact Hm |].
  destruct (length_invariance scene_bad 1 None Hm HN Hl HL) as (E & _).
  rewrite E. apply bad_corr.
Defined.

(** ** Square mode: Walsh orthogonality *)

Section HalfShift.






End HalfShift.

Section WalshMode.

Variables (c : CONFIG) (k1 k2 M : nat).
Hypothesis Hmode : mode c = square.
Hypothesis Hf1 : f1 c = INR k1.
Hypothesis Hf2 : f2 c = INR k2.
Hypothesis Hpoints : points c = (M + M)%nat.





End WalshMode.



(** ** Legendre polynomials at the ends of the interval *)

Section LegendreEnds.

Lemma legendre_pair_at_one (m : nat) : legendre_pair m 1 = (1, 1).
Proof.
  induction m as [| m IH]; [reflexivity |].
  cbn [legendre_pair]. rewrite IH.
  pose proof (pos_INR m) as Hm. f_equal. field. lra.
Qed.

Lemma legendre_pair_parity (m : nat) (x : R) :
  legendre_pair m (- x)
  = ((-1) ^ m * fst (legendre_pair m x),
     (-1) ^ S m * snd (legendre_pair m x)).
Proof.
  induction m as [| m IH].
  - cbn [legendre_pair fst snd pow]. f_equal; lra.
  - cbn [legendre_pair]. rewrite IH.
    destruct (legendre_pair m x) as [a b]. cbn [fst snd].
    pose proof (pos_INR m) as Hm. f_equal.
    cbn [pow]. field. lra.
Qed.

Lemma getLegendre_at_one (m : nat) : getLegendre (Z.of_nat m) 1 = 1.
Proof. rewrite getLegendre_pair, legendre_pair_at_one. reflexivity. Qed.

Lemma getLegendre_parity (m : nat) (x : R) :
  getLegendre (Z.of_nat m) (- x) = (-1) ^ m * getLegendre (Z.of_nat m) x.
Proof. rewrite !getLegendre_pair, legendre_pair_parity. reflexivity. Qed.

Lemma pow_minus_one_sq (m : nat) : (-1) ^ m * (-1) ^ m = 1.
Proof.
  induction m as [| m IH]; cbn [pow]; [lra |].
  replace (-1 * (-1) ^ m * (-1 * (-1) ^ m)) with ((-1) ^ m * (-1) ^ m) by ring.
  exact IH.
Qed.

(** At the left end every order, negative ones included, has modulus 1. *)
Lemma getLegendre_left_end_sq (n : Z) :
  getLegendre n (-1) * getLegendre n (-1) = 1.
Proof.
  destruct (Z_lt_le_dec n 0) as [Hneg | Hpos].
  - rewrite getLegendre_negative by exact Hneg. lra.
  - replace n with (Z.of_nat (Z.to_nat n)) by lia.
    replace (-1) with (Ropp 1) by lra.
    rewrite getLegendre_parity, getLegendre_at_one.
    pose proof (pow_minus_one_sq (Z.to_nat n)). nra.
Qed.

End LegendreEnds.

(** X8.  The Legendre evaluator is normalised and has the parity of its
    order: for every order [m >= 0], [P_m(1) = 1], [P_m(-1) = (-1)^m] and
    [P_m(-x) = (-1)^m P_m(x)]. *)
Theorem getLegendre_ends_and_parity (m : nat) (x : R) :
  getLegendre (Z.of_nat m) 1 = 1
  /\ getLegendre (Z.of_nat m) (-1) = (-1) ^ m
  /\ getLegendre (Z.of_nat m) (- x) = (-1) ^ m * getLegendre (Z.of_nat m) x.
Proof.
  split; [apply getLegendre_at_one |]. split; [| apply getLegendre_parity].
  replace (-1) with (Ropp 1) at 1 by lra.
  rewrite getLegendre_parity, getLegendre_at_one. lra.
Qed.

(** ** Poly mode: equal orders collapse *)

Section PolyCollapse.

Variable c : CONFIG.
Hypothesis Hmode : mode c = poly.
Hypothesis Horder : JS.round (f1 c) = JS.round (f2 c).
Hypothesis Hamp1 : amp1 c = 1.
Hypothesis Hamp2 : amp2 c = 1.
Hypothesis HN : (0 < points c)%nat.

Lemma collapse_valueB (i : nat) : valueB c i = valueA c i.
Proof.
  rewrite poly_valueA, poly_valueB by exact Hmode.
  rewrite Horder, Hamp1, Hamp2. reflexivity.
Qed.

Lemma collapse_dotAB : dotAB c = dotAA c.
Proof.
  apply Sigma_ext. intros i _. rewrite collapse_valueB. reflexivity.
Qed.

Lemma collapse_dotBB : dotBB c = dotAA c.
Proof.
  apply Sigma_ext. intros i _. rewrite collapse_valueB. reflexivity.
Qed.

Lemma collapse_dotAA_pos : 0 < dotAA c.
Proof.
  apply Rlt_le_trans with ((fun i => valueA c i * valueA c i) O).
  - cbv beta. rewrite poly_valueA, tRelative_0, Hamp1 by exact Hmode.
    replace (0 * 2 - 1) with (-1) by lra.
    pose proof (getLegendre_left_end_sq (JS.round (f1 c))) as H. nra.
  - apply (Sigma_ge_term (points c) 0 (fun i => valueA c i * valueA c i)).
    + intros i. pose proof (Rle_0_sqr (valueA c i)) as H.
      unfold Rsqr in H. exact H.
    + exact HN.
Qed.

Lemma collapse_corr (activeBtn : option View) :
  0 < length c -> corr (updateGeometry c activeBtn) = 1000%Z.
Proof.
  intros Hl. pose proof collapse_dotAA_pos as Hp.
  rewrite corr_step_free
    by (unfold dt; apply Rdiv_lt_0_compat; [exact Hl | apply lt_0_INR; lia]).
  rewrite collapse_dotAB, collapse_dotBB, sqrt_square by lra.
  destruct (Rlt_dec 0 (dotAA c)) as [_ | Hn]; [| contradiction].
  replace (dotAA c / dotAA c) with 1 by (field; lra).
  apply toFixed_one.
Qed.

End PolyCollapse.

Lemma poly_collapse_aux (c : CONFIG) (activeBtn : option View) :
  mode c = poly -> JS.round (f1 c) = JS.round (f2 c) ->
  amp1 c * amp2 c <> 0 -> (0 < points c)%nat -> 0 < length c ->
  Z.abs (corr (updateGeometry c activeBtn)) = 1000%Z
  /\ tutorial (updateGeometry c activeBtn)
     = {| status := critical; title := BasisCollapse |}.
Proof.
  intros Hm Ho Ha HN Hl.
  assert (Hu : corr (updateGeometry (with_amps c 1 1) activeBtn) = 1000%Z)
    by (apply collapse_corr; try assumption; reflexivity).
  assert (Habs : Z.abs (corr (updateGeometry c activeBtn)) = 1000%Z).
  { rewrite (corr_scale c activeBtn Ha), Hu.
    destruct (Rlt_dec 0 (amp1 c * amp2 c)); reflexivity. }
  split; [exact Habs |].
  rewrite tutorial_updateGeometry, absCorrOf_abs, Habs.
  assert (H : 0.8 < 1000 / 1000) by lra.
  destruct (critical_branch_title c activeBtn (1000 / 1000) H) as [Hs Ht].
  rewrite Hm in Ht.
  destruct (updateTutorialState c activeBtn (1000 / 1000)) as [s t].
  cbn [status title] in Hs, Ht. rewrite Hs, Ht. reflexivity.
Qed.

(** X9.  Basis collapse: in poly mode two frequencies that round to the
    same order, with non-zero amplitudes, at least one sample and a
    positive domain, always show a correlation of 1.000 (-1.000 when the
    amplitudes have opposite signs), a percentage of 0.0 and the basis
    collapse message in the critical style. *)
Theorem poly_equal_orders_collapse (c : CONFIG) (activeBtn : option View) :
  mode c = poly -> JS.round (f1 c) = JS.round (f2 c) ->
  amp1 c * amp2 c <> 0 -> (0 < points c)%nat -> 0 < length c ->
  corr (updateGeometry c activeBtn)
  = (if Rlt_dec 0 (amp1 c * amp2 c) then 1000 else -1000)%Z
  /\ orthoScore (updateGeometry c activeBtn) = 0%Z
  /\ tutorial (updateGeometry c activeBtn)
     = {| status := critical; title := BasisCollapse |}.
Proof.
  intros Hm Ho Ha HN Hl.
  assert (Hu : corr (updateGeometry (with_amps c 1 1) activeBtn) = 1000%Z)
    by (apply collapse_corr; try assumption; reflexivity).
  assert (Hc : corr (updateGeometry c activeBtn)
               = (if Rlt_dec 0 (amp1 c * amp2 c) then 1000 else -1000)%Z).
  { rewrite (corr_scale c activeBtn Ha), Hu.
    destruct (Rlt_dec 0 (amp1 c * amp2 c)); reflexivity. }
  assert (Habs : Z.abs (corr (updateGeometry c activeBtn)) = 1000%Z)
    by (rewrite Hc; destruct (Rlt_dec 0 (amp1 c * amp2 c)); reflexivity).
  split; [exact Hc |]. split.
  - rewrite orthoScore_updateGeometry, Habs. reflexivity.
  - rewrite tutorial_updateGeometry, absCorrOf_abs, Habs.
    assert (H : 0.8 < 1000 / 1000) by lra.
    destruct (critical_branch_title c activeBtn (1000 / 1000) H) as [Hs Ht].
    rewrite Hm in Ht.
    destruct (updateTutorialState c activeBtn (1000 / 1000)) as [s t].
    cbn [status title] in Hs, Ht. rewrite Hs, Ht. reflexivity.
Qed.

Lemma poly_equal_orders_collapse_witness :
  mode (applyScenario (with_mode CONFIG0 poly) 2 2 0) = poly
  /\ corr (updateGeometry (applyScenario (with_mode CONFIG0 poly) 2 2 0)
             None) = 1000%Z.
Proof.
  split; [reflexivity |].
  assert (Ha : amp1 (applyScenario (with_mode CONFIG0 poly) 2 2 0)
               * amp2 (applyScenario (with_mode CONFIG0 poly) 2 2 0) <> 0)
    by (cbn; lra).
  assert (HN : (0 < points (applyScenario (with_mode CONFIG0 poly) 2 2 0))%nat)
    by (cbn; lia).
  assert (Hl : 0 < length (applyScenario (with_mode CONFIG0 poly) 2 2 0))
    by (cbn; lra).
  destruct (poly_equal_orders_collapse
              (applyScenario (with_mode CONFIG0 poly) 2 2 0) None
              eq_refl eq_refl Ha HN Hl) as (Hc & _).
  rewrite Hc.
  destruct (Rlt_dec 0 (amp1 (applyScenario (with_mode CONFIG0 poly) 2 2 0)
                       * amp2 (applyScenario (with_mode CONFIG0 poly) 2 2 0)))
    as [_ | Hn]; [reflexivity |].
  exfalso. apply Hn. cbn. lra.
Defined.

(** ** The three position arrays *)

Lemma loop_upto_arrays
  (len : R) (n : nat) (sample : nat -> R * R) (m : nat) :
  p1 (loop_upto len n sample m)
  = flat_map (fun i => [fst (sample i); 0; INR i / INR n * len - len / 2])
      (seq 0 m)
  /\ p2 (loop_upto len n sample m)
     = flat_map (fun i => [0; snd (sample i);
                           INR i / INR n * len - len / 2]) (seq 0 m)
  /\ pSum (loop_upto len n sample m)
     = flat_map (fun i => [fst (sample i); snd (sample i);
                           INR i / INR n * len - len / 2]) (seq 0 m).
Proof.
  induction m as [| m (IH1 & IH2 & IH3)]; [repeat split |].
  rewrite loop_upto_S, seq_S, !flat_map_app. cbn [flat_map].
  rewrite !app_nil_r, <- IH1, <- IH2, <- IH3.
  unfold loop_body_with. cbn [Nat.add]. cbv beta.
  destruct (sample m) as [x y]. cbn [p1 p2 pSum fst snd]. repeat split.
Qed.

Lemma curves_closed_form (c : CONFIG) (activeBtn : option View) :
  curveF1 (updateGeometry c activeBtn)
  = flat_map (fun i => [valueA c i; 0; zOf c i]) (seq 0 (points c))
  /\ curveF2 (updateGeometry c activeBtn)
     = flat_map (fun i => [0; valueB c i; zOf c i]) (seq 0 (points c))
  /\ curveSum (updateGeometry c activeBtn)
     = flat_map (fun i => [valueA c i; valueB c i; zOf c i])
         (seq 0 (points c)).
Proof.
  unfold updateGeometry. cbn [curveF1 curveF2 curveSum].
  rewrite run_loop_upto.
  apply (loop_upto_arrays (length c) (points c) (sampleXY c) (points c)).
Qed.

(** X10.  The three arrays handed to the renderer are aligned: sample [i]
    contributes the triple [(x, 0, z)] to the first channel,
    [(0, y, z)] to the second and [(x, y, z)] to the composite path, with
    the same [x], [y], [z] in all three, in the order of the samples.  The
    composite path therefore projects exactly onto the two channel
    curves. *)
Theorem curves_are_projections (c : CONFIG) (activeBtn : option View) :
  curveF1 (updateGeometry c activeBtn)
  = flat_map (fun i => [valueA c i; 0; zOf c i]) (seq 0 (points c))
  /\ curveF2 (updateGeometry c activeBtn)
     = flat_map (fun i => [0; valueB c i; zOf c i]) (seq 0 (points c))
  /\ curveSum (updateGeometry c activeBtn)
     = flat_map (fun i => [valueA c i; valueB c i; zOf c i])
         (seq 0 (points c)).
Proof.
  unfold updateGeometry. cbn [curveF1 curveF2 curveSum].
  rewrite run_loop_upto.
  apply (loop_upto_arrays (length c) (points c) (sampleXY c) (points c)).
Qed.

(** X11.  The samples sit on an even grid along the third axis: the first
    at [-length/2], each next one a step [dt] further, and for a positive
    length none reaches [+length/2]. *)
Theorem z_grid (c : CONFIG) (i : nat) :
  (i < points c)%nat -> 0 < length c ->
  zOf c 0 = - (length c / 2)
  /\ zOf c (S i) - zOf c i = dt c
  /\ - (length c / 2) <= zOf c i < length c / 2.
Proof.
  intros Hi Hl.
  assert (HN : 0 < INR (points c)) by (apply lt_0_INR; lia).
  assert (Hi' : INR i < INR (points c)) by (apply lt_INR; exact Hi).
  pose proof (pos_INR i) as Hi0.
  unfold zOf, tRelative, dt. rewrite S_INR. cbn [INR].
  split; [lra |]. split; [field; lra |].
  assert (Hq : 0 <= INR i / INR (points c) < 1).
  { split.
    - apply Rmult_le_pos; [exact Hi0 | left; apply Rinv_0_lt_compat; exact HN].
    - apply Rmult_lt_reg_r with (INR (points c)); [exact HN |].
      unfold Rdiv. rewrite Rmult_assoc, Rinv_l by lra. lra. }
  nra.
Qed.

Lemma z_grid_witness :
  (0 < points scene_fdm)%nat /\ 0 < length scene_fdm
  /\ zOf scene_fdm 0 = - (length scene_fdm / 2).
Proof.
  assert (Hi : (0 < points scene_fdm)%nat) by (cbn; lia).
  assert (Hl : 0 < length scene_fdm) by (cbn; lra).
  split; [exact Hi |]. split; [exact Hl |].
  destruct (z_grid scene_fdm 0 Hi Hl) as (H & _). exact H.
Defined.

(** ** Size of the samples *)

Lemma exp_nonpos_le_1 (x : R) : x <= 0 -> 0 < exp x <= 1.
Proof.
  intros H. split; [apply exp_pos |].
  destruct H as [H | ->]; [| rewrite exp_0; lra].
  left. rewrite <- exp_0. apply exp_increasing. exact H.
Qed.

Lemma Rabs_sin_le_1 (x : R) : Rabs (sin x) <= 1.
Proof. apply Rabs_le. apply SIN_bound. Qed.

Lemma Rabs_sign_le_1 (x : R) : Rabs (JS.sign x) <= 1.
Proof.
  destruct (sign_cases x) as [E | [E | E]]; rewrite E; apply Rabs_le; lra.
Qed.

Lemma gauss_le_1 (u s : R) : 0 < s -> 0 < exp (- (u * u) / s) <= 1.
Proof.
  intros Hs. apply exp_nonpos_le_1.
  assert (0 <= u * u) by nra.
  assert (0 <= u * u / s)
    by (apply Rmult_le_pos; [assumption | left; apply Rinv_0_lt_compat; lra]).
  unfold Rdiv in *. lra.
Qed.

Lemma bounded_product (e s a : R) :
  0 <= e <= 1 -> Rabs s <= 1 -> Rabs (e * s * a) <= Rabs a.
Proof.
  intros He Hs. rewrite !Rabs_mult, (Rabs_pos_eq e) by lra.
  pose proof (Rabs_pos a) as Ha. pose proof (Rabs_pos s) as Hs0.
  assert (H1 : 0 <= e * Rabs s <= 1) by nra.
  replace (Rabs a) with (1 * Rabs a) at 2 by lra.
  apply Rmult_le_compat_r; lra.
Qed.

(** X12.  Outside poly mode no sample exceeds its amplitude: in sine,
    square and wave mode [|x| <= |amp1|] and [|y| <= |amp2|] at every
    sample, for every frequency, phase and domain (in square mode the
    bound is [0.8] of the amplitude). *)
Theorem samples_within_amplitude (c : CONFIG) (i : nat) :
  mode c <> poly ->
  Rabs (valueA c i) <= Rabs (amp1 c)
  /\ Rabs (valueB c i) <= Rabs (amp2 c)
  /\ (mode c = square ->
      Rabs (valueA c i) <= 0.8 * Rabs (amp1 c)
      /\ Rabs (valueB c i) <= 0.8 * Rabs (amp2 c)).
Proof.
  intros Hm.
  assert (Hsq : mode c = square ->
                Rabs (valueA c i) <= 0.8 * Rabs (amp1 c)
                /\ Rabs (valueB c i) <= 0.8 * Rabs (amp2 c)).
  { intros H. rewrite (square_valueA c i H), (square_valueB c i H).
    rewrite !Rabs_mult, (Rabs_pos_eq 0.8) by lra.
    pose proof (Rabs_sign_le_1 (sin (2 * PI * f1 c * tRelative c i))) as H1.
    pose proof (Rabs_sign_le_1
                  (sin (2 * PI * f2 c
                        * (tRelative c i
                           + phase c / 360 / JS.or_else (f2 c) 1)))) as H2.
    pose proof (Rabs_pos (amp1 c)). pose proof (Rabs_pos (amp2 c)).
    split; nra. }
  destruct (mode c) eqn:E.
  - unfold valueA, valueB, sampleXY. rewrite E. cbn [fst snd].
    split; [| split; [| intros H; discriminate]].
    + replace (sin (2 * PI * f1 c * (INR i / INR (points c))) * amp1 c)
        with (1 * sin (2 * PI * f1 c * (INR i / INR (points c))) * amp1 c)
        by lra.
      apply bounded_product; [lra | apply Rabs_sin_le_1].
    + replace (sin (2 * PI * f2 c * (INR i / INR (points c))
                    + phase c * PI / 180) * amp2 c)
        with (1 * sin (2 * PI * f2 c * (INR i / INR (points c))
                       + phase c * PI / 180) * amp2 c) by lra.
      apply bounded_product; [lra | apply Rabs_sin_le_1].
  - destruct (Hsq eq_refl) as [HA HB].
    pose proof (Rabs_pos (amp1 c)). pose proof (Rabs_pos (amp2 c)).
    split; [lra |]. split; [lra | intros _; split; assumption].
  - unfold valueA, valueB, sampleXY. rewrite E. cbn [fst snd].
    split; [| split; [| intros H; discriminate]];
      (apply bounded_product;
       [ assert (Hg : forall u, 0 < exp (- (u * u) / (2 * 0.8)) <= 1)
           by (intros u; apply gauss_le_1; lra);
         match goal with |- 0 <= exp (- (?u * ?u) / _) <= 1 =>
           specialize (Hg u); lra end
       | apply Rabs_sin_le_1 ]).
  - contradiction.
Qed.

Lemma samples_within_amplitude_witness :
  mode scene_fdm <> poly /\ Rabs (valueA scene_fdm 7) <= Rabs 1.
Proof.
  assert (Hm : mode scene_fdm <> poly) by (cbn; discriminate).
  split; [exact Hm |].
  destruct (samples_within_amplitude scene_fdm 7 Hm) as (H & _). exact H.
Defined.

(** ** The animation loop *)

Lemma last_cons_default (t d : R) (ts : list R) :
  last (t :: ts) d = last ts t.
Proof.
  revert t d. induction ts as [| u ts IH]; intros t d; [reflexivity |].
  change (last (t :: u :: ts) d) with (last (u :: ts) d).
  rewrite !IH. reflexivity.
Qed.

Lemma frames_cons (c : CONFIG) (k : Clock) (t : R) (ts : list R) :
  frames c k (t :: ts) = frames c (fst (animate c k t)) ts.
Proof. reflexivity. Qed.

Lemma animation_clock_aux (c : CONFIG) (k : Clock) (times : list R) :
  lastTime (frames c k times) = last times (lastTime k)
  /\ progress (frames c k times)
     = progress k + (last times (lastTime k) - lastTime k) * 0.001 * speed c.
Proof.
  revert k. induction times as [| t ts IH]; intros k.
  - cbn [frames fold_left last]. split; [reflexivity | lra].
  - rewrite frames_cons, last_cons_default.
    destruct (IH (fst (animate c k t))) as [H1 H2].
    change (lastTime (fst (animate c k t))) with t in H1, H2.
    change (progress (fst (animate c k t)))
      with (progress k + (t - lastTime k) * 0.001 * speed c) in H2.
    split; [exact H1 |]. rewrite H2. lra.
Qed.

(** X13.  The animation clock is independent of the frame rate: after any
    number of frames [progress] has advanced by a thousandth of the speed
    times the time elapsed between the last time stamp and the one the
    clock started from, and [lastTime] is the last time stamp; so two
    runs of frames that end at the same time stamp leave the same clock,
    however many frames each drew. *)
Theorem animation_clock (c : CONFIG) (k : Clock) (times times' : list R) :
  (lastTime (frames c k times) = last times (lastTime k)
   /\ progress (frames c k times)
      = progress k
        + (last times (lastTime k) - lastTime k) * 0.001 * speed c)
  /\ (last times (lastTime k) = last times' (lastTime k) ->
      frames c k times = frames c k times').
Proof.
  destruct (animation_clock_aux c k times) as [H1 H2].
  destruct (animation_clock_aux c k times') as [H1' H2'].
  split; [split; assumption |].
  intros E.
  destruct (frames c k times) as [p l], (frames c k times') as [p' l'].
  cbn [progress lastTime] in *.
  rewrite H1, H2, H1', H2', E. reflexivity.
Qed.

(** Sixty frames or two, the clock at 1000 ms is the same. *)
Lemma animation_clock_witness :
  last [16; 500; 1000] (lastTime clock0) = last [1000] (lastTime clock0)
  /\ frames CONFIG0 clock0 [16; 500; 1000] = frames CONFIG0 clock0 [1000].
Proof.
  assert (E : last [16; 500; 1000] (lastTime clock0)
              = last [1000] (lastTime clock0)) by reflexivity.
  split; [exact E |].
  apply (proj2 (animation_clock CONFIG0 clock0 [16; 500; 1000] [1000]) E).
Defined.

Lemma rem_unit_range (a : R) : 0 <= a -> 0 <= JS.rem a 1 < 1.
Proof.
  intros Ha. destruct (rem_nonneg a 1 Ha) as [H _]; [lra | exact H].
Qed.

Lemma rem_whole_plus (q : nat) (r : R) :
  0 <= r < 1 -> JS.rem (INR q + r) 1 = r.
Proof.
  intros Hr. pose proof (pos_INR q) as Hq. unfold JS.rem, JS.trunc.
  replace ((INR q + r) / 1) with (INR q + r) by field.
  destruct (Rle_dec 0 (INR q + r)) as [_ | Hn]; [| lra].
  rewrite (floor_unique (INR q + r) (Z.of_nat q))
    by (rewrite <- INR_IZR_INZ; lra).
  rewrite <- INR_IZR_INZ. lra.
Qed.

Lemma progress_from_start (c : CONFIG) (times : list R) (t : R) :
  progress (fst (animate c (frames c clock0 times) t))
  = t * 0.001 * speed c.
Proof.
  destruct (animation_clock_aux c clock0 times) as [H1 H2].
  cbn [animate fst progress]. rewrite H1, H2.
  cbn [progress lastTime clock0]. lra.
Qed.

(** X14.  However the earlier frames were spaced, a frame drawn at a time
    that is not negative, with a speed that is not negative and a positive
    domain, puts the composite dot at a point [(x, y, z)] with
    [|x| <= 1], [|y| <= 1] and [-length/2 <= z < length/2], and the two
    channel dots at its projections [(x, 0, z)] and [(0, y, z)]. *)
Theorem animated_dot_in_box (c : CONFIG) (times : list R) (t : R) :
  0 <= speed c -> 0 <= t -> 0 < length c ->
  exists x y z : R,
    dotSum (snd (animate c (frames c clock0 times) t)) = (x, y, z)
    /\ dotF1 (snd (animate c (frames c clock0 times) t)) = (x, 0, z)
    /\ dotF2 (snd (animate c (frames c clock0 times) t)) = (0, y, z)
    /\ Rabs x <= 1 /\ Rabs y <= 1
    /\ - (length c / 2) <= z < length c / 2.
Proof.
  intros Hs Ht Hl.
  pose proof (progress_from_start c times t) as Hp.
  cbn [animate fst snd progress dotSum dotF1 dotF2] in *.
  set (p := progress (frames c clock0 times)
            + (t - lastTime (frames c clock0 times)) * 0.001 * speed c) in *.
  assert (Hp0 : 0 <= p) by (rewrite Hp; nra).
  pose proof (rem_unit_range p Hp0) as Hr.
  eexists _, _, _. split; [reflexivity |].
  split; [reflexivity |]. split; [reflexivity |].
  split; [apply Rabs_sin_le_1 |]. split; [apply Rabs_sin_le_1 |]. nra.
Qed.

Lemma animated_dot_in_box_witness :
  0 <= speed CONFIG0 /\ 0 <= 16 /\ 0 < length CONFIG0
  /\ exists x y z : R,
      dotSum (snd (animate CONFIG0 (frames CONFIG0 clock0 [0]) 16))
      = (x, y, z)
      /\ - (length CONFIG0 / 2) <= z < length CONFIG0 / 2.
Proof.
  assert (Hs : 0 <= speed CONFIG0) by (cbn; lra).
  assert (Ht : 0 <= 16) by lra.
  assert (Hl : 0 < length CONFIG0) by (cbn; lra).
  split; [exact Hs |]. split; [exact Ht |]. split; [exact Hl |].
  destruct (animated_dot_in_box CONFIG0 [0] 16 Hs Ht Hl)
    as (x & y & z & H & _ & _ & _ & _ & Hz).
  exists x, y, z. split; assumption.
Defined.

(** X15.  The dot rides the sine curve of unit amplitude: at a time when
    the clock has run [q] whole cycles plus the fraction of sample [i],
    the composite dot is at [(x, y, z)] where [z] is the [z] of sample
    [i] and, in sine mode, the sample is [(amp1 * x, amp2 * y)].  The dot
    is on the drawn curve when both amplitudes are one, and ignores them
    otherwise. *)
Theorem animated_dot_on_curve
  (c : CONFIG) (times : list R) (t : R) (q i : nat) :
  mode c = sine -> (i < points c)%nat ->
  t * 0.001 * speed c = INR q + tRelative c i ->
  exists x y : R,
    dotSum (snd (animate c (frames c clock0 times) t)) = (x, y, zOf c i)
    /\ valueA c i = amp1 c * x
    /\ valueB c i = amp2 c * y.
Proof.
  intros Hm Hi Ht.
  pose proof (progress_from_start c times t) as Hp.
  assert (Hfrac : 0 <= tRelative c i < 1).
  { assert (HN : 0 < INR (points c)) by (apply lt_0_INR; lia).
    pose proof (pos_INR i) as Hi0.
    assert (Hi' : INR i < INR (points c)) by (apply lt_INR; exact Hi).
    unfold tRelative. split.
    - apply Rmult_le_pos; [exact Hi0 | left; apply Rinv_0_lt_compat; exact HN].
    - apply Rmult_lt_reg_r with (INR (points c)); [exact HN |].
      unfold Rdiv. rewrite Rmult_assoc, Rinv_l by lra. lra. }
  cbn [animate fst snd progress dotSum] in *.
  rewrite Hp, Ht, (rem_whole_plus q _ Hfrac).
  eexists _, _. split; [reflexivity |].
  unfold valueA, valueB, sampleXY, tRelative. rewrite Hm. cbn [fst snd].
  split; lra.
Qed.

Lemma animated_dot_on_curve_witness :
  mode CONFIG0 = sine
  /\ 500 * 0.001 * speed CONFIG0 = INR 0 + tRelative CONFIG0 300
  /\ exists x y : R,
      dotSum (snd (animate CONFIG0 (frames CONFIG0 clock0 [0; 16]) 500))
      = (x, y, zOf CONFIG0 300).
Proof.
  assert (Hi : (300 < points CONFIG0)%nat) by (cbn; lia).
  assert (Ht : 500 * 0.001 * speed CONFIG0 = INR 0 + tRelative CONFIG0 300).
  { unfold tRelative. cbn [speed points CONFIG0].
    rewrite !INR_IZR_INZ.
    change (Z.of_nat 0) with 0%Z. change (Z.of_nat 300) with 300%Z.
    change (Z.of_nat 1200) with 1200%Z. lra. }
  split; [reflexivity |]. split; [exact Ht |].
  destruct (animated_dot_on_curve CONFIG0 [0; 16] 500 0 300 eq_refl Hi Ht)
    as (x & y & H & _).
  exists x, y. exact H.
Defined.

(** ** Camera presets and the tutorial box *)

(** X16.  A later update that finds nothing special keeps the text the
    camera preset installed: after [transitionCamera(id)], an update in
    sine mode whose correlation is not above [0.8] and that is not a
    quadrature case shows again the title of [TARGETS[id]], in the
    normal style. *)
Theorem preset_text_survives_update (c : CONFIG) (id : View) (absCorr : R) :
  mode c = sine -> absCorr <= 0.8 ->
  f1 c <> f2 c \/ 10 <= Rabs (JS.rem (phase c) 180 - 90) ->
  title (updateTutorialState c (now_active (transitionCamera id)) absCorr)
  = now_title (transitionCamera id)
  /\ status (updateTutorialState c (now_active (transitionCamera id))
               absCorr) = normal.
Proof.
  intros Hm Ha Hq.
  rewrite sine_branch_title by assumption.
  assert (E : now_active (transitionCamera id) = Some id
              /\ now_title (transitionCamera id) = Target id).
  { unfold transitionCamera. destruct (TARGETS_p id) as [[px py] pz].
    split; reflexivity. }
  destruct E as [E1 E2]. rewrite E1, E2. cbn [activeId].
  destruct (Req_dec_T (f1 c) (f2 c)) as [E | _]; [| split; reflexivity].
  destruct (Rlt_dec (Rabs (JS.rem (phase c) 180 - 90)) 10) as [Hlt | _];
    [| split; reflexivity].
  destruct Hq as [Hq | Hq]; [contradiction | lra].
Qed.

Lemma preset_text_survives_update_witness :
  mode scene_fdm = sine /\ 0 <= 0.8
  /\ title (updateTutorialState scene_fdm
              (now_active (transitionCamera view_top)) 0)
     = Target view_top.
Proof.
  assert (Ha : 0 <= 0.8) by lra.
  assert (Hq : f1 scene_fdm <> f2 scene_fdm
               \/ 10 <= Rabs (JS.rem (phase scene_fdm) 180 - 90))
    by (left; cbn; lra).
  split; [reflexivity |]. split; [exact Ha |].
  destruct (preset_text_survives_update scene_fdm view_top 0 eq_refl Ha Hq)
    as [H _].
  exact H.
Defined.

Lemma transition_fields (id : View) :
  now_active (transitionCamera id) = Some id
  /\ to_fov (transitionCamera id) = (if isIsoView id then 1.5 else 60)
  /\ to_position (transitionCamera id)
     = (let '(px, py, pz) := TARGETS_p id in
        let m := if isIsoView id then 25 else 1 in
        (px * m, py * m, pz * m)).
Proof.
  unfold transitionCamera. destruct (TARGETS_p id) as [[px py] pz].
  repeat split.
Qed.

(** X17.  The telephoto presets are exactly the ones that turn a
    collision into the illusion message: after [transitionCamera(id)]
    the camera heads for a field of view of [1.5] if and only if a later
    update above the threshold, in sine or square mode, words the
    collision as a visual illusion; in that case the camera is sent 300
    units away along one axis, looking at the origin. *)
Theorem telephoto_iff_illusion (c : CONFIG) (id : View) (absCorr : R) :
  mode c = sine \/ mode c = square -> 0.8 < absCorr ->
  (to_fov (transitionCamera id) = 1.5
   <-> title (updateTutorialState c (now_active (transitionCamera id))
                absCorr) = VisualIllusion)
  /\ (to_fov (transitionCamera id) = 1.5 ->
      (to_position (transitionCamera id) = (0 * 25, 0 * 25, 12 * 25)
       \/ to_position (transitionCamera id) = (12 * 25, 0 * 25, 0 * 25))
      /\ to_target (transitionCamera id) = (0, 0, 0)).
Proof.
  intros Hm Ha.
  destruct (transition_fields id) as (E1 & E2 & E3).
  destruct (critical_branch_title c (Some id) absCorr Ha) as [_ Ht].
  rewrite E1, E2, E3, Ht. cbn [activeId].
  assert (Hmode : match mode c with
                  | wave => PacketCollision
                  | poly => BasisCollapse
                  | _ => if isIsoView id then VisualIllusion
                         else SignalCollision
                  end
                  = if isIsoView id then VisualIllusion else SignalCollision)
    by (destruct Hm as [-> | ->]; reflexivity).
  rewrite Hmode.
  destruct id; cbn [isIsoView TARGETS_p TARGETS_t transitionCamera to_target];
    (split;
     [ split; intros H; first [reflexivity | discriminate | exfalso; lra]
     | intros H;
       first [ exfalso; lra
             | split;
               [ first [left; reflexivity | right; reflexivity]
               | reflexivity ] ] ]).
Qed.

Lemma telephoto_iff_illusion_witness :
  0.8 < 1
  /\ to_fov (transitionCamera view_f2) = 1.5
  /\ title (updateTutorialState scene_bad
              (now_active (transitionCamera view_f2)) 1) = VisualIllusion.
Proof.
  assert (Ha : 0.8 < 1) by lra.
  assert (Hf : to_fov (transitionCamera view_f2) = 1.5) by reflexivity.
  split; [exact Ha |]. split; [exact Hf |].
  destruct (telephoto_iff_illusion scene_bad view_f2 1 (or_introl eq_refl) Ha)
    as [[H _] _].
  exact (H Hf).
Defined.

(** ** The mode buttons *)

(** X18.  A mode button hides the verdict it has just computed: pressing
    poly on a configuration whose two frequencies round to the same
    order leaves the box in the critical style and the correlation at
    1.000 or -1.000, but the title shown is the description of the mode,
    not the basis collapse message [updateGeometry] had installed. *)
Theorem mode_button_hides_collision (c : CONFIG) (activeBtn : option View) :
  JS.round (f1 c) = JS.round (f2 c) -> amp1 c * amp2 c <> 0 ->
  (0 < points c)%nat -> 0 < length c ->
  let '(c', g, box) := modeButton c activeBtn poly in
  mode c' = poly
  /\ Z.abs (corr g) = 1000%Z
  /\ title (tutorial g) = BasisCollapse
  /\ box_status box = critical
  /\ box_title box = ModeDescription poly.
Proof.
  intros Ho Ha HN Hl. unfold modeButton.
  destruct (poly_collapse_aux (with_mode c poly) activeBtn)
    as (Hc & Ht); try assumption; try reflexivity.
  split; [reflexivity |]. split; [exact Hc |].
  rewrite Ht. repeat split.
Qed.

Lemma mode_button_hides_collision_witness :
  JS.round (f1 scene_bad) = JS.round (f2 scene_bad)
  /\ box_title (snd (modeButton scene_bad None poly)) = ModeDescription poly
  /\ box_status (snd (modeButton scene_bad None poly)) = critical.
Proof.
  assert (Ho : JS.round (f1 scene_bad) = JS.round (f2 scene_bad))
    by reflexivity.
  assert (Ha : amp1 scene_bad * amp2 scene_bad <> 0) by (cbn; lra).
  assert (HN : (0 < points scene_bad)%nat) by (cbn; lia).
  assert (Hl : 0 < length scene_bad) by (cbn; lra).
  pose proof (mode_button_hides_collision scene_bad None Ho Ha HN Hl) as H.
  unfold modeButton in *. cbn [snd].
  destruct H as (_ & _ & _ & Hs & Ht).
  split; [exact Ho |]. split; [exact Ht | exact Hs].
Defined.

(** ** The earlier variant against the later one *)

Lemma v1_sampleXY (c : V1.CONFIG) (i : nat) :
  V1.sampleXY c i = sampleXY (later c) i.
Proof.
  unfold V1.sampleXY, sampleXY.
  cbn [mode f1 f2 amp1 amp2 phase points later]. f_equal; lra.
Qed.

Lemma v1_run_loop (c : V1.CONFIG) : V1.run_loop c = run_loop (later c).
Proof.
  rewrite run_loop_upto. cbn [length points later].
  apply (loop_upto_ext (V1.length c) (V1.points c)). apply v1_sampleXY.
Qed.

Lemma v1_fields (c : V1.CONFIG) (activeBtn : option V1.View) :
  V1.curveF1 (V1.updateGeometry c activeBtn) = p1 (V1.run_loop c)
  /\ V1.curveF2 (V1.updateGeometry c activeBtn) = p2 (V1.run_loop c)
  /\ V1.curveSum (V1.updateGeometry c activeBtn) = pSum (V1.run_loop c)
  /\ V1.corr (V1.updateGeometry c activeBtn) = corrOf (V1.run_loop c)
  /\ V1.orthoScore (V1.updateGeometry c activeBtn)
     = orthoScoreOf (absCorrOf (corrOf (V1.run_loop c)))
  /\ (V1.status (V1.updateGeometry c activeBtn),
      V1.title (V1.updateGeometry c activeBtn))
     = V1.logicTree c activeBtn (absCorrOf (corrOf (V1.run_loop c))).
Proof.
  unfold V1.updateGeometry.
  destruct (V1.logicTree c activeBtn (absCorrOf (corrOf (V1.run_loop c))))
    as [st ti].
  repeat split.
Qed.

(** X19.  The later variant extends the earlier one: with unit amplitudes
    and sine mode it draws the same three curves and shows the same
    correlation and percentage as the earlier variant, whichever preset
    is active in either; and whenever the earlier variant is in the
    critical style (threshold [0.9]) so is the later (threshold
    [0.8]). *)
Theorem later_variant_extends_earlier
  (c : V1.CONFIG) (activeBtn1 : option V1.View) (activeBtn : option View) :
  V1.curveF1 (V1.updateGeometry c activeBtn1)
  = curveF1 (updateGeometry (later c) activeBtn)
  /\ V1.curveF2 (V1.updateGeometry c activeBtn1)
     = curveF2 (updateGeometry (later c) activeBtn)
  /\ V1.curveSum (V1.updateGeometry c activeBtn1)
     = curveSum (updateGeometry (later c) activeBtn)
  /\ V1.corr (V1.updateGeometry c activeBtn1)
     = corr (updateGeometry (later c) activeBtn)
  /\ V1.orthoScore (V1.updateGeometry c activeBtn1)
     = orthoScore (updateGeometry (later c) activeBtn)
  /\ (V1.status (V1.updateGeometry c activeBtn1) = critical ->
      status (tutorial (updateGeometry (later c) activeBtn)) = critical).
Proof.
  destruct (v1_fields c activeBtn1) as (E1 & E2 & E3 & E4 & E5 & E6).
  rewrite E1, E2, E3, E4, E5, v1_run_loop.
  do 5 (split; [reflexivity |]).
  intros Hcrit.
  rewrite v1_run_loop in E6. unfold V1.logicTree in E6.
  rewrite tutorial_updateGeometry.
  change (corr (updateGeometry (later c) activeBtn))
    with (corrOf (run_loop (later c))).
  set (a := absCorrOf (corrOf (run_loop (later c)))) in *.
  destruct (Rlt_dec 0.9 a) as [Hgt | Hle].
  - apply critical_branch_title. lra.
  - rewrite Hcrit in E6.
    destruct (Req_dec_T (V1.f1 c) (V1.f2 c));
      [destruct (Rlt_dec (Rabs a) 0.1) |]; inversion E6.
Qed.

Lemma v1_corr_later
  (c : V1.CONFIG) (activeBtn1 : option V1.View) (activeBtn : option View) :
  V1.corr (V1.updateGeometry c activeBtn1)
  = corr (updateGeometry (later c) activeBtn).
Proof.
  destruct (v1_fields c activeBtn1) as (_ & _ & _ & E & _).
  rewrite E, v1_run_loop. reflexivity.
Qed.

Lemma v1_verdict (c : V1.CONFIG) (activeBtn1 : option V1.View) :
  (V1.status (V1.updateGeometry c activeBtn1),
   V1.title (V1.updateGeometry c activeBtn1))
  = V1.logicTree c activeBtn1
      (absCorrOf (V1.corr (V1.updateGeometry c activeBtn1))).
Proof.
  destruct (v1_fields c activeBtn1) as (_ & _ & _ & E4 & _ & E6).
  rewrite E4. exact E6.
Qed.

Lemma later_applyScenario (c0 : V1.CONFIG) (a b p : R) :
  later (V1.applyScenario c0 a b p) = applyScenario (later c0) a b p.
Proof. reflexivity. Qed.

Section V1Scenarios.

Variable c0 : V1.CONFIG.
Hypothesis HN : (5 < V1.points c0)%nat.
Hypothesis Hl : 0 < V1.length c0.

Lemma later_amps_pos : 0 < amp1 (later c0) * amp2 (later c0).
Proof. cbn [amp1 amp2 later]. lra. Qed.

Lemma v1_fdm_corr (activeBtn1 : option V1.View) :
  V1.corr (V1.updateGeometry (V1.applyScenario c0 2 3 0) activeBtn1) = 0%Z.
Proof.
  rewrite (v1_corr_later _ activeBtn1 None), later_applyScenario.
  assert (H2 : f1 (applyScenario (later c0) 2 3 0) = INR 2) by (cbn; lra).
  assert (H3 : f2 (applyScenario (later c0) 2 3 0) = INR 3) by (cbn; lra).
  assert (Hne : 2%nat <> 3%nat) by lia.
  assert (Hk : (0 < 2 + 3 < points (applyScenario (later c0) 2 3 0))%nat)
    by (cbn [points applyScenario later]; lia).
  destruct (sine_distinct_verdict (applyScenario (later c0) 2 3 0)
              2 3 None eq_refl H2 H3 Hne Hk) as (Hc & _).
  exact Hc.
Qed.

Lemma v1_bad_corr (activeBtn1 : option V1.View) :
  V1.corr (V1.updateGeometry (V1.applyScenario c0 2 2 0) activeBtn1)
  = 1000%Z.
Proof.
  rewrite (v1_corr_later _ activeBtn1 None), later_applyScenario.
  assert (H2 : f1 (applyScenario (later c0) 2 2 0) = INR 2) by (cbn; lra).
  assert (H3 : f2 (applyScenario (later c0) 2 2 0) = INR 2) by (cbn; lra).
  assert (Hk : (0 < 2)%nat) by lia.
  assert (Hk2 : (2 * 2 < points (applyScenario (later c0) 2 2 0))%nat)
    by (cbn [points applyScenario later]; lia).
  destruct (sine_in_phase_corr (applyScenario (later c0) 2 2 0) 2 None
              eq_refl H2 H3 Hk Hk2 Hl later_amps_pos) as [Hc _].
  apply Hc. reflexivity.
Qed.

Lemma v1_iq_corr (activeBtn1 : option V1.View) :
  V1.corr (V1.updateGeometry (V1.applyScenario c0 2 2 90) activeBtn1) = 0%Z.
Proof.
  rewrite (v1_corr_later _ activeBtn1 None), later_applyScenario.
  apply (quadrature_corr (applyScenario (later c0) 2 2 90) 2);
    try reflexivity; cbn; lra.
Qed.

End V1Scenarios.

(** X20.  The scenario buttons of the earlier variant, on any
    configuration with more than five samples and a positive domain:
    scene-fdm shows 0.000 in the normal style, with the clean-channel
    title when an isolated view is active and the text of the view
    otherwise; scene-bad shows 1.000 in the critical style; scene-iq
    shows 0.000 and the quadrature magic message, which this variant
    decides from the correlation and not from the phase. *)
Theorem v1_scenario_buttons (c0 : V1.CONFIG) (activeBtn1 : option V1.View) :
  (5 < V1.points c0)%nat -> 0 < V1.length c0 ->
  (V1.corr (V1.updateGeometry (V1.applyScenario c0 2 3 0) activeBtn1) = 0%Z
   /\ V1.status (V1.updateGeometry (V1.applyScenario c0 2 3 0) activeBtn1)
      = normal
   /\ V1.title (V1.updateGeometry (V1.applyScenario c0 2 3 0) activeBtn1)
      = match V1.activeId activeBtn1 with
        | V1.view_f1 => V1.F1Clean
        | V1.view_f2 => V1.F2Clean
        | v => V1.Target v
        end)
  /\ (V1.corr (V1.updateGeometry (V1.applyScenario c0 2 2 0) activeBtn1)
      = 1000%Z
      /\ V1.status (V1.updateGeometry (V1.applyScenario c0 2 2 0) activeBtn1)
         = critical)
  /\ (V1.corr (V1.updateGeometry (V1.applyScenario c0 2 2 90) activeBtn1)
      = 0%Z
      /\ V1.status (V1.updateGeometry (V1.applyScenario c0 2 2 90)
                      activeBtn1) = magic
      /\ V1.title (V1.updateGeometry (V1.applyScenario c0 2 2 90) activeBtn1)
         = V1.IQMagic).
Proof.
  intros HN Hl.
  pose proof (v1_fdm_corr c0 HN activeBtn1) as H1.
  pose proof (v1_bad_corr c0 HN Hl activeBtn1) as H2.
  pose proof (v1_iq_corr c0 activeBtn1) as H3.
  pose proof (v1_verdict (V1.applyScenario c0 2 3 0) activeBtn1) as Vf.
  pose proof (v1_verdict (V1.applyScenario c0 2 2 0) activeBtn1) as Vb.
  pose proof (v1_verdict (V1.applyScenario c0 2 2 90) activeBtn1) as Vq.
  rewrite H1, absCorrOf_0 in Vf. rewrite H2, absCorrOf_1000 in Vb.
  rewrite H3, absCorrOf_0 in Vq.
  unfold V1.logicTree in Vf, Vb, Vq.
  cbn [V1.f1 V1.f2 V1.applyScenario] in Vf, Vb, Vq.
  destruct (Rlt_dec 0.9 0) as [Hgt | _]; [lra |].
  destruct (Rlt_dec 0.9 1) as [_ | Hn]; [| lra].
  destruct (Req_dec_T 2 3) as [E | _]; [lra |].
  destruct (Req_dec_T 2 2) as [_ | Hn]; [| contradiction].
  rewrite Rabs_R0 in Vq.
  destruct (Rlt_dec 0 0.1) as [_ | Hn]; [| lra].
  pose proof (f_equal fst Vf) as S1. pose proof (f_equal snd Vf) as T1.
  pose proof (f_equal fst Vb) as S2.
  pose proof (f_equal fst Vq) as S3. pose proof (f_equal snd Vq) as T3.
  cbn [fst snd] in S1, T1, S2, S3, T3.
  split; [| split].
  - split; [exact H1 |]. split; [exact S1 |].
    rewrite T1. destruct (V1.activeId activeBtn1); reflexivity.
  - split; [exact H2 | exact S2].
  - split; [exact H3 |]. split; [exact S3 | exact T3].
Qed.

Lemma v1_scenario_buttons_witness :
  (5 < V1.points V1.CONFIG0)%nat /\ 0 < V1.length V1.CONFIG0
  /\ V1.corr (V1.updateGeometry (V1.applyScenario V1.CONFIG0 2 2 0) None)
     = 1000%Z
  /\ V1.title (V1.updateGeometry (V1.applyScenario V1.CONFIG0 2 2 90) None)
     = V1.IQMagic.
Proof.
  assert (HN : (5 < V1.points V1.CONFIG0)%nat) by (cbn; lia).
  assert (Hl : 0 < V1.length V1.CONFIG0) by (cbn; lra).
  destruct (v1_scenario_buttons V1.CONFIG0 None HN Hl)
    as (_ & (H2 & _) & (_ & _ & H3)).
  split; [exact HN |]. split; [exact Hl |]. split; [exact H2 | exact H3].
Defined.

(** The earlier variant on scene-bad is critical, and so is the later. *)
Lemma later_variant_extends_earlier_witness :
  V1.status (V1.updateGeometry (V1.applyScenario V1.CONFIG0 2 2 0) None)
  = critical
  /\ status (tutorial (updateGeometry
                         (later (V1.applyScenario V1.CONFIG0 2 2 0)) None))
     = critical.
Proof.
  assert (HN : (5 < V1.points V1.CONFIG0)%nat) by (cbn; lia).
  assert (Hl : 0 < V1.length V1.CONFIG0) by (cbn; lra).
  assert (Hcrit : V1.status (V1.updateGeometry
                               (V1.applyScenario V1.CONFIG0 2 2 0) None)
                  = critical).
  { pose proof (v1_verdict (V1.applyScenario V1.CONFIG0 2 2 0) None) as V.
    rewrite (v1_bad_corr V1.CONFIG0 HN Hl None), absCorrOf_1000 in V.
    unfold V1.logicTree in V.
    destruct (Rlt_dec 0.9 1) as [_ | Hn]; [| lra].
    inversion V. reflexivity. }
  split; [exact Hcrit |].
  destruct (later_variant_extends_earlier
              (V1.applyScenario V1.CONFIG0 2 2 0) None None)
    as (_ & _ & _ & _ & _ & H).
  exact (H Hcrit).
Defined.

(** ** The wavelet helper *)

(** X21.  [getWavelet] is a packet of height at most one around its
    centre, a quarter of the domain or three quarters of it according to
    [offset]: it vanishes at the centre and is odd about it, for every
    frequency and every domain length. *)
Theorem getWavelet_shape (c : CONFIG) (f t : R) (offset : bool) :
  Rabs (getWavelet c f t offset) <= 1
  /\ getWavelet c f (if offset then 0.75 else 0.25) offset = 0
  /\ getWavelet c f (2 * (if offset then 0.75 else 0.25) - t) offset
     = - getWavelet c f t offset.
Proof.
  unfold getWavelet. split; [| split].
  - set (u := t * length c - (if offset then 0.75 else 0.25) * length c).
    replace (exp (- (u * u) / (2 * 1.0 * 1.0)) * sin (2 * PI * f * u))
      with (exp (- (u * u) / (2 * 1.0 * 1.0)) * sin (2 * PI * f * u) * 1)
      by lra.
    replace 1 with (Rabs 1) at 2 by (apply Rabs_pos_eq; lra).
    apply bounded_product; [| apply Rabs_sin_le_1].
    pose proof (gauss_le_1 u (2 * 1.0 * 1.0)) as H. lra.
  - replace ((if offset then 0.75 else 0.25) * length c
             - (if offset then 0.75 else 0.25) * length c) with 0 by lra.
    replace (2 * PI * f * 0) with 0 by lra. rewrite sin_0. lra.
  - set (k := if offset then 0.75 else 0.25).
    replace ((2 * k - t) * length c - k * length c)
      with (- (t * length c - k * length c)) by lra.
    set (u := t * length c - k * length c).
    replace (- u * - u) with (u * u) by lra.
    replace (2 * PI * f * - u) with (- (2 * PI * f * u)) by lra.
    rewrite sin_neg. lra.
Qed.

(** ** Wave mode: where the packets meet *)

Section PacketCollision.

Variable c : CONFIG.
Hypothesis Hmode : mode c = wave.
Hypothesis Hf : f1 c = f2 c.
Hypothesis Hphase : phase c = 288.
Hypothesis Hamp1 : amp1 c = 1.
Hypothesis Hamp2 : amp2 c = 1.

Lemma packets_coincide (i : nat) : valueB c i = valueA c i.
Proof.
  unfold valueA, valueB, sampleXY. rewrite Hmode. cbn [fst snd].
  rewrite Hf, Hphase, Hamp1, Hamp2.
  replace (INR i / INR (points c) * length c
           - (0.7 * length c - 288 / 360 * length c * 0.5))
    with (INR i / INR (points c) * length c - 0.3 * length c) by lra.
  reflexivity.
Qed.

Lemma packets_corr (activeBtn : option View) (i : nat) :
  0 < length c -> (i < points c)%nat -> valueA c i <> 0 ->
  corr (updateGeometry c activeBtn) = 1000%Z.
Proof.
  intros Hl Hi Hnz.
  assert (Hdt : 0 < dt c)
    by (unfold dt; apply Rdiv_lt_0_compat; [exact Hl | apply lt_0_INR; lia]).
  assert (EAB : dotAB c = dotAA c)
    by (apply Sigma_ext; intros j _; rewrite packets_coincide; reflexivity).
  assert (EBB : dotBB c = dotAA c)
    by (apply Sigma_ext; intros j _; rewrite packets_coincide; reflexivity).
  assert (Hp : 0 < dotAA c).
  { apply Rlt_le_trans with ((fun j => valueA c j * valueA c j) i).
    - cbv beta. nra.
    - apply (Sigma_ge_term (points c) i (fun j => valueA c j * valueA c j)).
      + intros j. pose proof (Rle_0_sqr (valueA c j)) as H.
        unfold Rsqr in H. exact H.
      + exact Hi. }
  rewrite corr_step_free, EAB, EBB, sqrt_square by lra.
  destruct (Rlt_dec 0 (dotAA c)) as [_ | Hn]; [| contradiction].
  replace (dotAA c / dotAA c) with 1 by (field; lra).
  apply toFixed_one.
Qed.

End PacketCollision.

(** X22.  In wave mode the phase slider moves the second packet, and at
    288 degrees it sits exactly on the first: with equal frequencies,
    amplitudes of the same sign, a positive domain and a first packet
    that is not zero at every sample, the correlation shown is 1.000 and
    the box shows the packet collision in the critical style. *)
Theorem wave_packets_collide_at_288
  (c : CONFIG) (activeBtn : option View) (i : nat) :
  mode c = wave -> f1 c = f2 c -> phase c = 288 ->
  0 < amp1 c * amp2 c -> 0 < length c ->
  (i < points c)%nat -> valueA c i <> 0 ->
  corr (updateGeometry c activeBtn) = 1000%Z
  /\ tutorial (updateGeometry c activeBtn)
     = {| status := critical; title := PacketCollision |}.
Proof.
  intros Hm Hf Hp Ha Hl Hi Hnz.
  assert (Ha1 : amp1 c <> 0) by (intros E; rewrite E in Ha; lra).
  assert (Hu : corr (updateGeometry (with_amps c 1 1) activeBtn) = 1000%Z).
  { apply (packets_corr (with_amps c 1 1)) with (i := i);
      try assumption; try reflexivity.
    intros E. apply Hnz. rewrite valueA_scale, E. lra. }
  assert (Hc : corr (updateGeometry c activeBtn) = 1000%Z).
  { rewrite corr_scale by lra. rewrite Hu.
    destruct (Rlt_dec 0 (amp1 c * amp2 c)) as [_ | Hn];
      [reflexivity | contradiction]. }
  split; [exact Hc |].
  rewrite tutorial_updateGeometry, Hc, absCorrOf_1000.
  assert (H : 0.8 < 1) by lra.
  destruct (critical_branch_title c activeBtn 1 H) as [Hs Ht].
  rewrite Hm in Ht.
  destruct (updateTutorialState c activeBtn 1) as [s t].
  cbn [status title] in Hs, Ht. rewrite Hs, Ht. reflexivity.
Qed.

Lemma wave_example_sample :
  valueA (applyScenario (with_mode CONFIG0 wave) 2 2 288) 361 <> 0.
Proof.
  unfold valueA, sampleXY.
  cbn [mode f1 amp1 points length applyScenario with_mode CONFIG0 fst].
  rewrite !INR_IZR_INZ.
  change (Z.of_nat 361) with 361%Z. change (Z.of_nat 1200) with 1200%Z.
  replace (361 / 1200 * 12 - 0.3 * 12) with (1 / 100) by lra.
  pose proof PI_RGT_0 as Hpi.
  assert (Hs : 0 < sin (2 * PI * 2 * (1 / 100)))
    by (apply sin_gt_0; lra).
  pose proof (exp_pos (- (1 / 100 * (1 / 100)) / (2 * 0.8))) as He.
  nra.
Qed.

Lemma wave_packets_collide_at_288_witness :
  mode (applyScenario (with_mode CONFIG0 wave) 2 2 288) = wave
  /\ valueA (applyScenario (with_mode CONFIG0 wave) 2 2 288) 361 <> 0
  /\ corr (updateGeometry (applyScenario (with_mode CONFIG0 wave) 2 2 288)
             None) = 1000%Z.
Proof.
  assert (Ha : 0 < amp1 (applyScenario (with_mode CONFIG0 wave) 2 2 288)
                   * amp2 (applyScenario (with_mode CONFIG0 wave) 2 2 288))
    by (cbn; lra).
  assert (Hl : 0 < length (applyScenario (with_mode CONFIG0 wave) 2 2 288))
    by (cbn; lra).
  assert (Hi : (361 < points (applyScenario (with_mode CONFIG0 wave)
                                2 2 288))%nat) by (cbn; lia).
  split; [reflexivity |]. split; [exact wave_example_sample |].
  destruct (wave_packets_collide_at_288
              (applyScenario (with_mode CONFIG0 wave) 2 2 288) None 361
              eq_refl eq_refl eq_refl Ha Hl Hi wave_example_sample)
    as [Hc _].
  exact Hc.
Defined.

(** ** Degenerate sample counts *)

(** X23.  With no samples the loop never runs: the three curves are empty,
    the correlation shown is 0.000 and the percentage 100.0, and the box
    is never in the critical style, whatever the other settings. *)
Theorem no_samples (c : CONFIG) (activeBtn : option View) :
  points c = O ->
  curveF1 (updateGeometry c activeBtn) = []
  /\ curveF2 (updateGeometry c activeBtn) = []
  /\ curveSum (updateGeometry c activeBtn) = []
  /\ corr (updateGeometry c activeBtn) = 0%Z
  /\ orthoScore (updateGeometry c activeBtn) = 1000%Z
  /\ status (tutorial (updateGeometry c activeBtn)) <> critical.
Proof.
  intros H0.
  assert (Hc : corr (updateGeometry c activeBtn) = 0%Z).
  { apply corr_of_zero_innerProduct. unfold innerProduct. rewrite H0.
    reflexivity. }
  destruct (curves_closed_form c activeBtn) as (E1 & E2 & E3).
  rewrite E1, E2, E3, H0. cbn [seq flat_map].
  do 3 (split; [reflexivity |]). split; [exact Hc |]. split.
  - rewrite orthoScore_updateGeometry, Hc. reflexivity.
  - rewrite tutorial_updateGeometry, Hc, absCorrOf_0.
    unfold updateTutorialState.
    destruct (Rlt_dec 0.8 0) as [Hgt | _]; [lra |].
    destruct (mode c); cbn [status]; try discriminate.
    destruct (Req_dec_T (f1 c) (f2 c));
      [destruct (Rlt_dec (Rabs (JS.rem (phase c) 180 - 90)) 10) |];
      cbn [status]; discriminate.
Qed.

Lemma no_samples_witness :
  points (with_points CONFIG0 0) = O
  /\ corr (updateGeometry (with_points CONFIG0 0) None) = 0%Z.
Proof.
  split; [reflexivity |].
  destruct (no_samples (with_points CONFIG0 0) None eq_refl)
    as (_ & _ & _ & H & _).
  exact H.
Defined.

Lemma single_sample_sums (c : CONFIG) :
  points c = 1%nat ->
  innerProduct c = valueA c 0 * valueB c 0 * dt c
  /\ powerA c = valueA c 0 * valueA c 0 * dt c
  /\ powerB c = valueB c 0 * valueB c 0 * dt c.
Proof.
  intros H1. unfold innerProduct, powerA, powerB. rewrite H1.
  cbn [Sigma]. repeat split; lra.
Qed.

(** X24.  With a single sample the two signals are one number each, and
    any two numbers are proportional: the correlation shown can only be
    -1.000, 0.000 or 1.000.  In sine and square mode, where the sample at
    the start of the domain is zero, it is 0.000. *)
Theorem single_sample (c : CONFIG) (activeBtn : option View) :
  points c = 1%nat ->
  (corr (updateGeometry c activeBtn) = 0%Z
   \/ corr (updateGeometry c activeBtn) = 1000%Z
   \/ corr (updateGeometry c activeBtn) = (-1000)%Z)
  /\ (mode c = sine \/ mode c = square ->
      corr (updateGeometry c activeBtn) = 0%Z).
Proof.
  intros H1. destruct (single_sample_sums c H1) as (Ei & Ea & Eb). split.
  - rewrite corr_updateGeometry. unfold norm. rewrite Ei, Ea, Eb.
    set (x := valueA c 0). set (y := valueB c 0). set (d := dt c).
    replace (x * x * d * (y * y * d)) with (Rsqr (x * y * d))
      by (unfold Rsqr; ring).
    rewrite sqrt_Rsqr_abs.
    destruct (Rlt_dec 0 (Rabs (x * y * d))) as [Hpos | _];
      [| left; reflexivity].
    right. set (p := x * y * d) in *.
    destruct (Rcase_abs p) as [Hneg | Hnn].
    + right. rewrite (Rabs_left p Hneg).
      replace (p / - p) with (-1) by (field; lra).
      apply toFixed_minus_one.
    + left. rewrite (Rabs_right p Hnn).
      assert (Hp : p <> 0).
      { intros E. rewrite E, Rabs_R0 in Hpos. lra. }
      replace (p / p) with 1 by (field; exact Hp).
      apply toFixed_one.
  - intros Hm. apply corr_of_zero_innerProduct. rewrite Ei.
    assert (Hx : valueA c 0 = 0).
    { unfold valueA, sampleXY. change (INR 0) with 0.
      destruct Hm as [-> | ->]; cbn [fst]; unfold getWalsh;
        replace (0 / INR (points c)) with 0 by (unfold Rdiv; lra);
        rewrite Rmult_0_r, sin_0; [| rewrite sign_zero]; lra. }
    rewrite Hx. lra.
Qed.

Lemma single_sample_witness :
  points (with_points CONFIG0 1) = 1%nat
  /\ corr (updateGeometry (with_points CONFIG0 1) None) = 0%Z.
Proof.
  split; [reflexivity |].
  destruct (single_sample (with_points CONFIG0 1) None eq_refl) as [_ H].
  apply H. left. reflexivity.
Defined.

(** ** Orders below zero *)

(** X25.  [getLegendre] has no case for a negative order: the loop is
    skipped and [x] is returned, so in poly mode a frequency that rounds
    below zero draws the polynomial of order one. *)
Theorem negative_order_is_order_one (c : CONFIG) (i : nat) :
  mode c = poly -> (JS.round (f1 c) < 0)%Z ->
  valueA c i = getLegendre 1 (tRelative c i * 2 - 1) * amp1 c
  /\ valueA c i = (tRelative c i * 2 - 1) * amp1 c.
Proof.
  intros Hm Hn. rewrite (poly_valueA c i Hm).
  rewrite (getLegendre_negative _ _ Hn), getLegendre_1. split; reflexivity.
Qed.

Lemma round_minus_two : JS.round (-2) = (-2)%Z.
Proof. apply (round_IZR (-2)). Qed.

Lemma negative_order_is_order_one_witness :
  mode (applyScenario (with_mode CONFIG0 poly) (-2) 3 0) = poly
  /\ (JS.round (f1 (applyScenario (with_mode CONFIG0 poly) (-2) 3 0)) < 0)%Z
  /\ valueA (applyScenario (with_mode CONFIG0 poly) (-2) 3 0) 0 = -1.
Proof.
  assert (Hn : (JS.round (f1 (applyScenario (with_mode CONFIG0 poly)
                                (-2) 3 0)) < 0)%Z).
  { cbn [f1 applyScenario]. rewrite round_minus_two. lia. }
  split; [reflexivity |]. split; [exact Hn |].
  destruct (negative_order_is_order_one
              (applyScenario (with_mode CONFIG0 poly) (-2) 3 0) 0
              eq_refl Hn) as [_ H].
  rewrite H, tRelative_0. cbn [amp1 applyScenario with_mode CONFIG0]. lra.
Defined.

(** ** The phases that give the magic message *)

Lemma rem_second_half (a b : R) : 0 < b -> b <= a < 2 * b -> JS.rem a b = a - b.
Proof.
  intros Hb [H1 H2]. unfold JS.rem, JS.trunc.
  assert (Hq : 1 <= a / b < 2).
  { split.
    - apply Rmult_le_reg_r with b; [lra |].
      unfold Rdiv. rewrite Rmult_assoc, Rinv_l by lra. lra.
    - apply Rmult_lt_reg_r with b; [lra |].
      unfold Rdiv. rewrite Rmult_assoc, Rinv_l by lra. lra. }
  destruct (Rle_dec 0 (a / b)) as [_ | Hn]; [| lra].
  rewrite (floor_unique (a / b) 1) by (simpl; lra). simpl. lra.
Qed.

Lemma rem_nonpos (a b : R) : 0 < b -> a <= 0 -> - b < JS.rem a b <= 0.
Proof.
  intros Hb Ha. unfold JS.rem, JS.trunc.
  destruct (Rle_dec 0 (a / b)) as [Hq | Hq].
  - assert (E : a = 0).
    { assert (a / b <= 0).
      { unfold Rdiv. replace 0 with (0 * / b) by lra.
        apply Rmult_le_compat_r; [left; apply Rinv_0_lt_compat; lra | lra]. }
      assert (Hz : a / b = 0) by lra.
      replace a with (a / b * b) by (field; lra). rewrite Hz. lra. }
    rewrite E. unfold Rdiv. rewrite Rmult_0_l.
    rewrite (floor_unique 0 0) by (simpl; lra). simpl. lra.
  - destruct (floor_spec (- (a / b))) as [F1 F2].
    rewrite opp_IZR. set (q := IZR (JS.floor (- (a / b)))) in *.
    assert (E : a = b * (a / b)) by (field; lra).
    assert (b * q <= b * - (a / b)) by (apply Rmult_le_compat_l; lra).
    assert (b * - (a / b) < b * (q + 1)) by (apply Rmult_lt_compat_l; lra).
    lra.
Qed.

(** X26.  Which phases give the magic message.  In sine mode, with equal
    frequencies and a correlation not above [0.8], a phase from 0 up to
    360 degrees gives the I/Q magic message exactly when it lies strictly
    between 80 and 100 or strictly between 260 and 280; a phase that is
    zero or negative never does, -90 degrees included, because [%] keeps
    the sign of the phase. *)
Theorem magic_phases (c : CONFIG) (activeBtn : option View) (absCorr : R) :
  mode c = sine -> f1 c = f2 c -> absCorr <= 0.8 ->
  (0 <= phase c < 360 ->
   (title (updateTutorialState c activeBtn absCorr) = IQMagic
    <-> 80 < phase c < 100 \/ 260 < phase c < 280))
  /\ (phase c <= 0 ->
      title (updateTutorialState c activeBtn absCorr)
      = Target (activeId activeBtn)).
Proof.
  intros Hm Hf Ha. rewrite sine_branch_title by assumption.
  destruct (Req_dec_T (f1 c) (f2 c)) as [_ | Hn]; [| contradiction].
  split.
  - intros [H0 H360].
    destruct (Rlt_dec (phase c) 180) as [Hlt | Hge].
    + rewrite rem_small by lra.
      destruct (Rlt_dec (Rabs (phase c - 90)) 10) as [Hin | Hout];
        cbn [title]; split; intros H; try reflexivity; try discriminate.
      * apply Rabs_def2 in Hin. left. lra.
      * exfalso. apply Hout. apply Rabs_def1; lra.
    + rewrite rem_second_half by lra.
      destruct (Rlt_dec (Rabs (phase c - 180 - 90)) 10) as [Hin | Hout];
        cbn [title]; split; intros H; try reflexivity; try discriminate.
      * apply Rabs_def2 in Hin. right. lra.
      * exfalso. apply Hout. apply Rabs_def1; lra.
  - intros Hneg.
    pose proof (rem_nonpos (phase c) 180 ltac:(lra) Hneg) as Hr.
    destruct (Rlt_dec (Rabs (JS.rem (phase c) 180 - 90)) 10) as [Hin | _];
      [| reflexivity].
    apply Rabs_def2 in Hin. lra.
Qed.

Lemma magic_phases_witness :
  mode (applyScenario CONFIG0 2 2 (-90)) = sine
  /\ phase (applyScenario CONFIG0 2 2 (-90)) <= 0
  /\ title (updateTutorialState (applyScenario CONFIG0 2 2 (-90)) None 0)
     = Target view_3d.
Proof.
  assert (Ha : 0 <= 0.8) by lra.
  assert (Hp : phase (applyScenario CONFIG0 2 2 (-90)) <= 0) by (cbn; lra).
  split; [reflexivity |]. split; [exact Hp |].
  destruct (magic_phases (applyScenario CONFIG0 2 2 (-90)) None 0
              eq_refl eq_refl Ha) as [_ H].
  exact (H Hp).
Defined.

(** ** The first variants *)

Section WholeSines.

Variables (N k1 k2 : nat) (L : R).
Hypothesis HL : 0 < L.
Hypothesis HN : (k1 + k2 < N)%nat.

Lemma whole_sines_term (i : nat) :
  sin (2 * PI * INR k1 * (INR i / INR N * L / L))
  * sin (2 * PI * INR k2 * (INR i / INR N * L / L)) * (L / INR N)
  = sin (angle N k1 i) * sin (angle N k2 i + 0) * (L / INR N).
Proof.
  assert (HN0 : INR N <> 0) by (apply not_0_INR; lia).
  unfold angle.
  replace (INR i / INR N * L / L) with (INR i / INR N)
    by (field; split; first [lra | exact HN0]).
  rewrite Rplus_0_r. reflexivity.
Qed.

Lemma whole_sines_distinct :
  k1 <> k2 ->
  Sigma N (fun i => sin (2 * PI * INR k1 * (INR i / INR N * L / L))
                    * sin (2 * PI * INR k2 * (INR i / INR N * L / L))
                    * (L / INR N)) = 0.
Proof.
  intros Hne.
  rewrite (Sigma_ext N _
             (fun i => sin (angle N k1 i) * sin (angle N k2 i + 0)
                       * (L / INR N)))
    by (intros i _; apply whole_sines_term).
  rewrite Sigma_scal, sin_sin_sum_distinct by (try assumption; lia). lra.
Qed.

Lemma whole_sines_same :
  k1 = k2 -> (0 < k1)%nat ->
  Sigma N (fun i => sin (2 * PI * INR k1 * (INR i / INR N * L / L))
                    * sin (2 * PI * INR k2 * (INR i / INR N * L / L))
                    * (L / INR N)) = L / 2.
Proof.
  intros E Hk.
  assert (HN0 : INR N <> 0) by (apply not_0_INR; lia).
  rewrite (Sigma_ext N _
             (fun i => sin (angle N k1 i) * sin (angle N k2 i + 0)
                       * (L / INR N)))
    by (intros i _; apply whole_sines_term).
  rewrite Sigma_scal. subst k2.
  rewrite sin_sin_sum_same by lia. rewrite cos_0. field. exact HN0.
Qed.

Lemma whole_sines_zero :
  k1 = O ->
  Sigma N (fun i => sin (2 * PI * INR k1 * (INR i / INR N * L / L))
                    * sin (2 * PI * INR k2 * (INR i / INR N * L / L))
                    * (L / INR N)) = 0.
Proof.
  intros E. apply Sigma_zero. intros i _. rewrite E.
  change (INR 0) with 0. rewrite Rmult_0_r, Rmult_0_l, sin_0. lra.
Qed.

End WholeSines.

Lemma main_integral (c : Main.CONFIG) (m : nat) :
  Main.integral (fold_left (Main.loop_body c) (seq 0 m) Main.loop_init)
  = Sigma m (fun i =>
      sin (2 * PI * Main.f1 c
           * (INR i / INR (Main.points c) * Main.length c / Main.length c))
      * sin (2 * PI * Main.f2 c
             * (INR i / INR (Main.points c) * Main.length c
                / Main.length c))
      * (Main.length c / INR (Main.points c))).
Proof.
  induction m as [| m IH]; [reflexivity |].
  rewrite seq_S, fold_left_app. cbn [fold_left Sigma Nat.add].
  rewrite <- IH. reflexivity.
Qed.

Lemma curves_integral (g : Curves.State) (m : nat) :
  Curves.integral
    (fold_left (Curves.loop_body g) (seq 0 m) Curves.loop_init)
  = Sigma m (fun i =>
      sin (2 * PI * Curves.f1 g
           * (INR i / INR Curves.pointsCount * Curves.length
              / Curves.length))
      * sin (2 * PI * Curves.f2 g
             * (INR i / INR Curves.pointsCount * Curves.length
                / Curves.length))
      * (Curves.length / INR Curves.pointsCount)).
Proof.
  induction m as [| m IH]; [reflexivity |].
  rewrite seq_S, fold_left_app. cbn [fold_left Sigma Nat.add].
  rewrite <- IH. reflexivity.
Qed.

Lemma toFixed_five : JS.toFixed 3 5 = 5000%Z.
Proof.
  replace 5 with (IZR 5000 / 10 ^ 3) by (simpl; lra). apply toFixed_exact.
Qed.

(** X27.  The variant of [src/main.js] divides the inner product by half
    the length of the domain instead of the measured norm.  For whole
    frequencies whose sum stays below the number of samples, on a domain
    of positive length, this is exact: the correlation shown is 1.000
    (percentage 0.0) for equal non-zero frequencies and 0.000
    (percentage 100.0) for different ones or a zero first frequency. *)
Theorem main_whole_frequencies (c : Main.CONFIG) (k1 k2 : nat) :
  Main.f1 c = INR k1 -> Main.f2 c = INR k2 ->
  (k1 + k2 < Main.points c)%nat -> 0 < Main.length c ->
  (k1 = k2 -> (0 < k1)%nat ->
   Main.corr (Main.updateGeometry c) = 1000%Z
   /\ Main.orthoScore (Main.updateGeometry c) = 0%Z)
  /\ (k1 <> k2 \/ k1 = O ->
      Main.corr (Main.updateGeometry c) = 0%Z
      /\ Main.orthoScore (Main.updateGeometry c) = 1000%Z).
Proof.
  intros H1 H2 HN HL.
  assert (Hi : Main.integral (Main.run_loop c)
               = Sigma (Main.points c) (fun i =>
                   sin (2 * PI * INR k1
                        * (INR i / INR (Main.points c) * Main.length c
                           / Main.length c))
                   * sin (2 * PI * INR k2
                          * (INR i / INR (Main.points c) * Main.length c
                             / Main.length c))
                   * (Main.length c / INR (Main.points c)))).
  { unfold Main.run_loop. rewrite main_integral, H1, H2. reflexivity. }
  unfold Main.updateGeometry. cbn [Main.corr Main.orthoScore].
  rewrite Hi. split.
  - intros E Hk. rewrite whole_sines_same by assumption.
    replace (Main.length c / 2 / (Main.length c / 2)) with 1
      by (field; lra).
    rewrite toFixed_one. split; [reflexivity |].
    apply orthoScoreOf_absCorrOf.
  - intros Hc.
    assert (Hz : Sigma (Main.points c) (fun i =>
                   sin (2 * PI * INR k1
                        * (INR i / INR (Main.points c) * Main.length c
                           / Main.length c))
                   * sin (2 * PI * INR k2
                          * (INR i / INR (Main.points c) * Main.length c
                             / Main.length c))
                   * (Main.length c / INR (Main.points c))) = 0).
    { destruct Hc as [Hne | E0].
      - apply whole_sines_distinct; assumption.
      - apply whole_sines_zero; assumption. }
    rewrite Hz.
    replace (0 / (Main.length c / 2)) with 0 by (unfold Rdiv; lra).
    rewrite toFixed_zero.
    split; [reflexivity |]. apply orthoScoreOf_absCorrOf.
Qed.

Lemma main_whole_frequencies_witness :
  Main.f1 {| Main.f1 := 2; Main.f2 := 3; Main.speed := 0.5;
             Main.points := 1200; Main.length := 12;
             Main.isAudioOn := false |} = INR 2
  /\ Main.corr (Main.updateGeometry
                  {| Main.f1 := 2; Main.f2 := 3; Main.speed := 0.5;
                     Main.points := 1200; Main.length := 12;
                     Main.isAudioOn := false |}) = 0%Z.
Proof.
  assert (E2 : 2 = INR 2) by (cbn; lra).
  assert (E3 : 3 = INR 3) by (cbn; lra).
  assert (HN : (2 + 3 < 1200)%nat) by lia.
  assert (HL : 0 < 12) by lra.
  split; [exact E2 |].
  destruct (main_whole_frequencies
              {| Main.f1 := 2; Main.f2 := 3; Main.speed := 0.5;
                 Main.points := 1200; Main.length := 12;
                 Main.isAudioOn := false |} 2 3 E2 E3 HN HL) as [_ H].
  destruct H as [H _]; [left; lia | exact H].
Defined.

(** X28.  [updateCurves] of the two oldest variants shows the integral
    itself.  For whole frequencies whose sum stays below the thousand
    samples it shows 0.000 with the verdict orthogonal when they differ
    (or the first is zero), and 5.000, half the length of the domain,
    with the verdict not fully orthogonal when they are equal and not
    zero. *)
Theorem updateCurves_whole_frequencies (g : Curves.State) (k1 k2 : nat) :
  Curves.f1 g = INR k1 -> Curves.f2 g = INR k2 ->
  (k1 + k2 < Curves.pointsCount)%nat ->
  (k1 = k2 -> (0 < k1)%nat ->
   Curves.shown (Curves.updateCurves g) = 5000%Z
   /\ Curves.verdict (Curves.updateCurves g) = Curves.not_fully_orthogonal)
  /\ (k1 <> k2 \/ k1 = O ->
      Curves.shown (Curves.updateCurves g) = 0%Z
      /\ Curves.verdict (Curves.updateCurves g) = Curves.orthogonal).
Proof.
  intros H1 H2 HN.
  assert (HL : 0 < Curves.length) by (unfold Curves.length; lra).
  assert (Hi : Curves.integral (Curves.run_loop g)
               = Sigma Curves.pointsCount (fun i =>
                   sin (2 * PI * INR k1
                        * (INR i / INR Curves.pointsCount * Curves.length
                           / Curves.length))
                   * sin (2 * PI * INR k2
                          * (INR i / INR Curves.pointsCount * Curves.length
                             / Curves.length))
                   * (Curves.length / INR Curves.pointsCount))).
  { unfold Curves.run_loop. rewrite curves_integral, H1, H2. reflexivity. }
  unfold Curves.updateCurves. cbn [Curves.shown Curves.verdict].
  rewrite Hi. split.
  - intros E Hk. rewrite whole_sines_same by assumption.
    replace (Curves.length / 2) with 5 by (unfold Curves.length; lra).
    rewrite toFixed_five. split; [reflexivity |].
    destruct (Rlt_dec (Rabs 5) 0.1) as [Hlt | _]; [| reflexivity].
    rewrite Rabs_right in Hlt by lra. lra.
  - intros Hc.
    assert (Hz : Sigma Curves.pointsCount (fun i =>
                   sin (2 * PI * INR k1
                        * (INR i / INR Curves.pointsCount * Curves.length
                           / Curves.length))
                   * sin (2 * PI * INR k2
                          * (INR i / INR Curves.pointsCount * Curves.length
                             / Curves.length))
                   * (Curves.length / INR Curves.pointsCount)) = 0).
    { destruct Hc as [Hne | E0].
      - apply whole_sines_distinct; assumption.
      - apply whole_sines_zero; assumption. }
    rewrite Hz, toFixed_zero. split; [reflexivity |].
    destruct (Rlt_dec (Rabs 0) 0.1) as [_ | Hge]; [reflexivity |].
    rewrite Rabs_R0 in Hge. lra.
Qed.

Lemma updateCurves_whole_frequencies_witness :
  Curves.f1 (Curves.set_frequencies Curves.State0 4 4) = INR 4
  /\ Curves.shown
       (Curves.updateCurves (Curves.set_frequencies Curves.State0 4 4))
     = 5000%Z
  /\ Curves.shown (Curves.updateCurves Curves.State0) = 0%Z.
Proof.
  assert (E2 : 2 = INR 2) by (cbn; lra).
  assert (E3 : 3 = INR 3) by (cbn; lra).
  assert (E4 : 4 = INR 4) by (cbn; lra).
  assert (H8 : (4 + 4 < Curves.pointsCount)%nat)
    by (unfold Curves.pointsCount; lia).
  assert (H5 : (2 + 3 < Curves.pointsCount)%nat)
    by (unfold Curves.pointsCount; lia).
  split; [exact E4 |]. split.
  - destruct (updateCurves_whole_frequencies
                (Curves.set_frequencies Curves.State0 4 4) 4 4 E4 E4 H8)
      as [H _].
    destruct H as [H _]; [reflexivity | lia | exact H].
  - destruct (updateCurves_whole_frequencies Curves.State0 2 3 E2 E3 H5)
      as [_ H].
    destruct H as [H _]; [left; lia | exact H].
Defined.
